(** * Transformation tree (ts_modeling/tree/tree.py)

    A shallow embedding of the [Node] and [TTree] classes of [tree.py].
    Python objects live in a store indexed by reference; every method
    that mutates an object is a state transformer on that store, and an
    exception is an outcome that still carries the store, so that a
    partially applied mutation stays visible.

    [save] and [load_tree] hand the tree to [pickle], which is modelled
    from its documentation, on a file system that maps paths to
    pickles.

    Left out: [print_tree] and [print_nodes_as_list], which only write
    to the terminal; [Node.set_children] and [Node.copy], which no
    method of [TTree] calls. *)

From stdpp Require Import gmap strings list.
From Stdlib Require Import ZArith.

(** ** Outcomes and the state-and-exception monad *)

(** The exceptions the modelled code can raise.  [Exception] is the
    built-in class raised by [add_newpath]; [LoopError] and
    [AssertionError] come from the parent setter of anytree's
    [NodeMixin]; [IndexError] is Python's error for [path[0]] on an empty
    list; [RecursionError] is raised by the interpreter when a recursion
    (the generator of [PostOrderIter], the pickler) goes deeper than the
    recursion limit allows.  The last four belong to [save] and
    [load_tree]: [PicklingError] for an object that [pickle] cannot
    serialise, [AttributeError] for a name that the unpickling
    interpreter does not define, [FileNotFoundError] from [open], and
    [UnpicklingError], which stands for the errors of [pickle.load] on a
    file that does not hold a complete pickle ([UnpicklingError],
    [EOFError]). *)
Inductive exn :=
| Exception (msg : string)
| LoopError
| AssertionError
| IndexError
| RecursionError
| PicklingError
| AttributeError
| FileNotFoundError
| UnpicklingError.

(** A call returns normally with a value, raises, or (third case) has used up
    the fuel that bounds the walk towards the root in the loop check of
    the parent setter, a [while] loop in the library. *)
Inductive outcome (S A : Type) :=
| Ok (a : A) (s : S)
| Raise (e : exn) (s : S)
| OutOfFuel.
Arguments Ok {S A} a s.
Arguments Raise {S A} e s.
Arguments OutOfFuel {S A}.

Definition M (S A : Type) : Type := S -> outcome S A.

Definition ret {S A} (a : A) : M S A := fun s => Ok a s.

Definition bind {S A B} (m : M S A) (k : A -> M S B) : M S B :=
  fun s => match m s with
           | Ok a s' => k a s'
           | Raise e s' => Raise e s'
           | OutOfFuel => OutOfFuel
           end.

Definition raise {S A} (e : exn) : M S A := fun s => Raise e s.
Definition get {S} : M S S := fun s => Ok s s.
Definition modify {S} (f : S -> S) : M S unit := fun s => Ok tt (f s).

Notation "'do' x <- m ; k" := (bind m (fun x => k))
  (at level 10, x name, m at level 100, k at level 200).
Notation "'run' m ; k" := (bind m (fun _ => k))
  (at level 10, m at level 100, k at level 200).

(** ** Objects *)

(** References to [Node] objects. *)
Abbreviation loc := nat.

(** The operation a node carries: a Python callable, of which the tree
    only ever reads [__name__]. *)
Record callable := Callable { __name__ : string }.

(** ** class Node(NodeMixin) *)

Module Node.

(** The attributes of a [Node]: [name], [function] and [id] are set by
    [Node.__init__]; [parent] and [children] are the two private
    attributes behind [NodeMixin]'s properties of the same names. *)
Record t := mk {
  name : string;
  function : callable;
  parent : option loc;
  children : list loc;
  id : option Z
}.

Definition with_parent (p : option loc) (n : t) : t :=
  mk (name n) (function n) p (children n) (id n).
Definition with_children (c : list loc) (n : t) : t :=
  mk (name n) (function n) (parent n) c (id n).
Definition with_id (i : option Z) (n : t) : t :=
  mk (name n) (function n) (parent n) (children n) i.

(** Attribute reads through a reference. *)
Definition parent_of (h : gmap loc t) (l : loc) : option loc :=
  h !! l ≫= parent.
Definition children_of (h : gmap loc t) (l : loc) : list loc :=
  default [] (children <$> h !! l).
Definition id_of (h : gmap loc t) (l : loc) : option Z :=
  h !! l ≫= id.
Definition name_of (h : gmap loc t) (l : loc) : option string :=
  name <$> h !! l.

(** *** anytree's NodeMixin

    [Node] inherits [parent] and [children] from [NodeMixin] of the
    anytree library, which [tree.py] imports; the library is not part of
    the repository.  The definitions below follow its [nodemixin.py]:
    the setter of [parent] does nothing when the new parent is the old
    one; otherwise it refuses a parent that is the node itself or one of
    its descendants ([LoopError]), removes the node from the children of
    the old parent and appends it to the children of the new one.  Both
    list updates are guarded by the library's assertions on the children
    list. *)
Module NodeMixin.

(** [any(ancestor is self for ancestor in node.iter_path_reverse())]:
    the walk from [node] towards the root, stopped at the first
    hit. *)
Fixpoint on_path_reverse (fuel : nat) (h : gmap loc t)
    (self node : loc) : option bool :=
  match fuel with
  | O => None
  | S fuel' =>
      if decide (node = self) then Some true
      else match parent_of h node with
           | None => Some false
           | Some p => on_path_reverse fuel' h self p
           end
  end.

Definition __check_loop (fuel : nat) (self : loc) (node : option loc)
    : M (gmap loc t) unit :=
  fun h =>
    match node with
    | None => Ok tt h
    | Some n =>
        if decide (n = self) then Raise LoopError h
        else match on_path_reverse fuel h self n with
             | None => OutOfFuel
             | Some true => Raise LoopError h
             | Some false => Ok tt h
             end
    end.

Definition __detach (self : loc) (parent : option loc)
    : M (gmap loc t) unit :=
  fun h =>
    match parent with
    | None => Ok tt h
    | Some p =>
        let parentchildren := children_of h p in
        if bool_decide (self ∈ parentchildren) then
          let h1 :=
            alter (with_children
                     (filter (fun child => child ≠ self) parentchildren))
                  p h in
          Ok tt (alter (with_parent None) self h1)
        else Raise AssertionError h
    end.

Definition __attach (self : loc) (parent : option loc)
    : M (gmap loc t) unit :=
  fun h =>
    match parent with
    | None => Ok tt h
    | Some p =>
        let parentchildren := children_of h p in
        if bool_decide (self ∈ parentchildren) then Raise AssertionError h
        else
          let h1 :=
            alter (with_children (parentchildren ++ [self])) p h in
          Ok tt (alter (with_parent (Some p)) self h1)
    end.

(** The setter of the [parent] property. *)
Definition set_parent (fuel : nat) (self : loc) (value : option loc)
    : M (gmap loc t) unit :=
  do h <- get;
  let parent := parent_of h self in
  if decide (parent = value) then ret tt
  else
    run __check_loop fuel self value;
    run __detach self parent;
    __attach self value.

End NodeMixin.

(** [Node(function, parent)]: a new object with [name] taken from the
    callable, no identifier, and [parent] assigned through the
    property setter.  The [children] argument is passed by [copy]
    only, which no tree operation calls; the constructor is modelled
    for its default, [children=None]. *)
Definition __init__ (fuel : nat) (function : callable) (parent : option loc)
    : M (gmap loc t) loc :=
  do h <- get;
  let self := fresh (dom h) in
  run modify (insert self (mk (__name__ function) function None [] None));
  run NodeMixin.set_parent fuel self parent;
  ret self.

Definition set_id (self : loc) (id : Z) : M (gmap loc t) unit :=
  modify (alter (with_id (Some id)) self).

Definition get_id (self : loc) : M (gmap loc t) (option Z) :=
  do h <- get; ret (id_of h self).

Definition set_parent (fuel : nat) (self : loc) (parent : option loc)
    : M (gmap loc t) (option loc) :=
  run NodeMixin.set_parent fuel self parent;
  do h <- get; ret (parent_of h self).

End Node.

(** [PostOrderIter(node, filter_=...)] of anytree, collected into a
    list: the subtrees of the children in order, then the node itself,
    keeping the nodes that satisfy the filter.  The library's generator
    calls itself once per level of the tree, so the interpreter's
    recursion limit bounds the depth it can reach: the first argument is
    the number of levels that limit leaves, and the result is [None]
    where Python raises [RecursionError]. *)
Fixpoint PostOrderIter (fuel : nat) (h : gmap loc Node.t)
    (filter_ : loc -> bool) (node : loc) : option (list loc) :=
  match fuel with
  | O => None
  | S fuel' =>
      below ← mapM (PostOrderIter fuel' h filter_) (Node.children_of h node);
      Some (concat below ++ (if filter_ node then [node] else []))
  end.

(** ** class TTree *)

Module TTree.

Record t := mk {
  name : string;
  root : loc;
  id_iterator : Z;
  __nodes : list loc
}.

(** A tree object together with the store its nodes live in. *)
Record state := State {
  self : t;
  heap : gmap loc Node.t
}.

(** Run a [Node] method on the store of a tree state. *)
Definition on_heap {A} (m : M (gmap loc Node.t) A) : M state A :=
  fun st => match m (heap st) with
            | Ok a h => Ok a (State (self st) h)
            | Raise e h => Raise e (State (self st) h)
            | OutOfFuel => OutOfFuel
            end.

Definition on_self (f : t -> t) : M state unit :=
  modify (fun st => State (f (self st)) (heap st)).

(** The argument [path: Union[Node, [Node]]] of the path methods. *)
Inductive path_arg :=
| Single (node : loc)
| Many (nodes : list loc).

(** [if(type(path) is not list): path = [path]]. *)
Definition as_list (path : path_arg) : list loc :=
  match path with
  | Single node => [node]
  | Many nodes => nodes
  end.

Definition precondition_msg : string :=
  "Nodes within new path cannot be contained in the tree already.".

(** Truth value of [node.id]: [None] and [0] are false. *)
Definition id_truthy (h : gmap loc Node.t) (node : loc) : bool :=
  match Node.id_of h node with
  | Some i => negb (i =? 0)%Z
  | None => false
  end.

(** [TTree(name, root)]. *)
Definition __init__ (name : string) (root : loc)
    : M (gmap loc Node.t) t :=
  run Node.set_id root 0%Z;
  ret (mk name root 1%Z [root]).

Definition set_id (node : loc) : M state unit :=
  do st <- get;
  run on_heap (Node.set_id node (id_iterator (self st)));
  on_self (fun t => mk (name t) (root t) (id_iterator t + 1)%Z (__nodes t)).

Definition add_node (fuel : nat) (target new_node : option loc)
    : M state unit :=
  match target, new_node with
  | Some target, Some new_node =>
      do st <- get;
      if bool_decide (target ∈ __nodes (self st)) then
        run on_heap (Node.set_parent fuel new_node (Some target));
        run on_self (fun t => mk (name t) (root t) (id_iterator t)
                                 (__nodes t ++ [new_node]));
        set_id new_node
      else ret tt
  | _, _ => ret tt
  end.

Definition add_nodes (target : option loc) (nodes : list loc)
    : M state unit :=
  ret tt.

Definition add_nodes_byname (operator : string) (nodes : list loc)
    : M state unit :=
  ret tt.

(** The loop [for i in range(1, len(path))] of [__add_newpath_byref],
    with [prev] standing for [path[i-1]]. *)
Fixpoint chain (fuel : nat) (prev : loc) (rest : list loc) : M state unit :=
  match rest with
  | [] => ret tt
  | node :: rest' =>
      run on_heap (Node.set_parent fuel node (Some prev));
      run set_id node;
      chain fuel node rest'
  end.

Definition __add_newpath_byref (fuel : nat) (target : option loc)
    (path : list loc) : M state unit :=
  match path with
  | [] => raise IndexError
  | first :: rest =>
      run on_heap (Node.set_parent fuel first target);
      run set_id first;
      chain fuel first rest
  end.

(** The loop that rejects a path element whose [id] is true. *)
Fixpoint check_path (path : list loc) : M state unit :=
  match path with
  | [] => ret tt
  | node :: rest =>
      do st <- get;
      if id_truthy (heap st) node then raise (Exception precondition_msg)
      else check_path rest
  end.

Definition add_newpath (fuel : nat) (target : option loc) (path : path_arg)
    : M state unit :=
  let path := as_list path in
  run check_path path;
  __add_newpath_byref fuel target path.

(** [lambda n: n.id == target_id], the filter of the search in
    [add_newpath_byid]. *)
Definition has_id (h : gmap loc Node.t) (target_id : Z) (n : loc) : bool :=
  bool_decide (Node.id_of h n = Some target_id).

(** The loop [for target in targets] of [add_newpath_byid]. *)
Fixpoint each_target (fuel : nat) (targets : list loc) (path : list loc)
    : M state unit :=
  match targets with
  | [] => ret tt
  | target :: targets' =>
      run __add_newpath_byref fuel (Some target) path;
      each_target fuel targets' path
  end.

(** [fuel] serves twice: as the depth that the recursion limit leaves to
    the search, whose [RecursionError] leaves the list comprehension
    before any node is attached, and as the fuel of the parent setter in
    the loop over the targets. *)
Definition add_newpath_byid (fuel : nat) (target_id : Z) (path : path_arg)
    : M state unit :=
  let path := as_list path in
  run check_path path;
  do st <- get;
  match PostOrderIter fuel (heap st) (has_id (heap st) target_id)
          (root (self st)) with
  | None => raise RecursionError
  | Some targets => each_target fuel targets path
  end.

(** A method call [tree.m(...)] in a script that owns the store: the
    call runs on the tree object [tree] and hands back the updated
    object. *)
Definition call (tree : t) (m : M state unit) : M (gmap loc Node.t) t :=
  fun h => match m (State tree h) with
           | Ok _ st => Ok (self st) (heap st)
           | Raise e st => Raise e (heap st)
           | OutOfFuel => OutOfFuel
           end.

End TTree.

(** ** pickle

    [TTree.save] and [load_tree] hand the tree object to [pickle.dump]
    and [pickle.load] of Python's standard library, which is not part of
    the repository.  The definitions below follow the documentation of
    the module:
    - an instance is pickled through its attributes, and an object that
      was pickled before is written as a reference to the first copy, so
      that shared and recursive objects come back shared and recursive;
    - a function is pickled by its qualified name, not by value: the
      name must lead back to the function when it is pickled
      ([PicklingError] otherwise, as for a lambda) and must be defined
      where it is unpickled;
    - pickling a deeply nested structure raises [RecursionError];
    - unpickling creates the instances anew and restores their
      attributes; [__init__] is not called. *)
Module pickle.

(** What the interpreter contributes: how deep the pickler may nest the
    objects it descends into before the recursion limit is reached, and
    the functions that its modules define, by qualified name. *)
Record interpreter := Interpreter {
  recursion_limit : nat;
  globals : gmap string callable
}.

#[global] Instance callable_eq_dec : EqDecision callable.
Proof. solve_decision. Defined.

(** The pickle of a [Node]: its attributes, with every reference to a
    [Node] replaced by the position of that node in the memo, and the
    callable replaced by its name. *)
Record pnode := PNode {
  p_name : string;
  p_function : string;
  p_parent : option nat;
  p_children : list nat;
  p_id : option Z
}.

(** The pickle of a [TTree]: the attributes of the tree object and the
    nodes in the order in which the pickler met them. *)
Record stream := Stream {
  s_name : string;
  s_root : option nat;
  s_id_iterator : Z;
  s_nodes : list nat;
  s_objects : list pnode
}.

(** A file written by [dump]: a complete pickle, or what is left when
    [dump] raised after the file was opened for writing. *)
Inductive file :=
| Pickled (s : stream)
| Truncated.

(** The objects of a list saved one after the other, the memo handed
    on. *)
Fixpoint save_all {A} (save : A -> list loc -> exn + list loc)
    (objs : list A) (memo : list loc) : exn + list loc :=
  match objs with
  | [] => inr memo
  | obj :: objs' =>
      match save obj memo with
      | inl e => inl e
      | inr memo' => save_all save objs' memo'
      end
  end.

(** [Pickler.save] on a [Node]: a node that is in the memo is written as
    a reference; a new one is put in the memo, then its callable is
    written as a global and the nodes its attributes refer to are saved
    in turn, one level deeper.  A reference to no object of the store,
    which Python does not have, adds nothing. *)
Fixpoint Pickler_save (depth : nat) (globals : gmap string callable)
    (h : gmap loc Node.t) (obj : loc) (memo : list loc)
    : exn + list loc :=
  match depth with
  | O => inl RecursionError
  | S depth' =>
      if bool_decide (obj ∈ memo) then inr memo
      else match h !! obj with
           | None => inr memo
           | Some n =>
               if bool_decide (globals !! __name__ (Node.function n)
                               = Some (Node.function n))
               then save_all (Pickler_save depth' globals h)
                             (option_list (Node.parent n) ++ Node.children n)
                             (memo ++ [obj])
               else inl PicklingError
           end
  end.

(** The position of a node in the memo. *)
Definition index (memo : list loc) (l : loc) : option nat :=
  fst <$> list_find (fun x => x = l) memo.

Definition reduce (memo : list loc) (n : Node.t) : pnode :=
  PNode (Node.name n) (__name__ (Node.function n))
        (Node.parent n ≫= index memo)
        (omap (index memo) (Node.children n))
        (Node.id n).

(** [pickle.dump(tree, handle)]: the tree object takes the first level,
    its attributes [root] and [__nodes] lead to the nodes. *)
Definition dump (it : interpreter) (tree : TTree.t) (h : gmap loc Node.t)
    : exn + stream :=
  match recursion_limit it with
  | O => inl RecursionError
  | S depth =>
      match save_all (Pickler_save depth (globals it) h)
                     (TTree.root tree :: TTree.__nodes tree) [] with
      | inl e => inl e
      | inr memo =>
          inr (Stream (TTree.name tree)
                      (index memo (TTree.root tree))
                      (TTree.id_iterator tree)
                      (omap (index memo) (TTree.__nodes tree))
                      (omap (fun l => reduce memo <$> h !! l) memo))
      end
  end.

(** One unpickled [Node]: the callable is looked up by name, the
    references are read from the memo of the new objects. *)
Definition rebuild (globals : gmap string callable) (refs : list loc)
    (o : pnode) : exn + Node.t :=
  match globals !! p_function o with
  | None => inl AttributeError
  | Some function =>
      match match p_parent o with
            | None => Some None
            | Some i => Some <$> refs !! i
            end,
            mapM (fun i => refs !! i) (p_children o) with
      | Some parent, Some children =>
          inr (Node.mk (p_name o) function parent children (p_id o))
      | _, _ => inl UnpicklingError
      end
  end.

Fixpoint rebuild_all (globals : gmap string callable) (refs : list loc)
    (objs : list pnode) : exn + list Node.t :=
  match objs with
  | [] => inr []
  | o :: objs' =>
      match rebuild globals refs o with
      | inl e => inl e
      | inr n =>
          match rebuild_all globals refs objs' with
          | inl e => inl e
          | inr ns => inr (n :: ns)
          end
      end
  end.

(** [pickle.load(handle)]: one new object per pickled node, in the order
    of the stream, none of them an object of the store [h]. *)
Definition load (it : interpreter) (s : stream) (h : gmap loc Node.t)
    : exn + TTree.t * gmap loc Node.t :=
  let refs := fresh_list (length (s_objects s)) (dom h) in
  match rebuild_all (globals it) refs (s_objects s) with
  | inl e => inl e
  | inr nodes =>
      match s_root s ≫= (fun i => refs !! i),
            mapM (fun i => refs !! i) (s_nodes s) with
      | Some root, Some listed =>
          inr (TTree.mk (s_name s) root (s_id_iterator s) listed,
               list_to_map (zip refs nodes) ∪ h)
      | _, _ => inl UnpicklingError
      end
  end.

End pickle.

(** ** TTree.save and load_tree

    Both run on a store of objects and on the files of the file system,
    by path; any path can be written. *)

(** [TTree.save(file)].  Opening the file for writing empties it, so a
    [dump] that raises leaves a file that holds no pickle. *)
Definition save (it : pickle.interpreter) (file : string)
    : M (TTree.state * gmap string pickle.file) unit :=
  fun w =>
    match pickle.dump it (TTree.self w.1) (TTree.heap w.1) with
    | inr s => Ok tt (w.1, <[file := pickle.Pickled s]> w.2)
    | inl e => Raise e (w.1, <[file := pickle.Truncated]> w.2)
    end.

(** [load_tree(file)]. *)
Definition load_tree (it : pickle.interpreter) (file : string)
    : M (gmap loc Node.t * gmap string pickle.file) TTree.t :=
  fun w =>
    match w.2 !! file with
    | None => Raise FileNotFoundError w
    | Some pickle.Truncated => Raise UnpicklingError w
    | Some (pickle.Pickled s) =>
        match pickle.load it s w.1 with
        | inl e => Raise e w
        | inr (tree, h) => Ok tree (h, w.2)
        end
    end.

(** * Vocabulary of the statements *)

(** The two directions of the parent/children link agree: [c] has
    parent [p] exactly when [c] is in the children list of [p].  This is
    the invariant that anytree maintains, and that its assertions
    check. *)
Definition consistent (h : gmap loc Node.t) : Prop :=
  forall c p, Node.parent_of h c = Some p <-> c ∈ Node.children_of h p.

(** The same check, computed over the allocated objects. *)
Definition consistentb (h : gmap loc Node.t) : bool :=
  forallb (fun '(l, n) =>
             match Node.parent n with
             | Some p => bool_decide (l ∈ Node.children_of h p)
             | None => true
             end
             && forallb (fun c => bool_decide (Node.parent_of h c = Some l))
                        (Node.children n))
          (map_to_list h).

(** [h'] differs from [h] at most in the parent of [s] and in children
    lists: parents of the other nodes, identifiers, names and the set of
    allocated objects are those of [h]. *)
Definition reparents (s : loc) (h h' : gmap loc Node.t) : Prop :=
  (forall l, l ≠ s -> Node.parent_of h' l = Node.parent_of h l)
  /\ (forall l, Node.id_of h' l = Node.id_of h l)
  /\ (forall l, Node.name_of h' l = Node.name_of h l)
  /\ (forall l, is_Some (h' !! l) <-> is_Some (h !! l)).

(** [node] is neither [target] nor an ancestor of it, and the walk from
    [target] to its root takes at most [fuel] steps. *)
Definition not_above (fuel : nat) (h : gmap loc Node.t) (node target : loc)
    : Prop :=
  Node.NodeMixin.on_path_reverse fuel h node target = Some false.

(** The tree object after [k] insertions: the counter has advanced by
    [k]. *)
Definition advanced (k : Z) (t : TTree.t) : TTree.t :=
  TTree.mk (TTree.name t) (TTree.root t) (TTree.id_iterator t + k)
           (TTree.__nodes t).

(** The tree object with one more entry in its list of nodes. *)
Definition registered (n : loc) (t : TTree.t) : TTree.t :=
  TTree.mk (TTree.name t) (TTree.root t) (TTree.id_iterator t)
           (TTree.__nodes t ++ [n]).

(** [h'] is [h] with the nodes of [path] chained under [prev] and
    numbered from [i]: the first has parent [prev], each further one has
    its predecessor as parent, the links are consistent (so each is in
    the children list of its parent, and of no other node), and nothing
    else about parents, identifiers, names or allocation has changed. *)
Definition chained (prev : loc) (path : list loc) (i : Z)
    (h h' : gmap loc Node.t) : Prop :=
  consistent h'
  /\ (forall k n, path !! k = Some n ->
        Node.parent_of h' n = (prev :: path) !! k
        /\ Node.id_of h' n = Some (i + Z.of_nat k)%Z)
  /\ (forall l, l ∉ path ->
        Node.parent_of h' l = Node.parent_of h l
        /\ Node.id_of h' l = Node.id_of h l)
  /\ (forall l, Node.name_of h' l = Node.name_of h l)
  /\ (forall l, is_Some (h' !! l) <-> is_Some (h !! l)).

(** ** Scripts

    The callables of the repository's test module ([testops.py], known
    here by name only) and the concrete runs used below.  A script starts
    from the empty store, so that every object it handles was built by
    [Node(...)] and [TTree(...)]. *)

Definition op_root : callable := Callable "root".
Definition op1 : callable := Callable "op1".
Definition op2 : callable := Callable "op2".
Definition op3 : callable := Callable "op3".

(** Fuel for the scripts; their trees have depth at most three. *)
Definition enough : nat := 8.

(** [tree = TTree("test", Node(root)); nodes = [Node(op1), Node(op2),
    Node(op3)]], the first two lines of the repository's tests. *)
Definition test_setup : M (gmap loc Node.t) (TTree.t * list loc) :=
  do r <- Node.__init__ enough op_root None;
  do tree <- TTree.__init__ "test" r;
  do a <- Node.__init__ enough op1 None;
  do b <- Node.__init__ enough op2 None;
  do c <- Node.__init__ enough op3 None;
  ret (tree, [a; b; c]).

(** The state [test_setup] ends in: root [0] with identifier 0, and the
    three detached nodes [1], [2], [3]. *)
Definition test_state : TTree.state :=
  TTree.State
    (TTree.mk "test" 0 1 [0])
    (<[0 := Node.mk "root" op_root None [] (Some 0%Z)]>
       (<[1 := Node.mk "op1" op1 None [] None]>
          (<[2 := Node.mk "op2" op2 None [] None]>
             (<[3 := Node.mk "op3" op3 None [] None]> ∅)))).

(** [test_setup] followed by [tree.add_node(tree.root, a)] and
    [tree.add_node(tree.root, b)]: root [0] with the children [1] and
    [2], and [3] still detached. *)
Definition family_setup : M (gmap loc Node.t) TTree.t :=
  do x <- test_setup;
  let tree := x.1 in
  do tree <- TTree.call tree (TTree.add_node enough (Some 0) (Some 1));
  do tree <- TTree.call tree (TTree.add_node enough (Some 0) (Some 2));
  ret tree.

Definition family_state : TTree.state :=
  TTree.State
    (TTree.mk "test" 0 3 [0; 1; 2])
    (<[0 := Node.mk "root" op_root None [1; 2] (Some 0%Z)]>
       (<[1 := Node.mk "op1" op1 (Some 0) [] (Some 1%Z)]>
          (<[2 := Node.mk "op2" op2 (Some 0) [] (Some 2%Z)]>
             (<[3 := Node.mk "op3" op3 None [] None]> ∅)))).

(** Two trees, each on its own root: [t1 = TTree("t1", Node(root));
    t2 = TTree("t2", Node(op1))]. *)
Definition two_roots_setup : M (gmap loc Node.t) (TTree.t * TTree.t) :=
  do r1 <- Node.__init__ enough op_root None;
  do r2 <- Node.__init__ enough op1 None;
  do t1 <- TTree.__init__ "t1" r1;
  do t2 <- TTree.__init__ "t2" r2;
  ret (t1, t2).

(** The store [two_roots_setup] ends in: both roots carry the identifier
    0. *)
Definition two_roots_heap : gmap loc Node.t :=
  <[0 := Node.mk "root" op_root None [] (Some 0%Z)]>
    (<[1 := Node.mk "op1" op1 None [] (Some 0%Z)]> ∅).

Definition two_roots_t1 : TTree.t := TTree.mk "t1" 0 1 [0].
Definition two_roots_t2 : TTree.t := TTree.mk "t2" 1 1 [1].

(** A second tree built on a node of the first:
    [t1 = TTree("t1", r1); t1.add_node(r1, r2); t2 = TTree("t2", r2)],
    with one more detached node [a = Node(op2)]. *)
Definition subtree_setup : M (gmap loc Node.t) (TTree.t * TTree.t) :=
  do r1 <- Node.__init__ enough op_root None;
  do r2 <- Node.__init__ enough op1 None;
  do a <- Node.__init__ enough op2 None;
  do t1 <- TTree.__init__ "t1" r1;
  do t1 <- TTree.call t1 (TTree.add_node enough (Some r1) (Some r2));
  do t2 <- TTree.__init__ "t2" r2;
  ret (t1, t2).

(** The store [subtree_setup] ends in: [t2]'s constructor has reset the
    identifier of [1] to 0, the identifier of [t1]'s root. *)
Definition subtree_heap : gmap loc Node.t :=
  <[0 := Node.mk "root" op_root None [1] (Some 0%Z)]>
    (<[1 := Node.mk "op1" op1 (Some 0) [] (Some 0%Z)]>
       (<[2 := Node.mk "op2" op2 None [] None]> ∅)).

Definition subtree_t1 : TTree.t := TTree.mk "t1" 0 2 [0; 1].
Definition subtree_t2 : TTree.t := TTree.mk "t2" 1 1 [1].

(** Every node below [root], [root] included. *)
Definition reachable (fuel : nat) (h : gmap loc Node.t) (root : loc)
    : option (list loc) :=
  PostOrderIter fuel h (fun _ => true) root.

(** A method keeps a relation between the state it starts from and the
    state it ends in, however it ends. *)
Definition preserves {A} (R : TTree.state -> TTree.state -> Prop)
    (m : M TTree.state A) : Prop :=
  forall st, match m st with
             | Ok _ st' | Raise _ st' => R st st'
             | OutOfFuel => True
             end.

(** The two states hold the same objects: nothing was allocated. *)
Definition same_objects (st st' : TTree.state) : Prop :=
  forall l, is_Some (TTree.heap st' !! l) <-> is_Some (TTree.heap st !! l).

(** The identifiers of the nodes in the tree's list are pairwise
    different and lie in [[0, id_iterator)]. *)
Definition ids_unique_in_range (st : TTree.state) : Prop :=
  (forall n, n ∈ TTree.__nodes (TTree.self st) ->
     exists i, Node.id_of (TTree.heap st) n = Some i
               /\ (0 <= i < TTree.id_iterator (TTree.self st))%Z)
  /\ (forall n m,
        n ∈ TTree.__nodes (TTree.self st) ->
        m ∈ TTree.__nodes (TTree.self st) ->
        Node.id_of (TTree.heap st) n = Node.id_of (TTree.heap st) m ->
        n = m).

(** A sequence of [add_node] calls. *)
Fixpoint add_node_all (fuel : nat) (calls : list (option loc * option loc))
    : M TTree.state unit :=
  match calls with
  | [] => ret tt
  | (target, new_node) :: calls' =>
      run TTree.add_node fuel target new_node;
      add_node_all fuel calls'
  end.

(** The two states have the same list of nodes. *)
Definition same_nodes_list (st st' : TTree.state) : Prop :=
  TTree.__nodes (TTree.self st') = TTree.__nodes (TTree.self st).

(** ** Vocabulary of the further properties *)

(** [node.iter_path_reverse()] of anytree collected into a list: the
    node, its parent, and so on up to a node without parent. *)
Fixpoint iter_path_reverse (fuel : nat) (h : gmap loc Node.t) (node : loc)
    : option (list loc) :=
  match fuel with
  | O => None
  | S fuel' =>
      match Node.parent_of h node with
      | None => Some [node]
      | Some p => cons node <$> iter_path_reverse fuel' h p
      end
  end.

(** The parent links form a forest: from every node the walk towards
    the root ends. *)
Definition forest (h : gmap loc Node.t) : Prop :=
  forall l, exists fuel, is_Some (iter_path_reverse fuel h l).

(** The same, computed: from every allocated node the walk ends within
    as many steps as there are objects. *)
Definition forestb (h : gmap loc Node.t) : bool :=
  forallb (fun '(l, _) => bool_decide (is_Some (iter_path_reverse (size h) h l)))
          (map_to_list h).

(** What a node was built from: its name and its callable. *)
Definition payload_of (h : gmap loc Node.t) (l : loc)
    : option (string * callable) :=
  (fun n => (Node.name n, Node.function n)) <$> h !! l.

(** The two states hold the same objects, each with the name and the
    callable it had: nothing was allocated, dropped or renamed. *)
Definition same_payload (st st' : TTree.state) : Prop :=
  forall l, payload_of (TTree.heap st') l = payload_of (TTree.heap st) l.

(** From [st] to [st'] the parent links stayed a forest. *)
Definition keeps_forest (st st' : TTree.state) : Prop :=
  forest (TTree.heap st) -> forest (TTree.heap st').

(** From [st] to [st'] identifiers came from the counter only: the
    counter did not go down, and every node with an identifier either
    had it before or got one of the values the counter went through. *)
Definition issues (st st' : TTree.state) : Prop :=
  (TTree.id_iterator (TTree.self st) <= TTree.id_iterator (TTree.self st'))%Z
  /\ forall l i,
       Node.id_of (TTree.heap st') l = Some i ->
       Node.id_of (TTree.heap st) l = Some i
       \/ (TTree.id_iterator (TTree.self st) <= i
           < TTree.id_iterator (TTree.self st'))%Z.

(** From [st] to [st'] the tree kept its name and its root, and its
    list of nodes only grew at the end. *)
Definition grows (st st' : TTree.state) : Prop :=
  TTree.name (TTree.self st') = TTree.name (TTree.self st)
  /\ TTree.root (TTree.self st') = TTree.root (TTree.self st)
  /\ TTree.__nodes (TTree.self st) `prefix_of` TTree.__nodes (TTree.self st').

(** [n] is [root] or is below it: it is reached from [root] through
    children lists. *)
Inductive descends (h : gmap loc Node.t) (root : loc) : loc -> Prop :=
| descends_root : descends h root root
| descends_child n c :
    descends h root n -> c ∈ Node.children_of h n -> descends h root c.

(** ** Vocabulary of the round trip through a file *)

(** The callable of a node can be pickled: its name leads back to it. *)
Definition importable (it : pickle.interpreter) (n : Node.t) : Prop :=
  pickle.globals it !! __name__ (Node.function n) = Some (Node.function n).

(** A node record with its references renamed by [rho]. *)
Definition rename (rho : loc -> loc) (n : Node.t) : Node.t :=
  Node.mk (Node.name n) (Node.function n) (rho <$> Node.parent n)
          (rho <$> Node.children n) (Node.id n).

(** The new object that stands for [l], when the objects [memo] were
    unpickled as the objects [refs], position by position. *)
Definition renaming (memo refs : list loc) (l : loc) : loc :=
  default l (pickle.index memo l ≫= fun i => refs !! i).

(** [objs] holds the parent and the children of each of its nodes. *)
Definition closed_under_links (h : gmap loc Node.t) (objs : list loc) : Prop :=
  forall l, l ∈ objs ->
    (forall p, Node.parent_of h l = Some p -> p ∈ objs)
    /\ (forall c, c ∈ Node.children_of h l -> c ∈ objs).

(** [st'] holds a copy of the tree of [st], with [rho l] standing for
    the node [l]: the tree objects agree on [name] and [id_iterator],
    [root] and [__nodes] are renamed, and every node of [objs] has a
    copy with the same name, callable and identifier, whose parent and
    children are the copies of its parent and children, in the same
    order. *)
Definition copy_of (rho : loc -> loc) (objs : list loc)
    (st st' : TTree.state) : Prop :=
  TTree.name (TTree.self st') = TTree.name (TTree.self st)
  /\ TTree.id_iterator (TTree.self st') = TTree.id_iterator (TTree.self st)
  /\ TTree.root (TTree.self st') = rho (TTree.root (TTree.self st))
  /\ TTree.__nodes (TTree.self st') = rho <$> TTree.__nodes (TTree.self st)
  /\ (forall l, l ∈ objs ->
        exists n, TTree.heap st !! l = Some n
                  /\ TTree.heap st' !! rho l = Some (rename rho n)).

(** The pickler has gone from the memo [memo] to the memo [memo']:
    entries were added at the end, without repetition, and each new
    entry is a node whose callable was accepted and whose parent and
    children are in the memo as well. *)
Definition memo_grows (g : gmap string callable) (h : gmap loc Node.t)
    (memo memo' : list loc) : Prop :=
  (exists more, memo' = memo ++ more)
  /\ (NoDup memo -> NoDup memo')
  /\ (forall l, l ∈ memo' -> l ∉ memo ->
        exists n, h !! l = Some n
                  /\ g !! __name__ (Node.function n) = Some (Node.function n)
                  /\ (forall r,
                        r ∈ option_list (Node.parent n) ++ Node.children n ->
                        r ∈ memo')).

(** The objects of the store that are not in the memo yet. *)
Definition unsaved (h : gmap loc Node.t) (memo : list loc) : gset loc :=
  dom h ∖ list_to_set memo.

(** [chain] leads down from [node]: its first element is a child of
    [node], each further one a child of its predecessor. *)
Fixpoint descending (h : gmap loc Node.t) (node : loc) (chain : list loc)
    : Prop :=
  match chain with
  | [] => True
  | c :: chain' => c ∈ Node.children_of h node /\ descending h c chain'
  end.

(** ** Scripts that save a tree *)

(** An interpreter for the scripts: the callables of [testops.py] are
    functions of a module, and the pickler has room for trees far
    deeper than those of the scripts. *)
Definition python : pickle.interpreter :=
  pickle.Interpreter 100
    (list_to_map [("root", op_root); ("op1", op1); ("op2", op2);
                  ("op3", op3)]).

(** [test_setup] followed by [tree.add_newpath(a, tree.root)]: the
    root, whose identifier 0 passes the check of the path, is attached
    under [a] (node [1]) and numbered again. *)
Definition renumbered_setup : M (gmap loc Node.t) TTree.t :=
  do x <- test_setup;
  TTree.call x.1 (TTree.add_newpath enough (Some 1) (TTree.Single 0)).

Definition renumbered_state : TTree.state :=
  TTree.State
    (TTree.mk "test" 0 2 [0])
    (<[0 := Node.mk "root" op_root (Some 1) [] (Some 1%Z)]>
       (<[1 := Node.mk "op1" op1 None [0] None]>
          (<[2 := Node.mk "op2" op2 None [] None]>
             (<[3 := Node.mk "op3" op3 None [] None]> ∅)))).

(** [tree = TTree("test", Node(lambda x: x))]: the [__name__] of a
    lambda is ["<lambda>"], which no module defines. *)
Definition op_lambda : callable := Callable "<lambda>".

Definition lambda_setup : M (gmap loc Node.t) TTree.t :=
  do r <- Node.__init__ enough op_lambda None;
  TTree.__init__ "test" r.

Definition lambda_state : TTree.state :=
  TTree.State
    (TTree.mk "test" 0 1 [0])
    (<[0 := Node.mk "<lambda>" op_lambda None [] (Some 0%Z)]> ∅).

(** * Properties *)

(** ** The monad *)

Lemma bind_Ok {S A B} (m : M S A) (k : A -> M S B) s a s' :
  m s = Ok a s' -> bind m k s = k a s'.
Proof. unfold bind. intros ->. reflexivity. Qed.

Lemma bind_Raise {S A B} (m : M S A) (k : A -> M S B) s e s' :
  m s = Raise e s' -> bind m k s = Raise e s'.
Proof. unfold bind. intros ->. reflexivity. Qed.

(** ** Attribute reads after an update of the store *)

Section store.
Implicit Types (h : gmap loc Node.t) (l s p q : loc).

Lemma parent_of_alter_children h c p l :
  Node.parent_of (alter (Node.with_children c) p h) l = Node.parent_of h l.
Proof.
  unfold Node.parent_of. rewrite lookup_alter. case_decide; [subst|done].
  by destruct (h !! l).
Qed.

Lemma parent_of_alter_id h i p l :
  Node.parent_of (alter (Node.with_id i) p h) l = Node.parent_of h l.
Proof.
  unfold Node.parent_of. rewrite lookup_alter. case_decide; [subst|done].
  by destruct (h !! l).
Qed.

Lemma parent_of_alter_parent_ne h v s l :
  l ≠ s ->
  Node.parent_of (alter (Node.with_parent v) s h) l = Node.parent_of h l.
Proof. intros. unfold Node.parent_of. by rewrite lookup_alter_ne. Qed.

Lemma parent_of_alter_parent_eq h v s :
  is_Some (h !! s) ->
  Node.parent_of (alter (Node.with_parent v) s h) s = v.
Proof.
  intros [n Hn]. unfold Node.parent_of. by rewrite lookup_alter_eq, Hn.
Qed.

Lemma children_of_alter_parent h v s l :
  Node.children_of (alter (Node.with_parent v) s h) l = Node.children_of h l.
Proof.
  unfold Node.children_of. rewrite lookup_alter. case_decide; [subst|done].
  by destruct (h !! l).
Qed.

Lemma children_of_alter_id h i s l :
  Node.children_of (alter (Node.with_id i) s h) l = Node.children_of h l.
Proof.
  unfold Node.children_of. rewrite lookup_alter. case_decide; [subst|done].
  by destruct (h !! l).
Qed.

Lemma children_of_alter_children_ne h c p l :
  l ≠ p ->
  Node.children_of (alter (Node.with_children c) p h) l = Node.children_of h l.
Proof. intros. unfold Node.children_of. by rewrite lookup_alter_ne. Qed.

Lemma children_of_alter_children_eq h c p :
  is_Some (h !! p) ->
  Node.children_of (alter (Node.with_children c) p h) p = c.
Proof.
  intros [n Hn]. unfold Node.children_of. by rewrite lookup_alter_eq, Hn.
Qed.

Lemma id_of_alter_parent h v s l :
  Node.id_of (alter (Node.with_parent v) s h) l = Node.id_of h l.
Proof.
  unfold Node.id_of. rewrite lookup_alter. case_decide; [subst|done].
  by destruct (h !! l).
Qed.

Lemma id_of_alter_children h c s l :
  Node.id_of (alter (Node.with_children c) s h) l = Node.id_of h l.
Proof.
  unfold Node.id_of. rewrite lookup_alter. case_decide; [subst|done].
  by destruct (h !! l).
Qed.

Lemma id_of_alter_id_ne h i s l :
  l ≠ s -> Node.id_of (alter (Node.with_id i) s h) l = Node.id_of h l.
Proof. intros. unfold Node.id_of. by rewrite lookup_alter_ne. Qed.

Lemma id_of_alter_id_eq h i s :
  is_Some (h !! s) -> Node.id_of (alter (Node.with_id i) s h) s = i.
Proof. intros [n Hn]. unfold Node.id_of. by rewrite lookup_alter_eq, Hn. Qed.

Lemma name_of_alter h (f : Node.t -> Node.t) s l :
  (forall n, Node.name (f n) = Node.name n) ->
  Node.name_of (alter f s h) l = Node.name_of h l.
Proof.
  intros Hf. unfold Node.name_of. rewrite lookup_alter.
  case_decide; [subst|done]. destruct (h !! l); simpl; [|done].
  by rewrite Hf.
Qed.

Lemma allocated_alter h (f : Node.t -> Node.t) s l :
  is_Some (alter f s h !! l) <-> is_Some (h !! l).
Proof.
  rewrite lookup_alter. case_decide; [subst|done].
  by rewrite fmap_is_Some.
Qed.

Lemma parent_of_allocated h l p :
  Node.parent_of h l = Some p -> is_Some (h !! l).
Proof. unfold Node.parent_of. destruct (h !! l); [eauto|done]. Qed.

Lemma children_of_allocated h l c :
  c ∈ Node.children_of h l -> is_Some (h !! l).
Proof.
  unfold Node.children_of. destruct (h !! l); [eauto|].
  simpl. by intros ?%elem_of_nil.
Qed.

End store.

(** ** Consistency of the parent and children links *)

Section links.
Implicit Types (h : gmap loc Node.t) (l s p q t : loc).

Lemma consistentb_sound h : consistentb h = true -> consistent h.
Proof.
  unfold consistentb. rewrite forallb_forall. intros Hall c p. split.
  - intros Hp. unfold Node.parent_of in Hp.
    destruct (h !! c) as [n|] eqn:Hc; [simpl in Hp|done].
    specialize (Hall (c, n)). simpl in Hall. rewrite Hp in Hall.
    apply andb_prop in Hall as [Hin _].
    + by apply bool_decide_eq_true in Hin.
    + apply list_elem_of_In. by apply elem_of_map_to_list.
  - intros Hin. unfold Node.children_of in Hin.
    destruct (h !! p) as [n|] eqn:Hp; simpl in Hin;
      [|by apply elem_of_nil in Hin].
    specialize (Hall (p, n)). simpl in Hall.
    apply andb_prop in Hall as [_ Hch].
    + rewrite forallb_forall in Hch.
      specialize (Hch c). apply bool_decide_eq_true in Hch; [done|].
      by apply list_elem_of_In.
    + apply list_elem_of_In. by apply elem_of_map_to_list.
Qed.

Lemma consistent_empty : consistent ∅.
Proof.
  intros c p. unfold Node.parent_of, Node.children_of.
  rewrite !lookup_empty. simpl. split; [done|by intros ?%elem_of_nil].
Qed.

Lemma reparents_refl s h : reparents s h h.
Proof. by repeat split. Qed.

Lemma reparents_trans s h1 h2 h3 :
  reparents s h1 h2 -> reparents s h2 h3 -> reparents s h1 h3.
Proof.
  intros (Ha & Hb & Hc & Hd) (Ha' & Hb' & Hc' & Hd'). repeat split.
  - intros l Hl. by rewrite Ha', Ha.
  - intros l. by rewrite Hb', Hb.
  - intros l. by rewrite Hc', Hc.
  - intros Hl. apply Hd, Hd', Hl.
  - intros Hl. apply Hd', Hd, Hl.
Qed.

(** Removing a node from the children of its parent. *)
Lemma detach_ok h s p :
  consistent h -> Node.parent_of h s = Some p ->
  exists hd, Node.NodeMixin.__detach s (Some p) h = Ok tt hd
             /\ consistent hd /\ Node.parent_of hd s = None
             /\ reparents s h hd.
Proof.
  intros Hc Hp. unfold Node.NodeMixin.__detach.
  assert (Hin : s ∈ Node.children_of h p) by by apply Hc.
  rewrite bool_decide_eq_true_2 by done.
  assert (Hs : is_Some (h !! s)) by by eapply parent_of_allocated.
  assert (Hpa : is_Some (h !! p)) by by eapply children_of_allocated.
  eexists. split; [reflexivity|]. split; [|split].
  - intros c q.
    rewrite children_of_alter_parent.
    destruct (decide (c = s)) as [->|Hcs].
    + rewrite parent_of_alter_parent_eq by by apply allocated_alter.
      split; [done|]. intros Hq. exfalso.
      destruct (decide (q = p)) as [->|Hqp].
      * rewrite children_of_alter_children_eq in Hq by done.
        apply list_elem_of_filter in Hq as [Hne _]. by apply Hne.
      * rewrite children_of_alter_children_ne in Hq by done.
        apply Hc in Hq. congruence.
    + rewrite parent_of_alter_parent_ne, parent_of_alter_children by done.
      rewrite (Hc c q).
      destruct (decide (q = p)) as [->|Hqp].
      * rewrite children_of_alter_children_eq by done.
        rewrite list_elem_of_filter. tauto.
      * by rewrite children_of_alter_children_ne.
  - rewrite parent_of_alter_parent_eq; [done|by apply allocated_alter].
  - repeat split.
    + intros l Hl.
      by rewrite parent_of_alter_parent_ne, parent_of_alter_children.
    + intros l. by rewrite id_of_alter_parent, id_of_alter_children.
    + intros l. by rewrite !name_of_alter.
    + intros Hl. by apply allocated_alter, allocated_alter in Hl.
    + intros Hl. by apply allocated_alter, allocated_alter.
Qed.

(** Appending a parentless node to the children of its new parent. *)
Lemma attach_ok h s t :
  consistent h -> Node.parent_of h s = None ->
  is_Some (h !! s) -> is_Some (h !! t) ->
  exists ha, Node.NodeMixin.__attach s (Some t) h = Ok tt ha
             /\ consistent ha /\ Node.parent_of ha s = Some t
             /\ reparents s h ha.
Proof.
  intros Hc Hp Hs Ht. unfold Node.NodeMixin.__attach.
  assert (Hnin : s ∉ Node.children_of h t).
  { intros Hin. apply Hc in Hin. congruence. }
  rewrite bool_decide_eq_false_2 by done.
  eexists. split; [reflexivity|]. split; [|split].
  - intros c q.
    rewrite children_of_alter_parent.
    destruct (decide (c = s)) as [->|Hcs].
    + rewrite parent_of_alter_parent_eq by by apply allocated_alter.
      destruct (decide (q = t)) as [->|Hqt].
      * rewrite children_of_alter_children_eq by done.
        rewrite elem_of_app, list_elem_of_singleton. tauto.
      * rewrite children_of_alter_children_ne by done.
        rewrite <- (Hc s q), Hp. split; congruence.
    + rewrite parent_of_alter_parent_ne, parent_of_alter_children by done.
      rewrite (Hc c q).
      destruct (decide (q = t)) as [->|Hqt].
      * rewrite children_of_alter_children_eq by done.
        rewrite elem_of_app, list_elem_of_singleton. tauto.
      * by rewrite children_of_alter_children_ne.
  - rewrite parent_of_alter_parent_eq; [done|by apply allocated_alter].
  - repeat split.
    + intros l Hl.
      by rewrite parent_of_alter_parent_ne, parent_of_alter_children.
    + intros l. by rewrite id_of_alter_parent, id_of_alter_children.
    + intros l. by rewrite !name_of_alter.
    + intros Hl. by apply allocated_alter, allocated_alter in Hl.
    + intros Hl. by apply allocated_alter, allocated_alter.
Qed.

End links.

(** ** The walk towards the root *)

Section walk.
Implicit Types (h : gmap loc Node.t) (l s p q t : loc).

Lemma on_path_reverse_mono fuel fuel' h s x b :
  Node.NodeMixin.on_path_reverse fuel h s x = Some b -> fuel <= fuel' ->
  Node.NodeMixin.on_path_reverse fuel' h s x = Some b.
Proof.
  revert fuel' x. induction fuel as [|fuel IH]; intros fuel' x; [done|].
  intros Hw Hle. destruct fuel' as [|fuel']; [lia|]. simpl in *.
  destruct (decide (x = s)); [done|].
  destruct (Node.parent_of h x); [|done]. apply IH; [done|lia].
Qed.

(** A walk that does not meet [n] is not affected by a change of the
    parent of [n]. *)
Lemma on_path_reverse_stable fuel h h' n x :
  not_above fuel h n x ->
  (forall l, l ≠ n -> Node.parent_of h' l = Node.parent_of h l) ->
  forall m, Node.NodeMixin.on_path_reverse fuel h' m x
            = Node.NodeMixin.on_path_reverse fuel h m x.
Proof.
  unfold not_above. intros Hn Hframe m. revert x Hn.
  induction fuel as [|fuel IH]; intros x Hn; [done|]. simpl in *.
  destruct (decide (x = n)) as [|Hxn]; [done|].
  rewrite (Hframe x Hxn).
  destruct (decide (x = m)); [done|].
  destruct (Node.parent_of h x); [|done]. by apply IH.
Qed.

Lemma not_above_ne fuel h n t : not_above fuel h n t -> t ≠ n.
Proof.
  unfold not_above. destruct fuel; [done|]. simpl.
  by destruct (decide (t = n)).
Qed.

Lemma not_above_mono fuel fuel' h n t :
  not_above fuel h n t -> fuel <= fuel' -> not_above fuel' h n t.
Proof. apply on_path_reverse_mono. Qed.

(** One more step of the walk: below a node that was just linked to
    [t]. *)
Lemma not_above_step fuel h m n t :
  m ≠ n -> Node.parent_of h n = Some t -> not_above fuel h m t ->
  not_above (S fuel) h m n.
Proof.
  unfold not_above. intros Hmn Hp Hw. simpl.
  destruct (decide (n = m)); [congruence|]. by rewrite Hp.
Qed.

End walk.

(** ** The parent setter *)

Section setter.
Implicit Types (h : gmap loc Node.t) (l s p q t : loc).

(** The setter succeeds on a consistent store when the new parent is
    not the node itself nor below it; the links stay consistent. *)
Lemma set_parent_ok fuel h s t :
  consistent h -> is_Some (h !! s) -> is_Some (h !! t) ->
  Node.parent_of h s = Some t \/ not_above fuel h s t ->
  exists h', Node.NodeMixin.set_parent fuel s (Some t) h = Ok tt h'
             /\ consistent h' /\ Node.parent_of h' s = Some t
             /\ reparents s h h'.
Proof.
  intros Hc Hs Ht Hor. unfold Node.NodeMixin.set_parent, bind, get.
  destruct (decide (Node.parent_of h s = Some t)) as [Heq|Hne].
  { exists h. split; [done|]. split; [done|]. split; [done|].
    apply reparents_refl. }
  destruct Hor as [|Hw]; [done|].
  unfold Node.NodeMixin.__check_loop.
  destruct (decide (t = s)) as [Hts|_].
  { by apply not_above_ne in Hw. }
  rewrite Hw.
  destruct (Node.parent_of h s) as [p|] eqn:Hp.
  - destruct (detach_ok h s p Hc Hp) as (hd & -> & Hcd & Hpd & Hfd).
    destruct (attach_ok hd s t) as (ha & -> & Hca & Hpa & Hfa);
      [done|done|by apply Hfd|by apply Hfd|].
    exists ha. split; [done|]. split; [done|]. split; [done|].
    by eapply reparents_trans.
  - destruct (attach_ok h s t) as (ha & Hrun & Hca & Hpa & Hfa); auto.
    exists ha. change (Node.NodeMixin.__detach s None h) with (Ok tt h).
    done.
Qed.

(** The setter refuses a parent that is the node itself or below it,
    and changes nothing. *)
Lemma set_parent_loop fuel h s t :
  Node.parent_of h s ≠ Some t ->
  s = t \/ Node.NodeMixin.on_path_reverse fuel h s t = Some true ->
  Node.NodeMixin.set_parent fuel s (Some t) h = Raise LoopError h.
Proof.
  intros Hne Hor. unfold Node.NodeMixin.set_parent, bind, get.
  destruct (decide (Node.parent_of h s = Some t)); [done|].
  unfold Node.NodeMixin.__check_loop.
  destruct (decide (t = s)); [done|].
  destruct Hor as [|Hw]; [congruence|]. by rewrite Hw.
Qed.

(** Whatever the outcome, the setter leaves identifiers, names and the
    set of allocated objects alone. *)
Lemma set_parent_keeps fuel s v h :
  match Node.NodeMixin.set_parent fuel s v h with
  | Ok _ h' | Raise _ h' =>
      (forall l, Node.id_of h' l = Node.id_of h l)
      /\ (forall l, Node.name_of h' l = Node.name_of h l)
      /\ (forall l, is_Some (h' !! l) <-> is_Some (h !! l))
  | OutOfFuel => True
  end.
Proof.
  unfold Node.NodeMixin.set_parent, bind, get.
  destruct (decide (Node.parent_of h s = v)); [done|].
  unfold Node.NodeMixin.__check_loop.
  assert (Hdet : match Node.NodeMixin.__detach s (Node.parent_of h s) h with
                 | Ok _ h' | Raise _ h' =>
                     (forall l, Node.id_of h' l = Node.id_of h l)
                     /\ (forall l, Node.name_of h' l = Node.name_of h l)
                     /\ (forall l, is_Some (h' !! l) <-> is_Some (h !! l))
                 | OutOfFuel => True
                 end).
  { unfold Node.NodeMixin.__detach.
    destruct (Node.parent_of h s) as [p|]; [|done].
    case_bool_decide; [|done]. repeat split; intros.
    - by rewrite id_of_alter_parent, id_of_alter_children.
    - by rewrite !name_of_alter.
    - by rewrite !allocated_alter in *.
    - by rewrite !allocated_alter. }
  assert (Hatt : forall hd,
             match Node.NodeMixin.__attach s v hd with
             | Ok _ h' | Raise _ h' =>
                 (forall l, Node.id_of h' l = Node.id_of hd l)
                 /\ (forall l, Node.name_of h' l = Node.name_of hd l)
                 /\ (forall l, is_Some (h' !! l) <-> is_Some (hd !! l))
             | OutOfFuel => True
             end).
  { intros hd. unfold Node.NodeMixin.__attach.
    destruct v as [p|]; [|done].
    case_bool_decide; [done|]. repeat split; intros.
    - by rewrite id_of_alter_parent, id_of_alter_children.
    - by rewrite !name_of_alter.
    - by rewrite !allocated_alter in *.
    - by rewrite !allocated_alter. }
  assert (Hgo :
    match (run Node.NodeMixin.__detach s (Node.parent_of h s);
           Node.NodeMixin.__attach s v) h with
    | Ok _ h' | Raise _ h' =>
        (forall l, Node.id_of h' l = Node.id_of h l)
        /\ (forall l, Node.name_of h' l = Node.name_of h l)
        /\ (forall l, is_Some (h' !! l) <-> is_Some (h !! l))
    | OutOfFuel => True
    end).
  { unfold bind.
    destruct (Node.NodeMixin.__detach s (Node.parent_of h s) h)
      as [[] hd|e hd|]; [|done|done].
    specialize (Hatt hd). destruct Hdet as (Hi & Hn & Ha).
    destruct (Node.NodeMixin.__attach s v hd) as [[] ha|e ha|]; [| |done];
      destruct Hatt as (Hi' & Hn' & Ha'); repeat split; intros;
      try (by rewrite ?Hi', ?Hn', ?Hi, ?Hn);
      try (by apply Ha, Ha'); try (by apply Ha', Ha). }
  unfold bind in Hgo.
  destruct v as [w|]; [|exact Hgo].
  destruct (decide (w = s)); [done|].
  destruct (Node.NodeMixin.on_path_reverse fuel h s w) as [[]|];
    [done|exact Hgo|done].
Qed.

End setter.

(** ** Tree operations *)

Section tree.
Implicit Types (h : gmap loc Node.t) (st : TTree.state) (l n t : loc).

Lemma consistent_alter_id h i n :
  consistent h -> consistent (alter (Node.with_id i) n h).
Proof.
  intros Hc c p. by rewrite parent_of_alter_id, children_of_alter_id.
Qed.

Lemma set_id_run st n :
  TTree.set_id n st
  = Ok tt (TTree.State (advanced 1 (TTree.self st))
             (alter (Node.with_id (Some (TTree.id_iterator (TTree.self st))))
                    n (TTree.heap st))).
Proof. reflexivity. Qed.

Lemma on_heap_set_parent fuel st n v :
  TTree.on_heap (Node.set_parent fuel n v) st
  = match Node.NodeMixin.set_parent fuel n v (TTree.heap st) with
    | Ok _ h' => Ok (Node.parent_of h' n) (TTree.State (TTree.self st) h')
    | Raise e h' => Raise e (TTree.State (TTree.self st) h')
    | OutOfFuel => OutOfFuel
    end.
Proof.
  unfold TTree.on_heap, Node.set_parent, bind, get, ret.
  by destruct (Node.NodeMixin.set_parent fuel n v (TTree.heap st)).
Qed.

(** Linking [n] under [t] and giving it the identifier [i]. *)
Lemma link_heap fuel h n t i :
  consistent h -> is_Some (h !! n) -> is_Some (h !! t) ->
  Node.parent_of h n = Some t \/ not_above fuel h n t ->
  exists h1,
    Node.NodeMixin.set_parent fuel n (Some t) h = Ok tt h1
    /\ chained t [n] i h (alter (Node.with_id (Some i)) n h1).
Proof.
  intros Hc Hn Ht Hor.
  destruct (set_parent_ok fuel _ n t Hc Hn Ht Hor)
    as (h1 & Hrun & Hc1 & Hp1 & Hf1 & Hi1 & Hn1 & Ha1).
  exists h1. split; [done|]. split; [|split; [|split; [|split]]].
  - by apply consistent_alter_id.
  - intros k m Hk. destruct k as [|k]; [|by destruct k].
    simpl in Hk. injection Hk as <-. simpl.
    rewrite parent_of_alter_id, id_of_alter_id_eq by by apply Ha1.
    split; [done|]. f_equal. lia.
  - intros l Hl. rewrite list_elem_of_singleton in Hl.
    rewrite parent_of_alter_id, id_of_alter_id_ne by done.
    split; [by apply Hf1|by apply Hi1].
  - intros l. rewrite name_of_alter by done. apply Hn1.
  - intros l. rewrite allocated_alter. apply Ha1.
Qed.

(** One step of the loop of [__add_newpath_byref]: link [n] under
    [t], give it the next identifier. *)
Lemma link_ok fuel st n t :
  consistent (TTree.heap st) ->
  is_Some (TTree.heap st !! n) -> is_Some (TTree.heap st !! t) ->
  Node.parent_of (TTree.heap st) n = Some t
    \/ not_above fuel (TTree.heap st) n t ->
  exists h',
    (forall B (k : M TTree.state B),
       (run TTree.on_heap (Node.set_parent fuel n (Some t));
        run TTree.set_id n; k) st
       = k (TTree.State (advanced 1 (TTree.self st)) h'))
    /\ chained t [n] (TTree.id_iterator (TTree.self st)) (TTree.heap st) h'.
Proof.
  intros Hc Hn Ht Hor.
  destruct (link_heap fuel _ n t (TTree.id_iterator (TTree.self st))
                      Hc Hn Ht Hor) as (h1 & Hrun & Hch).
  eexists. split; [|exact Hch].
  intros B k. unfold bind.
  rewrite on_heap_set_parent, Hrun, set_id_run. reflexivity.
Qed.

(** [add_node] on a member target and a node that the parent setter
    accepts. *)
Lemma add_node_ok fuel st t n :
  t ∈ TTree.__nodes (TTree.self st) ->
  consistent (TTree.heap st) ->
  is_Some (TTree.heap st !! n) -> is_Some (TTree.heap st !! t) ->
  Node.parent_of (TTree.heap st) n = Some t
    \/ not_above fuel (TTree.heap st) n t ->
  exists h',
    TTree.add_node fuel (Some t) (Some n) st
    = Ok tt (TTree.State (advanced 1 (registered n (TTree.self st))) h')
    /\ chained t [n] (TTree.id_iterator (TTree.self st)) (TTree.heap st) h'.
Proof.
  intros Hin Hc Hn Ht Hor.
  destruct (link_heap fuel _ n t (TTree.id_iterator (TTree.self st))
                      Hc Hn Ht Hor) as (h1 & Hrun & Hch).
  eexists. split; [|exact Hch].
  unfold TTree.add_node, bind, get.
  rewrite bool_decide_eq_true_2 by done.
  rewrite on_heap_set_parent, Hrun. reflexivity.
Qed.

(** [add_node] with a missing argument or a target that is not in the
    list of nodes does nothing. *)
Lemma add_node_noop fuel st target new_node :
  target = None \/ new_node = None
  \/ (exists t, target = Some t /\ t ∉ TTree.__nodes (TTree.self st)) ->
  TTree.add_node fuel target new_node st = Ok tt st.
Proof.
  intros [->|[->|(t & -> & Hnin)]]; [done|by destruct target|].
  destruct new_node as [n|]; [|done].
  unfold TTree.add_node, bind, get.
  by rewrite bool_decide_eq_false_2.
Qed.

(** [add_node] passes on the [LoopError] of the parent setter, with
    nothing changed. *)
Lemma add_node_loop fuel st t n :
  t ∈ TTree.__nodes (TTree.self st) ->
  Node.parent_of (TTree.heap st) n ≠ Some t ->
  n = t \/ Node.NodeMixin.on_path_reverse fuel (TTree.heap st) n t = Some true ->
  TTree.add_node fuel (Some t) (Some n) st = Raise LoopError st.
Proof.
  intros Hin Hne Hor.
  unfold TTree.add_node, bind, get.
  rewrite bool_decide_eq_true_2 by done.
  rewrite on_heap_set_parent, (set_parent_loop fuel _ n t Hne Hor).
  by destruct st.
Qed.

Lemma chained_cons prev n rest i h h1 h2 :
  n ∉ rest ->
  chained prev [n] i h h1 -> chained n rest (i + 1) h1 h2 ->
  chained prev (n :: rest) i h h2.
Proof.
  intros Hn (Hc1 & Hl1 & Hf1 & Hn1 & Ha1) (Hc2 & Hl2 & Hf2 & Hn2 & Ha2).
  split; [done|]. split; [|split; [|split]].
  - intros k m Hk. destruct k as [|k]; simpl in Hk.
    + injection Hk as <-.
      destruct (Hf2 n Hn) as [-> ->]. apply (Hl1 0%nat n eq_refl).
    + destruct (Hl2 k m Hk) as [-> ->]. split; [done|]. f_equal. lia.
  - intros l Hl. rewrite not_elem_of_cons in Hl. destruct Hl as [Hln Hlr].
    destruct (Hf2 l Hlr) as [-> ->]. apply Hf1.
    by rewrite list_elem_of_singleton.
  - intros l. by rewrite Hn2, Hn1.
  - intros l. by rewrite Ha2, Ha1.
Qed.

(** The loop of [__add_newpath_byref] chains distinct nodes that are
    not above the node the chain starts from. *)
Lemma chain_ok rest :
  forall fuel0 fuel st prev,
    consistent (TTree.heap st) ->
    is_Some (TTree.heap st !! prev) ->
    NoDup rest ->
    (forall n, n ∈ rest ->
       is_Some (TTree.heap st !! n)
       /\ not_above fuel0 (TTree.heap st) n prev) ->
    fuel0 + length rest <= fuel ->
    exists h',
      TTree.chain fuel prev rest st
      = Ok tt (TTree.State
                 (advanced (Z.of_nat (length rest)) (TTree.self st)) h')
      /\ chained prev rest (TTree.id_iterator (TTree.self st))
                 (TTree.heap st) h'.
Proof.
  induction rest as [|n rest IH]; intros fuel0 fuel st prev Hc Hprev Hnd Hall Hfuel.
  - exists (TTree.heap st). split.
    + destruct st as [[nm r c ns] h]. unfold advanced. simpl.
      by rewrite Z.add_0_r.
    + split; [done|]. split; [by intros k n Hk|]. by repeat split.
  - apply NoDup_cons in Hnd as [Hn Hnd].
    destruct (Hall n) as [Han Hwn]; [by left|].
    destruct (link_ok fuel st n prev) as (h1 & Hrun & Hch1); auto.
    { right. eapply not_above_mono; [done|lia]. }
    simpl TTree.chain. rewrite Hrun.
    pose proof Hch1 as (Hc1 & Hl1 & Hf1 & Hn1 & Ha1).
    destruct (Hl1 0%nat n eq_refl) as [Hp1 _]. simpl in Hp1.
    destruct (IH (S fuel0) fuel
                 (TTree.State (advanced 1 (TTree.self st)) h1) n)
      as (h2 & Hrun2 & Hch2); simpl.
    + done.
    + by apply Ha1.
    + done.
    + intros m Hm. destruct (Hall m) as [Ham Hwm]; [by right|].
      split; [by apply Ha1|].
      apply not_above_step with prev; [by intros -> | done |].
      unfold not_above.
      rewrite (on_path_reverse_stable fuel0 (TTree.heap st) h1 n prev);
        [done|done|].
      intros l Hl. apply Hf1. by rewrite list_elem_of_singleton.
    + simpl in Hfuel. lia.
    + exists h2. split.
      * rewrite Hrun2. f_equal. unfold advanced. simpl. f_equal. f_equal.
        lia.
      * by eapply chained_cons.
Qed.

End tree.

(** ** add_newpath *)

Section add_newpath.
Implicit Types (h : gmap loc Node.t) (st : TTree.state) (l n t : loc).

Lemma id_truthy_None h n : Node.id_of h n = None -> TTree.id_truthy h n = false.
Proof. unfold TTree.id_truthy. by intros ->. Qed.

(** The check lets a path through when no element has a true [id]. *)
Lemma check_path_pass path st :
  (forall n, n ∈ path -> TTree.id_truthy (TTree.heap st) n = false) ->
  TTree.check_path path st = Ok tt st.
Proof.
  induction path as [|n path IH]; intros Hall; [done|].
  simpl. unfold bind, get. rewrite Hall by by left.
  apply IH. intros m Hm. apply Hall. by right.
Qed.

(** The check raises, before anything is changed, as soon as one
    element has a true [id]. *)
Lemma check_path_fail path st :
  (exists n, n ∈ path /\ TTree.id_truthy (TTree.heap st) n = true) ->
  TTree.check_path path st = Raise (Exception TTree.precondition_msg) st.
Proof.
  induction path as [|m path IH]; intros (n & Hn & Ht).
  - by apply elem_of_nil in Hn.
  - simpl. unfold bind, get.
    destruct (TTree.id_truthy (TTree.heap st) m) eqn:Hm; [done|].
    apply IH. exists n. split; [|done].
    apply elem_of_cons in Hn as [->|]; [congruence|done].
Qed.

(** Path attachment under any allocated node [t]: no membership of
    [t] in the tree is asked for. *)
Lemma add_newpath_ok fuel0 fuel st t path :
  consistent (TTree.heap st) ->
  is_Some (TTree.heap st !! t) ->
  path ≠ [] -> NoDup path ->
  (forall n, n ∈ path ->
     is_Some (TTree.heap st !! n)
     /\ TTree.id_truthy (TTree.heap st) n = false
     /\ not_above fuel0 (TTree.heap st) n t) ->
  fuel0 + length path <= fuel ->
  exists h',
    TTree.add_newpath fuel (Some t) (TTree.Many path) st
    = Ok tt (TTree.State
               (advanced (Z.of_nat (length path)) (TTree.self st)) h')
    /\ chained t path (TTree.id_iterator (TTree.self st))
               (TTree.heap st) h'.
Proof.
  intros Hc Ht Hne Hnd Hall Hfuel.
  destruct (chain_ok path fuel0 fuel st t) as (h' & Hrun & Hch); auto.
  { intros n Hn. destruct (Hall n Hn) as (? & _ & ?). done. }
  exists h'. split; [|done].
  unfold TTree.add_newpath. simpl TTree.as_list.
  erewrite bind_Ok; [|apply check_path_pass; intros n Hn; by apply Hall].
  destruct path as [|first rest]; [done|]. exact Hrun.
Qed.

End add_newpath.

(** ** What holds on every run *)

Section every_run.
Implicit Types (h : gmap loc Node.t) (st : TTree.state) (l n t : loc).

Lemma preserves_ret {A} R (a : A) :
  (forall st, R st st) -> preserves R (ret a).
Proof. intros Hrefl st. apply Hrefl. Qed.

Lemma preserves_raise {A} R e :
  (forall st, R st st) -> preserves R (raise (A := A) e).
Proof. intros Hrefl st. apply Hrefl. Qed.

Lemma preserves_bind {A B} R (m : M TTree.state A) (k : A -> M TTree.state B) :
  (forall st1 st2 st3, R st1 st2 -> R st2 st3 -> R st1 st3) ->
  preserves R m -> (forall a, preserves R (k a)) -> preserves R (bind m k).
Proof.
  intros Htrans Hm Hk st. unfold bind. specialize (Hm st).
  destruct (m st) as [a st1|e st1|]; [|done|done].
  specialize (Hk a st1).
  destruct (k a st1) as [b st2|e st2|]; [| |done]; by eapply Htrans.
Qed.

Lemma same_objects_refl st : same_objects st st.
Proof. by intros l. Qed.

Lemma same_objects_trans st1 st2 st3 :
  same_objects st1 st2 -> same_objects st2 st3 -> same_objects st1 st3.
Proof.
  intros H12 H23 l. split; intros Hl; [apply H12, H23, Hl|apply H23, H12, Hl].
Qed.

Lemma same_objects_set_parent fuel n v :
  preserves same_objects (TTree.on_heap (Node.set_parent fuel n v)).
Proof.
  intros st. rewrite on_heap_set_parent.
  pose proof (set_parent_keeps fuel n v (TTree.heap st)) as Hk.
  destruct (Node.NodeMixin.set_parent fuel n v (TTree.heap st));
    [|  |done]; destruct Hk as (_ & _ & Hk); exact Hk.
Qed.

Lemma same_objects_set_id n : preserves same_objects (TTree.set_id n).
Proof.
  intros st. rewrite set_id_run. intros l. simpl. apply allocated_alter.
Qed.

Lemma same_objects_chain fuel rest :
  forall prev, preserves same_objects (TTree.chain fuel prev rest).
Proof.
  induction rest as [|n rest IH]; intros prev.
  - apply preserves_ret, same_objects_refl.
  - simpl. apply preserves_bind;
      [apply same_objects_trans|apply same_objects_set_parent|intros _].
    apply preserves_bind;
      [apply same_objects_trans|apply same_objects_set_id|intros _].
    apply IH.
Qed.

Lemma same_objects_byref fuel target path :
  preserves same_objects (TTree.__add_newpath_byref fuel target path).
Proof.
  destruct path as [|first rest].
  - apply preserves_raise, same_objects_refl.
  - simpl. apply preserves_bind;
      [apply same_objects_trans|apply same_objects_set_parent|intros _].
    apply preserves_bind;
      [apply same_objects_trans|apply same_objects_set_id|intros _].
    apply same_objects_chain.
Qed.

(** The check of the path changes nothing, however it ends. *)
Lemma check_path_state path st :
  match TTree.check_path path st with
  | Ok _ st' | Raise _ st' => st' = st
  | OutOfFuel => True
  end.
Proof.
  induction path as [|n path IH]; [done|].
  simpl. unfold bind, get.
  by destruct (TTree.id_truthy (TTree.heap st) n).
Qed.

Lemma same_objects_check path : preserves same_objects (TTree.check_path path).
Proof.
  intros st. pose proof (check_path_state path st) as Hst.
  destruct (TTree.check_path path st) as [[] st1|e st1|]; [| |done];
    subst; apply same_objects_refl.
Qed.

Lemma same_objects_each_target fuel path targets :
  preserves same_objects (TTree.each_target fuel targets path).
Proof.
  induction targets as [|t targets IH].
  - apply preserves_ret, same_objects_refl.
  - simpl. apply preserves_bind;
      [apply same_objects_trans|apply same_objects_byref|intros _; apply IH].
Qed.

(** [add_newpath_byid] never creates a [Node]: whatever the number of
    targets it finds, the path it attaches is made of the objects it was
    given. *)
Lemma add_newpath_byid_allocates_nothing fuel target_id path :
  preserves same_objects (TTree.add_newpath_byid fuel target_id path).
Proof.
  unfold TTree.add_newpath_byid.
  apply preserves_bind;
    [apply same_objects_trans|apply same_objects_check|intros _].
  intros st. unfold bind, get.
  destruct (PostOrderIter fuel (TTree.heap st)
              (TTree.has_id (TTree.heap st) target_id)
              (TTree.root (TTree.self st))) as [targets|]; [|done].
  apply same_objects_each_target.
Qed.

Lemma same_nodes_list_byref fuel target path :
  preserves same_nodes_list (TTree.__add_newpath_byref fuel target path).
Proof.
  assert (Htrans : forall st1 st2 st3,
             same_nodes_list st1 st2 -> same_nodes_list st2 st3 ->
             same_nodes_list st1 st3).
  { unfold same_nodes_list. congruence. }
  assert (Hsp : forall n v,
             preserves same_nodes_list (TTree.on_heap (Node.set_parent fuel n v))).
  { intros n v st. rewrite on_heap_set_parent.
    by destruct (Node.NodeMixin.set_parent fuel n v (TTree.heap st)). }
  assert (Hid : forall n, preserves same_nodes_list (TTree.set_id n)).
  { intros n st. by rewrite set_id_run. }
  assert (Hchain : forall rest prev,
             preserves same_nodes_list (TTree.chain fuel prev rest)).
  { induction rest as [|n rest IH]; intros prev; [by intros st|].
    simpl. apply preserves_bind; [done|apply Hsp|intros _].
    apply preserves_bind; [done|apply Hid|intros _; apply IH]. }
  destruct path as [|first rest]; [by intros st|].
  simpl. apply preserves_bind; [done|apply Hsp|intros _].
  apply preserves_bind; [done|apply Hid|intros _; apply Hchain].
Qed.

(** [add_newpath] never touches the tree's list of nodes. *)
Lemma add_newpath_keeps_nodes_list fuel target path :
  preserves same_nodes_list (TTree.add_newpath fuel target path).
Proof.
  unfold TTree.add_newpath. apply preserves_bind.
  - unfold same_nodes_list. congruence.
  - intros st. pose proof (check_path_state (TTree.as_list path) st) as Hst.
    by destruct (TTree.check_path (TTree.as_list path) st) as [[] st1|e st1|];
      subst.
  - intros _. apply same_nodes_list_byref.
Qed.

(** [add_nodes] returns with nothing changed, whatever it is given. *)
Lemma add_nodes_noop target nodes st : TTree.add_nodes target nodes st = Ok tt st.
Proof. reflexivity. Qed.

(** A path element with an identifier other than 0 is rejected before
    anything is changed. *)
Lemma add_newpath_rejects fuel st target path n i :
  n ∈ TTree.as_list path ->
  Node.id_of (TTree.heap st) n = Some i -> i ≠ 0%Z ->
  TTree.add_newpath fuel target path st
  = Raise (Exception TTree.precondition_msg) st.
Proof.
  intros Hn Hid Hi. unfold TTree.add_newpath.
  apply bind_Raise, check_path_fail. exists n. split; [done|].
  unfold TTree.id_truthy. rewrite Hid.
  apply negb_true_iff. by apply Z.eqb_neq.
Qed.

Lemma set_parent_raises fuel n v h e h' :
  Node.NodeMixin.set_parent fuel n v h = Raise e h' ->
  e = LoopError \/ e = AssertionError.
Proof.
  unfold Node.NodeMixin.set_parent, bind, get, ret.
  destruct (decide (Node.parent_of h n = v)); [done|].
  unfold Node.NodeMixin.__check_loop.
  assert (Hgo : forall h0,
             match Node.NodeMixin.__detach n (Node.parent_of h n) h0 with
             | Ok _ s' => Node.NodeMixin.__attach n v s'
             | Raise e s' => Raise e s'
             | OutOfFuel => OutOfFuel
             end = Raise e h' -> e = LoopError \/ e = AssertionError).
  { intros h0. unfold Node.NodeMixin.__detach, Node.NodeMixin.__attach.
    destruct (Node.parent_of h n) as [p|];
      [case_bool_decide; [|intros [= <- _]; by right]|];
      (destruct v as [w|]; [|done]);
      (case_bool_decide; [intros [= <- _]; by right|done]). }
  destruct v as [w|]; [|apply Hgo].
  destruct (decide (w = n)); [intros [= <- _]; by left|].
  destruct (Node.NodeMixin.on_path_reverse fuel h n w) as [[]|];
    [intros [= <- _]; by left|apply Hgo|done].
Qed.

Lemma link_raises fuel n v st e st' {B} (k : M TTree.state B) :
  (run TTree.on_heap (Node.set_parent fuel n v); run TTree.set_id n; k) st
  = Raise e st' ->
  (e = LoopError \/ e = AssertionError)
  \/ exists st1, k st1 = Raise e st'.
Proof.
  unfold bind at 1. rewrite on_heap_set_parent.
  destruct (Node.NodeMixin.set_parent fuel n v (TTree.heap st))
    as [[] h1|e1 h1|] eqn:Hsp; [| |done].
  - unfold bind. rewrite set_id_run. intros Hk. right. by eexists.
  - intros [= <- _]. left. by eapply set_parent_raises.
Qed.

Lemma chain_raises fuel rest :
  forall prev st e st',
    TTree.chain fuel prev rest st = Raise e st' ->
    e = LoopError \/ e = AssertionError.
Proof.
  induction rest as [|n rest IH]; intros prev st e st'; [done|].
  simpl. intros [Hlib|(st1 & Hk)]%link_raises; [done|].
  by eapply IH.
Qed.

(** A path whose elements have no identifier never meets the
    precondition error. *)
Lemma add_newpath_no_precondition_error fuel st target path msg st' :
  (forall n, n ∈ TTree.as_list path -> Node.id_of (TTree.heap st) n = None) ->
  TTree.add_newpath fuel target path st ≠ Raise (Exception msg) st'.
Proof.
  intros Hall Hrun. unfold TTree.add_newpath in Hrun.
  erewrite bind_Ok in Hrun;
    [|apply check_path_pass; intros n Hn; by apply id_truthy_None, Hall].
  destruct (TTree.as_list path) as [|first rest]; [done|].
  simpl in Hrun.
  apply link_raises in Hrun as [[|]|(st1 & [|]%chain_raises)]; done.
Qed.

(** A new tree: the root has identifier 0 and the counter starts
    at 1. *)
Lemma init_ids name r h :
  is_Some (h !! r) ->
  exists h',
    TTree.__init__ name r h = Ok (TTree.mk name r 1 [r]) h'
    /\ Node.id_of h' r = Some 0%Z
    /\ ids_unique_in_range (TTree.State (TTree.mk name r 1 [r]) h').
Proof.
  intros Hr. eexists. split; [reflexivity|].
  assert (Hid : Node.id_of (alter (Node.with_id (Some 0%Z)) r h) r = Some 0%Z)
    by by apply id_of_alter_id_eq.
  split; [done|]. split; simpl.
  - intros n ->%list_elem_of_singleton. exists 0%Z. split; [done|lia].
  - by intros n m ->%list_elem_of_singleton ->%list_elem_of_singleton.
Qed.

(** [add_node] keeps the identifiers of the listed nodes pairwise
    different and in range, and moves the counter by one exactly when it
    inserts. *)
Lemma add_node_ids fuel target new_node st :
  ids_unique_in_range st ->
  (forall n, new_node = Some n -> is_Some (TTree.heap st !! n)) ->
  match TTree.add_node fuel target new_node st with
  | Ok _ st' =>
      ids_unique_in_range st'
      /\ (TTree.self st' = TTree.self st
          \/ exists n, new_node = Some n
                       /\ TTree.self st' = advanced 1 (registered n (TTree.self st)))
  | Raise _ st' => ids_unique_in_range st' /\ TTree.self st' = TTree.self st
  | OutOfFuel => True
  end.
Proof.
  intros [Hrange Huniq] Halloc.
  destruct target as [t|]; [|by split; [split|left]].
  destruct new_node as [n|]; [|by split; [split|left]].
  unfold TTree.add_node, bind, get.
  case_bool_decide as Hin; [|by split; [split|left]].
  rewrite on_heap_set_parent.
  pose proof (set_parent_keeps fuel n (Some t) (TTree.heap st)) as Hk.
  destruct (Node.NodeMixin.set_parent fuel n (Some t) (TTree.heap st))
    as [[] h1|e h1|]; [| |done]; destruct Hk as (Hid & _ & Hdom).
  - simpl. split; [|right; by exists n].
    set (c := TTree.id_iterator (TTree.self st)).
    assert (Hnew : Node.id_of (alter (Node.with_id (Some c)) n h1) n = Some c).
    { apply id_of_alter_id_eq, Hdom, Halloc. done. }
    assert (Hold : forall m, m ≠ n ->
              Node.id_of (alter (Node.with_id (Some c)) n h1) m
              = Node.id_of (TTree.heap st) m).
    { intros m Hm. by rewrite id_of_alter_id_ne, Hid. }
    assert (Hpos : (0 < c)%Z).
    { destruct (Hrange t Hin) as (i & _ & Hi). unfold c. lia. }
    split; simpl.
    + intros m Hm. destruct (decide (m = n)) as [->|Hmn].
      * exists c. split; [done|]. fold c. lia.
      * apply elem_of_app in Hm as [Hm|Hm%list_elem_of_singleton]; [|done].
        destruct (Hrange m Hm) as (i & Him & Hi).
        exists i. rewrite Hold by done. split; [done|]. fold c in Hi |- *. lia.
    + assert (Hlt : forall m, m ≠ n -> m ∈ TTree.__nodes (TTree.self st) ++ [n] ->
                exists i, Node.id_of (TTree.heap st) m = Some i /\ (i < c)%Z
                          /\ m ∈ TTree.__nodes (TTree.self st)).
      { intros m Hmn Hm.
        apply elem_of_app in Hm as [Hm|Hm%list_elem_of_singleton]; [|done].
        destruct (Hrange m Hm) as (i & Him & Hi). exists i. fold c in Hi.
        split; [done|]. split; [lia|done]. }
      intros m1 m2 Hm1 Hm2.
      destruct (decide (m1 = n)) as [->|H1], (decide (m2 = n)) as [->|H2];
        [done| | |].
      * destruct (Hlt m2 H2 Hm2) as (i & Hi & Hic & _).
        rewrite Hnew, Hold, Hi by done. intros [= ->]. lia.
      * destruct (Hlt m1 H1 Hm1) as (i & Hi & Hic & _).
        rewrite Hnew, Hold, Hi by done. intros [= ->]. lia.
      * destruct (Hlt m1 H1 Hm1) as (_ & _ & _ & Hin1).
        destruct (Hlt m2 H2 Hm2) as (_ & _ & _ & Hin2).
        rewrite !Hold by done. by apply Huniq.
  - simpl. split; [|done]. split; simpl.
    + intros m Hm. destruct (Hrange m Hm) as (i & Him & Hi).
      exists i. by rewrite Hid.
    + intros m1 m2 Hm1 Hm2. rewrite !Hid. by apply Huniq.
Qed.

Lemma same_objects_add_node fuel target new_node :
  preserves same_objects (TTree.add_node fuel target new_node).
Proof.
  destruct target as [t|]; [|apply preserves_ret, same_objects_refl].
  destruct new_node as [n|]; [|apply preserves_ret, same_objects_refl].
  intros st. unfold TTree.add_node, bind, get.
  case_bool_decide; [|apply same_objects_refl].
  pose proof (same_objects_set_parent fuel n (Some t) st) as Hsp.
  destruct (TTree.on_heap (Node.set_parent fuel n (Some t)) st)
    as [p st1|e st1|]; [|done|done].
  intros l. simpl. rewrite allocated_alter. apply Hsp.
Qed.

(** After any sequence of [add_node] calls on allocated nodes the
    identifiers of the listed nodes are pairwise different and in
    range. *)
Lemma add_node_all_ids fuel calls :
  forall st,
    ids_unique_in_range st ->
    (forall target n, (target, Some n) ∈ calls -> is_Some (TTree.heap st !! n)) ->
    match add_node_all fuel calls st with
    | Ok _ st' | Raise _ st' => ids_unique_in_range st'
    | OutOfFuel => True
    end.
Proof.
  induction calls as [|[target new_node] calls IH]; intros st Hids Halloc;
    [done|].
  simpl. unfold bind.
  pose proof (add_node_ids fuel target new_node st Hids) as Hstep.
  pose proof (same_objects_add_node fuel target new_node st) as Hobj.
  destruct (TTree.add_node fuel target new_node st) as [[] st1|e st1|];
    [| |done].
  - destruct Hstep as [Hids1 _].
    { intros n ->. apply (Halloc target). by left. }
    apply IH; [done|]. intros t n Hin. apply Hobj, (Halloc t). by right.
  - apply Hstep. intros n ->. apply (Halloc target). by left.
Qed.

End every_run.

(** ** The scripts end in the states they are said to end in *)

Lemma test_setup_state :
  test_setup ∅ = Ok (TTree.self test_state, [1; 2; 3]) (TTree.heap test_state).
Proof. vm_compute. reflexivity. Qed.

Lemma family_setup_state :
  family_setup ∅ = Ok (TTree.self family_state) (TTree.heap family_state).
Proof. vm_compute. reflexivity. Qed.

Lemma test_state_consistent : consistent (TTree.heap test_state).
Proof. apply consistentb_sound. vm_compute. reflexivity. Qed.

Lemma family_state_consistent : consistent (TTree.heap family_state).
Proof. apply consistentb_sound. vm_compute. reflexivity. Qed.

(** ** Claims about path attachment *)

Lemma chained_child prev path i h h' k n :
  chained prev path i h h' -> path !! k = Some n ->
  exists p, (prev :: path) !! k = Some p
            /\ Node.parent_of h' n = Some p
            /\ n ∈ Node.children_of h' p.
Proof.
  intros (Hc & Hl & _) Hk. destruct (Hl k n Hk) as [Hp _].
  assert (is_Some ((prev :: path) !! k)) as [p Hpk].
  { apply lookup_lt_is_Some. apply lookup_lt_Some in Hk. simpl. lia. }
  exists p. rewrite Hp. split; [done|]. split; [done|].
  apply Hc. by rewrite Hp.
Qed.

(** C6 as stated fails: not every list of three identifier-free nodes
    is chained under every target.  In [test_state] the nodes [1], [2]
    and [3] carry no identifier.  With node [1] twice at the head of the
    list the parent setter raises [LoopError] at the second occurrence:
    node [1] stays a child of the target instead of becoming a child of
    itself, node [3] is neither attached nor numbered, and one
    identifier has been used, not three.  With node [1] as target of a
    list that contains it, the setter raises [LoopError] at once and
    nothing is attached. *)
Lemma add_newpath_three_not_chained :
  Node.id_of (TTree.heap test_state) 1 = None
  /\ Node.id_of (TTree.heap test_state) 2 = None
  /\ Node.id_of (TTree.heap test_state) 3 = None
  /\ (exists st',
        TTree.add_newpath enough (Some 0) (TTree.Many [1; 1; 3]) test_state
        = Raise LoopError st'
        /\ Node.parent_of (TTree.heap st') 1 = Some 0
        /\ Node.parent_of (TTree.heap st') 3 = None
        /\ Node.id_of (TTree.heap st') 3 = None
        /\ TTree.id_iterator (TTree.self st') = 2%Z)
  /\ TTree.add_newpath enough (Some 1) (TTree.Many [1; 2; 3]) test_state
     = Raise LoopError test_state.
Proof.
  split; [vm_compute; reflexivity|]. split; [vm_compute; reflexivity|].
  split; [vm_compute; reflexivity|]. split.
  - eexists. split; [vm_compute; reflexivity|]. vm_compute. done.
  - vm_compute. reflexivity.
Qed.

(** C6, amended.  [add_newpath(target, [a, b, c])] with three different
    nodes that carry no identifier, attached under a target that is none
    of them and not below any of them: the call returns, [a] is a child
    of [target], [b] a child of [a], [c] a child of [b], and [a], [b],
    [c] get the identifiers [id_iterator], [id_iterator + 1] and
    [id_iterator + 2], the counter ending three higher; the parent and
    children links still agree. *)
Theorem add_newpath_chains_three fuel0 fuel st target a b c :
  consistent (TTree.heap st) ->
  is_Some (TTree.heap st !! target) ->
  is_Some (TTree.heap st !! a) ->
  is_Some (TTree.heap st !! b) ->
  is_Some (TTree.heap st !! c) ->
  Node.id_of (TTree.heap st) a = None ->
  Node.id_of (TTree.heap st) b = None ->
  Node.id_of (TTree.heap st) c = None ->
  a ≠ b -> a ≠ c -> b ≠ c ->
  not_above fuel0 (TTree.heap st) a target ->
  not_above fuel0 (TTree.heap st) b target ->
  not_above fuel0 (TTree.heap st) c target ->
  fuel0 + 3 <= fuel ->
  exists h',
    TTree.add_newpath fuel (Some target) (TTree.Many [a; b; c]) st
    = Ok tt (TTree.State (advanced 3 (TTree.self st)) h')
    /\ consistent h'
    /\ Node.parent_of h' a = Some target /\ a ∈ Node.children_of h' target
    /\ Node.parent_of h' b = Some a /\ b ∈ Node.children_of h' a
    /\ Node.parent_of h' c = Some b /\ c ∈ Node.children_of h' b
    /\ Node.id_of h' a = Some (TTree.id_iterator (TTree.self st))
    /\ Node.id_of h' b = Some (TTree.id_iterator (TTree.self st) + 1)%Z
    /\ Node.id_of h' c = Some (TTree.id_iterator (TTree.self st) + 2)%Z.
Proof.
  intros Hc Ht Ha Hb Hcc Hia Hib Hic Hab Hac Hbc Hwa Hwb Hwc Hfuel.
  destruct (add_newpath_ok fuel0 fuel st target [a; b; c])
    as (h' & Hrun & Hch); auto.
  { rewrite !NoDup_cons, !elem_of_cons, !elem_of_nil.
    split; [intuition congruence|]. split; [intuition congruence|].
    split; [tauto|apply NoDup_nil_2]. }
  { intros n Hn. rewrite !elem_of_cons in Hn.
    destruct Hn as [->|[->|[->|Hn]]];
      [| | |by apply elem_of_nil in Hn];
      (split; [done|]); (split; [by apply id_truthy_None|done]). }
  exists h'. split; [exact Hrun|].
  destruct (chained_child _ _ _ _ _ 0 a Hch eq_refl) as (p0 & Hp0 & Hpa & Hca).
  destruct (chained_child _ _ _ _ _ 1 b Hch eq_refl) as (p1 & Hp1 & Hpb & Hcb).
  destruct (chained_child _ _ _ _ _ 2 c Hch eq_refl) as (p2 & Hp2 & Hpc & Hcc').
  simpl in Hp0, Hp1, Hp2.
  injection Hp0 as <-. injection Hp1 as <-. injection Hp2 as <-.
  destruct Hch as (Hcons & Hl & _).
  destruct (Hl 0 a eq_refl) as [_ Ha']. destruct (Hl 1 b eq_refl) as [_ Hb'].
  destruct (Hl 2 c eq_refl) as [_ Hc'].
  split; [exact Hcons|].
  repeat (split; [done|]).
  split; [by rewrite Ha', Z.add_0_r|]. by split.
Qed.

Lemma add_newpath_chains_three_witness :
  exists h',
    TTree.add_newpath 4 (Some 0) (TTree.Many [1; 2; 3]) test_state
    = Ok tt (TTree.State (advanced 3 (TTree.self test_state)) h')
    /\ consistent h'
    /\ Node.parent_of h' 1 = Some 0 /\ 1 ∈ Node.children_of h' 0
    /\ Node.parent_of h' 2 = Some 1 /\ 2 ∈ Node.children_of h' 1
    /\ Node.parent_of h' 3 = Some 2 /\ 3 ∈ Node.children_of h' 2
    /\ Node.id_of h' 1 = Some 1%Z
    /\ Node.id_of h' 2 = Some 2%Z
    /\ Node.id_of h' 3 = Some 3%Z.
Proof.
  apply (add_newpath_chains_three 1 4 test_state 0 1 2 3).
  - apply consistentb_sound. vm_compute. reflexivity.
  - vm_compute. eexists. reflexivity.
  - vm_compute. eexists. reflexivity.
  - vm_compute. eexists. reflexivity.
  - vm_compute. eexists. reflexivity.
  - vm_compute. reflexivity.
  - vm_compute. reflexivity.
  - vm_compute. reflexivity.
  - lia.
  - lia.
  - lia.
  - vm_compute. reflexivity.
  - vm_compute. reflexivity.
  - vm_compute. reflexivity.
  - lia.
Defined.

(** C9 as stated fails: [add_newpath] does not succeed on every
    identifier-free path.  On the empty list [path[0]] raises
    [IndexError]; with the target itself as the path the parent setter
    raises [LoopError]; with the same node twice in the path it raises
    [LoopError] at the second occurrence, after the first one was
    attached and numbered. *)
Lemma add_newpath_not_every_path :
  TTree.add_newpath enough (Some 0) (TTree.Many []) test_state
  = Raise IndexError test_state
  /\ TTree.add_newpath enough (Some 1) (TTree.Single 1) test_state
     = Raise LoopError test_state
  /\ (exists st',
        TTree.add_newpath enough (Some 0) (TTree.Many [1; 1]) test_state
        = Raise LoopError st'
        /\ Node.parent_of (TTree.heap st') 1 = Some 0
        /\ Node.id_of (TTree.heap st') 1 = Some 1%Z
        /\ TTree.id_iterator (TTree.self st') = 2%Z).
Proof.
  split; [|split].
  - vm_compute. reflexivity.
  - vm_compute. reflexivity.
  - eexists. split; [vm_compute; reflexivity|]. vm_compute. done.
Qed.

(** C9, amended.  [add_newpath] asks nothing of its target: whether or
    not [target] is in the tree's list of nodes or carries an
    identifier, a non-empty path of pairwise different nodes without
    identifier, none of them the target or above it, is chained under
    the target; its nodes get the identifiers [id_iterator],
    [id_iterator + 1], ... of this tree, whose counter advances by the
    length of the path and whose list of nodes is left as it was. *)
Theorem add_newpath_any_target fuel0 fuel st target path :
  consistent (TTree.heap st) ->
  is_Some (TTree.heap st !! target) ->
  TTree.as_list path ≠ [] ->
  NoDup (TTree.as_list path) ->
  (forall n, n ∈ TTree.as_list path ->
     is_Some (TTree.heap st !! n)
     /\ Node.id_of (TTree.heap st) n = None
     /\ not_above fuel0 (TTree.heap st) n target) ->
  fuel0 + length (TTree.as_list path) <= fuel ->
  exists h',
    TTree.add_newpath fuel (Some target) path st
    = Ok tt (TTree.State
               (advanced (Z.of_nat (length (TTree.as_list path)))
                         (TTree.self st)) h')
    /\ chained target (TTree.as_list path)
               (TTree.id_iterator (TTree.self st)) (TTree.heap st) h'
    /\ (forall k n, TTree.as_list path !! k = Some n ->
          exists p, (target :: TTree.as_list path) !! k = Some p
                    /\ n ∈ Node.children_of h' p).
Proof.
  intros Hc Ht Hne Hnd Hall Hfuel.
  destruct (add_newpath_ok fuel0 fuel st target (TTree.as_list path))
    as (h' & Hrun & Hch); auto.
  { intros n Hn. destruct (Hall n Hn) as (? & ? & ?).
    split; [done|]. split; [by apply id_truthy_None|done]. }
  exists h'. split; [by destruct path|]. split; [done|].
  intros k n Hk.
  destruct (chained_child _ _ _ _ _ k n Hch Hk) as (p & ? & _ & ?).
  by exists p.
Qed.

(** A target that is in no tree: node [1] of [test_state] is not in the
    list of nodes and has no identifier. *)
Lemma add_newpath_any_target_witness :
  (1 ∉ TTree.__nodes (TTree.self test_state))
  /\ Node.id_of (TTree.heap test_state) 1 = None
  /\ exists h',
       TTree.add_newpath 3 (Some 1) (TTree.Many [2; 3]) test_state
       = Ok tt (TTree.State (TTree.mk "test" 0 3 [0]) h')
       /\ chained 1 [2; 3] 1 (TTree.heap test_state) h'
       /\ (forall k n, [2; 3] !! k = Some n ->
             exists p, [1; 2; 3] !! k = Some p
                       /\ n ∈ Node.children_of h' p).
Proof.
  split; [|split].
  - simpl. intros H%list_elem_of_singleton. lia.
  - vm_compute. reflexivity.
  - apply (add_newpath_any_target 1 3 test_state 1 (TTree.Many [2; 3])).
    + apply consistentb_sound. vm_compute. reflexivity.
    + vm_compute. eexists. reflexivity.
    + simpl. discriminate.
    + simpl. rewrite !NoDup_cons, !elem_of_cons, !elem_of_nil.
      split; [lia|]. split; [tauto|]. apply NoDup_nil_2.
    + simpl. intros n Hn. rewrite !elem_of_cons, elem_of_nil in Hn.
      destruct Hn as [->|[->|[]]];
        (split; [vm_compute; eexists; reflexivity|]);
        (split; vm_compute; reflexivity).
    + simpl. lia.
Defined.

(** ** Claims about add_node *)

(** C7 as stated fails: with the root as both arguments the target is
    a member and the new node is not null, yet the parent setter raises
    [LoopError]; the call does not return normally, whatever the
    fuel. *)
Lemma add_node_root_under_itself :
  0 ∈ TTree.__nodes (TTree.self test_state)
  /\ TTree.add_node enough (Some 0) (Some 0) test_state
     = Raise LoopError test_state
  /\ ~ (exists fuel st',
          TTree.add_node fuel (Some 0) (Some 0) test_state = Ok tt st').
Proof.
  split; [by left|]. split; [vm_compute; reflexivity|].
  intros (fuel & st' & Hrun).
  rewrite add_node_loop in Hrun; [done|by left|done|by left].
Qed.

(** C7, amended.  [add_node(target, new_node)] has three behaviours.
    With a target in the tree's list of nodes and a new node that is
    neither the target nor above it, the new node's parent becomes the
    target, the new node is appended to the list of nodes and gets the
    identifier [id_iterator], which is then incremented.  With a target
    in the list and a new node that is the target or above it, the
    parent setter raises [LoopError] and nothing is changed.  With a
    missing argument or a target outside the list, the call returns
    with nothing changed. *)
Theorem add_node_cases fuel st :
  (forall t n,
     t ∈ TTree.__nodes (TTree.self st) ->
     consistent (TTree.heap st) ->
     is_Some (TTree.heap st !! t) -> is_Some (TTree.heap st !! n) ->
     Node.parent_of (TTree.heap st) n = Some t
       \/ not_above fuel (TTree.heap st) n t ->
     exists h',
       TTree.add_node fuel (Some t) (Some n) st
       = Ok tt (TTree.State
                  (TTree.mk (TTree.name (TTree.self st))
                            (TTree.root (TTree.self st))
                            (TTree.id_iterator (TTree.self st) + 1)
                            (TTree.__nodes (TTree.self st) ++ [n])) h')
       /\ Node.parent_of h' n = Some t
       /\ n ∈ Node.children_of h' t
       /\ Node.id_of h' n = Some (TTree.id_iterator (TTree.self st)))
  /\ (forall t n,
        t ∈ TTree.__nodes (TTree.self st) ->
        Node.parent_of (TTree.heap st) n ≠ Some t ->
        n = t
          \/ Node.NodeMixin.on_path_reverse fuel (TTree.heap st) n t
             = Some true ->
        TTree.add_node fuel (Some t) (Some n) st = Raise LoopError st)
  /\ (forall target new_node,
        target = None \/ new_node = None
        \/ (exists t, target = Some t
                      /\ t ∉ TTree.__nodes (TTree.self st)) ->
        TTree.add_node fuel target new_node st = Ok tt st).
Proof.
  split; [|split].
  - intros t n Hin Hc Ht Hn Hor.
    destruct (add_node_ok fuel st t n Hin Hc Hn Ht Hor) as (h' & Hrun & Hch).
    exists h'. split; [exact Hrun|].
    destruct (chained_child _ _ _ _ _ 0 n Hch eq_refl) as (p & Hp & Hpn & Hcn).
    injection Hp as <-.
    destruct Hch as (_ & Hl & _). destruct (Hl 0 n eq_refl) as [_ Hid].
    rewrite Z.add_0_r in Hid. done.
  - apply add_node_loop.
  - apply add_node_noop.
Qed.

Lemma add_node_cases_witness :
  (exists h',
     TTree.add_node 1 (Some 0) (Some 1) test_state
     = Ok tt (TTree.State (TTree.mk "test" 0 2 [0; 1]) h')
     /\ Node.parent_of h' 1 = Some 0
     /\ 1 ∈ Node.children_of h' 0
     /\ Node.id_of h' 1 = Some 1%Z)
  /\ TTree.add_node 1 (Some 0) (Some 0) test_state
     = Raise LoopError test_state
  /\ TTree.add_node 1 (Some 1) (Some 2) test_state = Ok tt test_state.
Proof.
  destruct (add_node_cases 1 test_state) as (Hadd & Hloop & Hnoop).
  split; [|split].
  - apply (Hadd 0 1).
    + by left.
    + apply consistentb_sound. vm_compute. reflexivity.
    + vm_compute. eexists. reflexivity.
    + vm_compute. eexists. reflexivity.
    + right. vm_compute. reflexivity.
  - apply (Hloop 0 0); [by left|vm_compute; discriminate|by left].
  - apply (Hnoop (Some 1) (Some 2)). right. right. exists 1.
    split; [done|]. simpl. intros H%list_elem_of_singleton. lia.
Defined.

(** C10 as stated fails: in [family_state] both [1] and the root [0]
    are members, but [add_node(1, 0)] would put the root below its own
    child; the parent setter raises [LoopError] and nothing is
    re-parented, renumbered or appended. *)
Lemma add_node_member_above_target :
  1 ∈ TTree.__nodes (TTree.self family_state)
  /\ 0 ∈ TTree.__nodes (TTree.self family_state)
  /\ TTree.add_node enough (Some 1) (Some 0) family_state
     = Raise LoopError family_state
  /\ ~ (exists fuel st',
          TTree.add_node fuel (Some 1) (Some 0) family_state = Ok tt st').
Proof.
  split; [by right; left|]. split; [by left|].
  split; [vm_compute; reflexivity|].
  intros (fuel & st' & Hrun).
  destruct fuel as [|[|fuel]]; [vm_compute in Hrun; done..|].
  rewrite add_node_loop in Hrun; [done|by right; left| |].
  - vm_compute. discriminate.
  - right. reflexivity.
Qed.

(** C10, amended.  [add_node] does not ask whether the new node is
    already in the tree: for a target and a node [n] that are both in
    the list of nodes, [n] being neither the target nor above it, the
    call returns, [n] is a child of the target and of no other node, its
    identifier is replaced by [id_iterator], and the list of nodes holds
    [n] once more, at its end. *)
Theorem add_node_member_again fuel st t n :
  t ∈ TTree.__nodes (TTree.self st) ->
  n ∈ TTree.__nodes (TTree.self st) ->
  consistent (TTree.heap st) ->
  is_Some (TTree.heap st !! t) -> is_Some (TTree.heap st !! n) ->
  Node.parent_of (TTree.heap st) n = Some t
    \/ not_above fuel (TTree.heap st) n t ->
  exists h',
    TTree.add_node fuel (Some t) (Some n) st
    = Ok tt (TTree.State
               (TTree.mk (TTree.name (TTree.self st))
                         (TTree.root (TTree.self st))
                         (TTree.id_iterator (TTree.self st) + 1)
                         (TTree.__nodes (TTree.self st) ++ [n])) h')
    /\ Node.parent_of h' n = Some t
    /\ (forall p, n ∈ Node.children_of h' p <-> p = t)
    /\ Node.id_of h' n = Some (TTree.id_iterator (TTree.self st))
    /\ (exists k,
          k < length (TTree.__nodes (TTree.self st))
          /\ (TTree.__nodes (TTree.self st) ++ [n]) !! k = Some n
          /\ (TTree.__nodes (TTree.self st) ++ [n])
               !! length (TTree.__nodes (TTree.self st)) = Some n).
Proof.
  intros Hin Hnin Hc Ht Hn Hor.
  destruct (add_node_ok fuel st t n Hin Hc Hn Ht Hor) as (h' & Hrun & Hch).
  exists h'. split; [exact Hrun|].
  pose proof Hch as (Hc' & Hl & _).
  destruct (Hl 0 n eq_refl) as [Hp Hid]. simpl in Hp.
  rewrite Z.add_0_r in Hid.
  split; [done|]. split; [|split; [done|]].
  - intros p. rewrite <- (Hc' n p), Hp. split; congruence.
  - apply list_elem_of_lookup in Hnin as [k Hk].
    exists k. split; [by eapply lookup_lt_Some|].
    split; [by apply lookup_app_l_Some|].
    by rewrite lookup_app_r, Nat.sub_diag by lia.
Qed.

(** In [family_state] the member [2], a child of the root, is attached
    again, now under the member [1]. *)
Lemma add_node_member_again_witness :
  exists h',
    TTree.add_node 2 (Some 1) (Some 2) family_state
    = Ok tt (TTree.State (TTree.mk "test" 0 4 [0; 1; 2; 2]) h')
    /\ Node.parent_of h' 2 = Some 1
    /\ (forall p, 2 ∈ Node.children_of h' p <-> p = 1)
    /\ Node.id_of h' 2 = Some 3%Z
    /\ (exists k,
          k < 3 /\ [0; 1; 2; 2] !! k = Some 2 /\ [0; 1; 2; 2] !! 3 = Some 2).
Proof.
  apply (add_node_member_again 2 family_state 1 2).
  - right. by left.
  - right. right. by left.
  - apply consistentb_sound. vm_compute. reflexivity.
  - vm_compute. eexists. reflexivity.
  - vm_compute. eexists. reflexivity.
  - right. vm_compute. reflexivity.
Defined.

(** ** Where the code departs from the specification *)

Lemma two_roots_setup_state :
  two_roots_setup ∅ = Ok (two_roots_t1, two_roots_t2) two_roots_heap.
Proof. vm_compute. reflexivity. Qed.

Lemma subtree_setup_state :
  subtree_setup ∅ = Ok (subtree_t1, subtree_t2) subtree_heap.
Proof. vm_compute. reflexivity. Qed.

(** C1.  In the store of [subtree_setup] the search of
    [t1.add_newpath_byid(0, a)] finds two nodes with identifier 0, [1]
    and the root [0].  The path is attached under [1], then the same
    object [2] is attached under [0]: it is moved, not copied.  After the
    call [1] has no child, no object was created, and [2] carries the
    identifier of the second attachment. *)
Theorem add_newpath_byid_moves_the_path :
  PostOrderIter enough subtree_heap (TTree.has_id subtree_heap 0) 0
  = Some [1; 0]
  /\ exists st',
       TTree.add_newpath_byid enough 0 (TTree.Single 2)
         (TTree.State subtree_t1 subtree_heap) = Ok tt st'
       /\ Node.children_of (TTree.heap st') 1 = []
       /\ Node.children_of (TTree.heap st') 0 = [1; 2]
       /\ Node.parent_of (TTree.heap st') 2 = Some 0
       /\ Node.id_of (TTree.heap st') 2 = Some 3%Z
       /\ dom (TTree.heap st') = dom subtree_heap.
Proof.
  split; [vm_compute; reflexivity|].
  eexists. split; [vm_compute; reflexivity|].
  repeat split; vm_compute; reflexivity.
Qed.

(** C2.  After [tree.add_newpath(tree.root, a)] on the state of
    [test_setup], [a] (node [1]) is reachable from the root through the
    children lists, but the list of nodes of the tree still holds the
    root only: [__add_newpath_byref] never appends to it. *)
Theorem add_newpath_leaves_nodes_list :
  exists st',
    TTree.add_newpath enough (Some 0) (TTree.Single 1) test_state = Ok tt st'
    /\ reachable enough (TTree.heap st') (TTree.root (TTree.self st'))
       = Some [1; 0]
    /\ TTree.__nodes (TTree.self st') = [0].
Proof.
  eexists. split; [vm_compute; reflexivity|].
  split; vm_compute; reflexivity.
Qed.

(** C3.  In the store of [two_roots_setup] the node [1] is the root of
    [t2] and has the identifier 0.  [t1.add_newpath(t1.root, 1)] does
    not raise: [if node.id:] is false for 0.  The node is re-parented
    under [t1]'s root, its identifier is overwritten and [t1]'s counter
    advances. *)
Theorem add_newpath_accepts_identifier_zero :
  Node.id_of two_roots_heap 1 = Some 0%Z
  /\ exists st',
       TTree.add_newpath enough (Some 0) (TTree.Single 1)
         (TTree.State two_roots_t1 two_roots_heap) = Ok tt st'
       /\ Node.parent_of (TTree.heap st') 1 = Some 0
       /\ Node.id_of (TTree.heap st') 1 = Some 1%Z
       /\ TTree.id_iterator (TTree.self st') = 2%Z.
Proof.
  split; [vm_compute; reflexivity|].
  eexists. split; [vm_compute; reflexivity|].
  repeat split; vm_compute; reflexivity.
Qed.

(** C4.  [add_nodes] is an empty method: on the input of the
    repository's [test_add_nodes] it leaves the root without children,
    where three calls of [add_node] give it the children [1], [2], [3]
    with the identifiers 1, 2, 3. *)
Theorem add_nodes_attaches_nothing :
  TTree.add_nodes (Some 0) [1; 2; 3] test_state = Ok tt test_state
  /\ Node.children_of (TTree.heap test_state) 0 = []
  /\ exists st',
       (run TTree.add_node enough (Some 0) (Some 1);
        run TTree.add_node enough (Some 0) (Some 2);
        TTree.add_node enough (Some 0) (Some 3)) test_state = Ok tt st'
       /\ Node.children_of (TTree.heap st') 0 = [1; 2; 3]
       /\ Node.id_of (TTree.heap st') 1 = Some 1%Z
       /\ Node.id_of (TTree.heap st') 2 = Some 2%Z
       /\ Node.id_of (TTree.heap st') 3 = Some 3%Z
       /\ TTree.self st' = TTree.mk "test" 0 4 [0; 1; 2; 3].
Proof.
  split; [reflexivity|]. split; [vm_compute; reflexivity|].
  eexists. split; [vm_compute; reflexivity|].
  repeat split; vm_compute; reflexivity.
Qed.

(** C8.  Attaching the same node twice changes its identifier:
    after [tree.add_node(tree.root, a)] node [1] has identifier 1, after
    the same call again it has identifier 2. *)
Theorem add_node_renumbers_a_member :
  exists st1 st2,
    TTree.add_node enough (Some 0) (Some 1) test_state = Ok tt st1
    /\ Node.id_of (TTree.heap st1) 1 = Some 1%Z
    /\ TTree.add_node enough (Some 0) (Some 1) st1 = Ok tt st2
    /\ Node.id_of (TTree.heap st2) 1 = Some 2%Z
    /\ TTree.__nodes (TTree.self st2) = [0; 1; 1].
Proof.
  eexists. eexists. split; [vm_compute; reflexivity|].
  split; [vm_compute; reflexivity|].
  split; [vm_compute; reflexivity|].
  split; vm_compute; reflexivity.
Qed.

(** ** save and load_tree *)

Section pickling.
Variable g : gmap string callable.
Variable h : gmap loc Node.t.
Hypothesis h_closed :
  forall l n r, h !! l = Some n ->
    r ∈ option_list (Node.parent n) ++ Node.children n -> is_Some (h !! r).

Lemma memo_grows_refl memo : memo_grows g h memo memo.
Proof.
  split; [exists []; by rewrite app_nil_r|]. split; [done|].
  intros l Hl Hn. by destruct Hn.
Qed.

Lemma memo_grows_elem memo memo' l :
  memo_grows g h memo memo' -> l ∈ memo -> l ∈ memo'.
Proof. intros [[more ->] _] Hl. apply elem_of_app. by left. Qed.

Lemma memo_grows_trans m1 m2 m3 :
  memo_grows g h m1 m2 -> memo_grows g h m2 m3 -> memo_grows g h m1 m3.
Proof.
  intros H12 H23.
  pose proof (fun l => memo_grows_elem _ _ l H23) as Hsub.
  destruct H12 as ([a ->] & Hnd1 & Hnew1), H23 as ([b ->] & Hnd2 & Hnew2).
  split; [exists (a ++ b); by rewrite app_assoc|]. split; [auto|].
  intros l Hl Hn.
  destruct (decide (l ∈ m1 ++ a)) as [Hin|Hout].
  - destruct (Hnew1 l Hin Hn) as (n & Hn1 & Hn2 & Hn3).
    exists n. split; [done|]. split; [done|]. intros r Hr. apply Hsub. auto.
  - by apply Hnew2.
Qed.

Lemma save_all_grows {A} (f : A -> list loc -> exn + list loc)
    (key : A -> loc) (objs : list A) :
  (forall a b b', a ∈ objs -> f a b = inr b' ->
     memo_grows g h b b' /\ (is_Some (h !! key a) -> key a ∈ b')) ->
  forall b b', pickle.save_all f objs b = inr b' ->
    memo_grows g h b b'
    /\ (forall a, a ∈ objs -> is_Some (h !! key a) -> key a ∈ b').
Proof.
  induction objs as [|a objs IH]; intros Hf b b' Hrun; simpl in Hrun.
  - injection Hrun as <-. split; [apply memo_grows_refl|].
    intros a Ha. by apply elem_of_nil in Ha.
  - destruct (f a b) as [e|b1] eqn:Hfa; [done|].
    destruct (Hf a b b1) as [Hg1 Hin1]; [by left|done|].
    destruct (IH (fun a0 b0 b0' Ha0 => Hf a0 b0 b0' (list_elem_of_further _ _ _ Ha0))
                 b1 b' Hrun) as [Hg2 Hin2].
    split; [by eapply memo_grows_trans|].
    intros a0 Ha0 Hal. apply elem_of_cons in Ha0 as [->|Ha0]; [|by apply Hin2].
    eapply memo_grows_elem; [exact Hg2|]. by apply Hin1.
Qed.

Lemma Pickler_save_grows depth :
  forall obj memo memo',
    pickle.Pickler_save depth g h obj memo = inr memo' ->
    memo_grows g h memo memo' /\ (is_Some (h !! obj) -> obj ∈ memo').
Proof.
  induction depth as [|depth IH]; intros obj memo memo' Hrun; [done|].
  simpl in Hrun. case_bool_decide as Hin.
  { injection Hrun as <-. split; [apply memo_grows_refl|done]. }
  destruct (h !! obj) as [n|] eqn:Hobj.
  2:{ injection Hrun as <-. split; [apply memo_grows_refl|].
      by intros [? ?]. }
  case_bool_decide as Hfun; [|done].
  destruct (save_all_grows (pickle.Pickler_save depth g h) id _
              (fun a b b' _ => IH a b b') _ _ Hrun) as [Hg Hrefs].
  pose proof (fun l => memo_grows_elem _ _ l Hg) as Hsub.
  assert (Hobj' : obj ∈ memo').
  { apply Hsub, elem_of_app. right. by left. }
  split; [|done].
  destruct Hg as ([more ->] & Hnd & Hnew).
  split; [exists ([obj] ++ more); by rewrite app_assoc|].
  split.
  { intros Hm. apply Hnd. apply NoDup_app. split; [done|].
    split; [|apply NoDup_singleton].
    intros x Hx Hx'%list_elem_of_singleton. by subst. }
  intros l Hl Hn. destruct (decide (l = obj)) as [->|Hne].
  - exists n. split; [done|]. split; [done|]. intros r Hr.
    apply (Hrefs r Hr). by eapply h_closed.
  - apply Hnew; [done|]. intros [?|?%list_elem_of_singleton]%elem_of_app; done.
Qed.

End pickling.

Section index.
Implicit Types (memo refs : list loc) (l : loc).

Lemma index_Some memo l i : pickle.index memo l = Some i -> memo !! i = Some l.
Proof.
  unfold pickle.index. intros Hi.
  destruct (list_find (fun x => x = l) memo) as [[j x]|] eqn:Hfind; [|done].
  simpl in Hi. injection Hi as ->.
  apply list_find_Some in Hfind as (Hl & -> & _). done.
Qed.

Lemma index_lookup memo l i :
  NoDup memo -> memo !! i = Some l -> pickle.index memo l = Some i.
Proof.
  intros Hnd Hi. unfold pickle.index.
  destruct (list_find_elem_of (fun x => x = l) memo l) as [[j x] Hfind];
    [by eapply list_elem_of_lookup_2|done|].
  rewrite Hfind. simpl. f_equal.
  apply list_find_Some in Hfind as (Hj & -> & _).
  by eapply NoDup_lookup.
Qed.

Lemma renaming_lookup memo refs l i r :
  NoDup memo -> memo !! i = Some l -> refs !! i = Some r ->
  renaming memo refs l = r.
Proof.
  intros Hnd Hi Hr. unfold renaming.
  rewrite (index_lookup memo l i Hnd Hi). simpl. by rewrite Hr.
Qed.

End index.

Section unpickling.
Variable g : gmap string callable.
Variable h : gmap loc Node.t.
Variables memo refs : list loc.
Hypothesis memo_NoDup : NoDup memo.
Hypothesis memo_closed :
  forall l, l ∈ memo ->
    exists n, h !! l = Some n
              /\ g !! __name__ (Node.function n) = Some (Node.function n)
              /\ (forall r, r ∈ option_list (Node.parent n) ++ Node.children n ->
                    r ∈ memo).
Hypothesis refs_length : length refs = length memo.

Abbreviation rho := (renaming memo refs).

Lemma resolve l :
  l ∈ memo ->
  exists i, pickle.index memo l = Some i /\ refs !! i = Some (rho l).
Proof.
  intros Hl. apply list_elem_of_lookup_1 in Hl as [i Hi].
  assert (is_Some (refs !! i)) as [r Hr].
  { apply lookup_lt_is_Some. rewrite refs_length.
    by eapply lookup_lt_Some. }
  exists i. split; [by apply index_lookup|].
  by rewrite (renaming_lookup memo refs l i r).
Qed.

Lemma resolve_all ls :
  (forall l, l ∈ ls -> l ∈ memo) ->
  mapM (fun i => refs !! i) (omap (pickle.index memo) ls) = Some (rho <$> ls).
Proof.
  intros Hin. apply mapM_Some.
  induction ls as [|l ls IH]; [constructor|].
  destruct (resolve l) as (i & Hi & Hr); [apply Hin; by left|].
  simpl. rewrite Hi. constructor; [exact Hr|].
  apply IH. intros l' Hl'. apply Hin. by right.
Qed.

Lemma rebuild_reduce l n :
  l ∈ memo -> h !! l = Some n ->
  pickle.rebuild g refs (pickle.reduce memo n) = inr (rename rho n).
Proof.
  intros Hl Hn. destruct (memo_closed l Hl) as (n' & Hn' & Hfun & Hrefs).
  rewrite Hn in Hn'. injection Hn' as <-.
  unfold pickle.rebuild, pickle.reduce. simpl. rewrite Hfun.
  rewrite resolve_all.
  2:{ intros c Hc. apply Hrefs, elem_of_app. by right. }
  destruct (Node.parent n) as [p|] eqn:Hp; simpl.
  - destruct (resolve p) as (i & Hi & Hr).
    { apply Hrefs, elem_of_app. left. by left. }
    rewrite Hi, Hr. simpl. unfold rename. by rewrite Hp.
  - unfold rename. by rewrite Hp.
Qed.

Lemma rebuild_all_reduce ls :
  (forall l, l ∈ ls -> l ∈ memo) ->
  exists nodes,
    pickle.rebuild_all g refs (omap (fun l => pickle.reduce memo <$> h !! l) ls)
    = inr nodes
    /\ length (omap (fun l => pickle.reduce memo <$> h !! l) ls) = length ls
    /\ Forall2 (fun l n' => exists n, h !! l = Some n /\ n' = rename rho n)
               ls nodes.
Proof.
  induction ls as [|l ls IH]; intros Hin.
  { exists []. by repeat split. }
  destruct IH as (nodes & Hrun & Hlen & Hall).
  { intros l' Hl'. apply Hin. by right. }
  assert (Hl : l ∈ memo) by (apply Hin; by left).
  destruct (memo_closed l Hl) as (n & Hn & _).
  exists (rename rho n :: nodes).
  assert (Hcons : omap (fun l => pickle.reduce memo <$> h !! l) (l :: ls)
                  = pickle.reduce memo n
                    :: omap (fun l => pickle.reduce memo <$> h !! l) ls).
  { simpl. by rewrite Hn. }
  rewrite Hcons. split; [|split].
  - change (match pickle.rebuild g refs (pickle.reduce memo n) with
            | inl e => inl e
            | inr n0 =>
                match pickle.rebuild_all g refs
                        (omap (fun l => pickle.reduce memo <$> h !! l) ls) with
                | inl e => inl e
                | inr ns => inr (n0 :: ns)
                end
            end = inr (rename rho n :: nodes)).
    by rewrite (rebuild_reduce l n Hl Hn), Hrun.
  - simpl. by rewrite Hlen.
  - constructor; [by exists n|done].
Qed.

End unpickling.

Section round_trip.
Implicit Types (h : gmap loc Node.t) (st : TTree.state) (l r : loc).

Lemma consistent_closed h :
  consistent h ->
  forall l n r, h !! l = Some n ->
    r ∈ option_list (Node.parent n) ++ Node.children n -> is_Some (h !! r).
Proof.
  intros Hc l n r Hl Hr. apply elem_of_app in Hr as [Hr|Hr].
  - destruct (Node.parent n) as [p|] eqn:Hp; [|by apply elem_of_nil in Hr].
    apply list_elem_of_singleton in Hr as ->.
    assert (Hpl : Node.parent_of h l = Some p).
    { unfold Node.parent_of. by rewrite Hl. }
    apply Hc in Hpl. unfold Node.children_of in Hpl.
    destruct (h !! p); [by eexists|by apply elem_of_nil in Hpl].
  - assert (Hrl : r ∈ Node.children_of h l).
    { unfold Node.children_of. by rewrite Hl. }
    apply Hc in Hrl. unfold Node.parent_of in Hrl.
    destruct (h !! r); [by eexists|done].
Qed.

Lemma dump_memo it tree h s :
  consistent h ->
  pickle.dump it tree h = inr s ->
  exists memo,
    NoDup memo
    /\ (forall l, l ∈ memo ->
          exists n, h !! l = Some n
            /\ pickle.globals it !! __name__ (Node.function n)
               = Some (Node.function n)
            /\ (forall r, r ∈ option_list (Node.parent n) ++ Node.children n ->
                  r ∈ memo))
    /\ (forall l, l ∈ TTree.root tree :: TTree.__nodes tree ->
          is_Some (h !! l) -> l ∈ memo)
    /\ s = pickle.Stream (TTree.name tree)
             (pickle.index memo (TTree.root tree))
             (TTree.id_iterator tree)
             (omap (pickle.index memo) (TTree.__nodes tree))
             (omap (fun l => pickle.reduce memo <$> h !! l) memo).
Proof.
  intros Hc Hdump. unfold pickle.dump in Hdump.
  destruct (pickle.recursion_limit it) as [|depth]; [done|].
  destruct (pickle.save_all (pickle.Pickler_save depth (pickle.globals it) h)
              (TTree.root tree :: TTree.__nodes tree) []) as [e|memo] eqn:Hrun;
    [done|].
  injection Hdump as <-.
  destruct (save_all_grows (pickle.globals it) h
              (pickle.Pickler_save depth (pickle.globals it) h) id _
              (fun a b b' _ =>
                 Pickler_save_grows (pickle.globals it) h
                   (consistent_closed h Hc) depth a b b')
              _ _ Hrun) as [(_ & Hnd & Hnew) Hin].
  exists memo. split; [apply Hnd, NoDup_nil_2|].
  split; [|split; [exact Hin|done]].
  intros l Hl. apply Hnew; [done|]. apply not_elem_of_nil.
Qed.

Lemma load_copy it tree h memo h0 :
  NoDup memo ->
  (forall l, l ∈ memo ->
     exists n, h !! l = Some n
       /\ pickle.globals it !! __name__ (Node.function n)
          = Some (Node.function n)
       /\ (forall r, r ∈ option_list (Node.parent n) ++ Node.children n ->
             r ∈ memo)) ->
  (forall l, l ∈ TTree.root tree :: TTree.__nodes tree -> l ∈ memo) ->
  exists rho tree' h',
    pickle.load it
      (pickle.Stream (TTree.name tree)
         (pickle.index memo (TTree.root tree))
         (TTree.id_iterator tree)
         (omap (pickle.index memo) (TTree.__nodes tree))
         (omap (fun l => pickle.reduce memo <$> h !! l) memo)) h0
    = inr (tree', h')
    /\ copy_of rho memo (TTree.State tree h) (TTree.State tree' h')
    /\ (forall l, l ∈ memo -> h0 !! rho l = None)
    /\ (forall l l', l ∈ memo -> l' ∈ memo -> rho l = rho l' -> l = l')
    /\ (forall l, is_Some (h0 !! l) -> h' !! l = h0 !! l).
Proof.
  intros Hnd Hclosed Hin.
  destruct (rebuild_all_reduce (pickle.globals it) h memo
              (fresh_list (length memo) (dom h0)) Hnd Hclosed
              (length_fresh_list _ _) memo (fun l Hl => Hl))
    as (nodes & Hrun & Hlen & Hall).
  set (refs := fresh_list (length memo) (dom h0)) in *.
  set (rho := renaming memo refs).
  assert (Hrefs : length refs = length memo) by apply length_fresh_list.
  assert (Hres : forall l, l ∈ memo ->
            exists i, pickle.index memo l = Some i /\ refs !! i = Some (rho l)).
  { intros l Hl. by apply resolve. }
  exists rho, (TTree.mk (TTree.name tree) (rho (TTree.root tree))
                 (TTree.id_iterator tree) (rho <$> TTree.__nodes tree)),
    (list_to_map (zip refs nodes) ∪ h0).
  assert (Hfresh : forall l, l ∈ memo -> rho l ∈ refs).
  { intros l Hl. destruct (Hres l Hl) as (i & _ & Hr).
    by eapply list_elem_of_lookup_2. }
  assert (Hnodes : length refs = length nodes).
  { rewrite Hrefs. by eapply Forall2_length. }
  split; [|split; [|split; [|split]]].
  - unfold pickle.load. simpl. rewrite Hlen. fold refs. rewrite Hrun.
    destruct (Hres (TTree.root tree)) as (i & Hi & Hr); [apply Hin; by left|].
    rewrite Hi. simpl. rewrite Hr.
    rewrite (resolve_all memo refs Hnd Hrefs).
    2:{ intros l Hl. apply Hin. by right. }
    done.
  - split; [done|]. split; [done|]. split; [done|]. split; [done|].
    simpl. intros l Hl. destruct (Hclosed l Hl) as (n & Hn & _).
    exists n. split; [done|].
    destruct (Hres l Hl) as (i & Hi & Hr).
    apply index_Some in Hi.
    destruct (Forall2_lookup_l _ _ _ _ _ Hall Hi) as (n' & Hn' & n0 & Hn0 & ->).
    rewrite Hn in Hn0. injection Hn0 as <-.
    apply lookup_union_Some_l. apply elem_of_list_to_map_1.
    + rewrite fst_zip by lia. apply NoDup_fresh_list.
    + apply (list_elem_of_lookup_2 _ i). by apply lookup_zip_Some.
  - intros l Hl. apply not_elem_of_dom.
    by eapply fresh_list_is_fresh, Hfresh.
  - intros l l' Hl Hl' Heq.
    destruct (Hres l Hl) as (i & Hi & Hr), (Hres l' Hl') as (j & Hj & Hr').
    rewrite Heq in Hr.
    assert (i = j) as ->.
    { eapply NoDup_lookup; [apply (NoDup_fresh_list (length memo) (dom h0))| |];
        done. }
    apply index_Some in Hi, Hj. congruence.
  - intros l Hl. apply lookup_union_r. apply not_elem_of_list_to_map_1.
    rewrite fst_zip by lia. intros Hin'.
    apply fresh_list_is_fresh in Hin'. apply Hin'. by apply elem_of_dom.
Qed.

End round_trip.

Section returns.
Variable g : gmap string callable.
Variable h : gmap loc Node.t.
Hypothesis h_closed :
  forall l n r, h !! l = Some n ->
    r ∈ option_list (Node.parent n) ++ Node.children n -> is_Some (h !! r).
Hypothesis importable :
  forall l n, h !! l = Some n ->
    g !! __name__ (Node.function n) = Some (Node.function n).

Lemma unsaved_grows memo memo' :
  memo_grows g h memo memo' -> size (unsaved h memo') <= size (unsaved h memo).
Proof.
  intros Hg. apply subseteq_size. unfold unsaved.
  intros l [Hl Hn]%elem_of_difference. apply elem_of_difference.
  split; [done|]. intros Hin. apply Hn.
  apply elem_of_list_to_set. apply elem_of_list_to_set in Hin.
  by eapply memo_grows_elem.
Qed.

Lemma save_all_returns depth :
  (forall obj memo, size (unsaved h memo) < depth ->
     exists memo', pickle.Pickler_save depth g h obj memo = inr memo') ->
  forall objs memo, size (unsaved h memo) < depth ->
    exists memo',
      pickle.save_all (pickle.Pickler_save depth g h) objs memo = inr memo'.
Proof.
  intros Hsave. induction objs as [|obj objs IH]; intros memo Hsize.
  { by exists memo. }
  destruct (Hsave obj memo Hsize) as [memo1 Hrun]. simpl. rewrite Hrun.
  apply IH.
  destruct (Pickler_save_grows g h h_closed depth obj memo memo1 Hrun)
    as [Hg _].
  pose proof (unsaved_grows memo memo1 Hg). lia.
Qed.

Lemma Pickler_save_returns depth :
  forall obj memo, size (unsaved h memo) < depth ->
    exists memo', pickle.Pickler_save depth g h obj memo = inr memo'.
Proof.
  induction depth as [|depth IH]; intros obj memo Hsize; [lia|].
  simpl. case_bool_decide as Hin; [by eexists|].
  destruct (h !! obj) as [n|] eqn:Hobj; [|by eexists].
  rewrite bool_decide_eq_true_2 by by eapply importable.
  apply save_all_returns; [exact IH|].
  assert (unsaved h (memo ++ [obj]) ⊂ unsaved h memo) as Hlt%subset_size;
    [|lia].
  unfold unsaved. split.
  - intros l [Hl Hn]%elem_of_difference. apply elem_of_difference.
    split; [done|]. intros Hl'. apply Hn.
    apply elem_of_list_to_set, elem_of_app. left.
    by apply elem_of_list_to_set in Hl'.
  - intros Hsub. assert (Ho : obj ∈ dom h ∖ (list_to_set memo : gset loc)).
    { apply elem_of_difference. split; [by apply elem_of_dom|].
      by rewrite elem_of_list_to_set. }
    apply Hsub in Ho. apply elem_of_difference in Ho as [_ Ho]. apply Ho.
    apply elem_of_list_to_set, elem_of_app. right. by left.
Qed.

Lemma dump_returns it tree :
  pickle.globals it = g ->
  size h + 2 <= pickle.recursion_limit it ->
  exists s, pickle.dump it tree h = inr s.
Proof.
  intros Hg Hlimit. unfold pickle.dump.
  destruct (pickle.recursion_limit it) as [|depth]; [lia|]. rewrite Hg.
  destruct (save_all_returns depth (Pickler_save_returns depth)
              (TTree.root tree :: TTree.__nodes tree) []) as [memo ->];
    [|by eexists].
  unfold unsaved. simpl. rewrite difference_empty_L, size_dom. lia.
Qed.

End returns.

Lemma renumbered_setup_state :
  renumbered_setup ∅
  = Ok (TTree.self renumbered_state) (TTree.heap renumbered_state).
Proof. vm_compute. reflexivity. Qed.

Lemma lambda_setup_state :
  lambda_setup ∅ = Ok (TTree.self lambda_state) (TTree.heap lambda_state).
Proof. vm_compute. reflexivity. Qed.

(** What a copy says about the attributes of a node: the copy has the
    name and the identifier of the original, and the copies of its
    parent and children. *)
Lemma copy_of_reads rho objs st st' l :
  copy_of rho objs st st' -> l ∈ objs ->
  Node.name_of (TTree.heap st') (rho l) = Node.name_of (TTree.heap st) l
  /\ Node.id_of (TTree.heap st') (rho l) = Node.id_of (TTree.heap st) l
  /\ Node.parent_of (TTree.heap st') (rho l)
     = rho <$> Node.parent_of (TTree.heap st) l
  /\ Node.children_of (TTree.heap st') (rho l)
     = rho <$> Node.children_of (TTree.heap st) l.
Proof.
  intros (_ & _ & _ & _ & Hobjs) Hl. destruct (Hobjs l Hl) as (n & Hn & Hn').
  unfold Node.name_of, Node.id_of, Node.parent_of, Node.children_of.
  rewrite Hn, Hn'. done.
Qed.

(** C5 as stated fails: not every tree built by attach operations comes
    back from a file with root identifier 0, and not every such tree can
    be saved.  After [tree.add_newpath(a, tree.root)] the root has
    identifier 1 ([renumbered_state]): the tree is saved and loaded, and
    the root of the loaded tree has identifier 1 as well.  A tree with a
    node that carries a lambda ([lambda_state]) is not saved at all:
    [save] raises [PicklingError] and leaves a file without a
    pickle. *)
Lemma save_load_not_every_tree :
  (exists files tree' h',
      save python "tree.pkl" (renumbered_state, ∅)
      = Ok tt (renumbered_state, files)
      /\ load_tree python "tree.pkl" (TTree.heap renumbered_state, files)
         = Ok tree' (h', files)
      /\ Node.id_of h' (TTree.root tree') = Some 1%Z)
  /\ (exists files,
        save python "tree.pkl" (lambda_state, ∅)
        = Raise PicklingError (lambda_state, files)
        /\ files !! "tree.pkl" = Some pickle.Truncated).
Proof.
  split.
  - eexists _, _, _. split; [vm_compute; reflexivity|].
    split; vm_compute; reflexivity.
  - eexists. split; vm_compute; reflexivity.
Qed.

(** C5, amended.  On a store whose links agree, with the root and the
    listed nodes in it: [save] returns when the callable of every node
    can be imported by its name and the store holds fewer objects than
    the pickler may nest; and whenever [save] returns, it has left the
    tree as it was and [load_tree] on the same file, into any store
    [h0], returns a copy of the tree made of new objects.  The copy has
    the name and the counter of the tree; its root and its list of nodes
    are the copies of the root and of the listed nodes; the copied nodes
    [objs] include the root, the listed nodes and, with a node, its
    parent and its children; each copy has the name, the callable and
    the identifier of its original, and the copies of its parent and
    children as parent and children.  The objects of [h0] are
    untouched. *)
Theorem load_tree_save it file st files :
  consistent (TTree.heap st) ->
  is_Some (TTree.heap st !! TTree.root (TTree.self st)) ->
  (forall n, n ∈ TTree.__nodes (TTree.self st) ->
     is_Some (TTree.heap st !! n)) ->
  (map_Forall (fun _ => importable it) (TTree.heap st) ->
   size (TTree.heap st) + 2 <= pickle.recursion_limit it ->
   exists s,
     save it file (st, files)
     = Ok tt (st, <[file := pickle.Pickled s]> files))
  /\ (forall w,
        save it file (st, files) = Ok tt w ->
        w.1 = st
        /\ forall h0,
             exists rho objs tree' h',
               load_tree it file (h0, w.2) = Ok tree' (h', w.2)
               /\ TTree.root (TTree.self st) ∈ objs
               /\ (forall n, n ∈ TTree.__nodes (TTree.self st) -> n ∈ objs)
               /\ closed_under_links (TTree.heap st) objs
               /\ copy_of rho objs st (TTree.State tree' h')
               /\ (forall l, l ∈ objs -> h0 !! rho l = None)
               /\ (forall l l', l ∈ objs -> l' ∈ objs ->
                     rho l = rho l' -> l = l')
               /\ (forall l, is_Some (h0 !! l) -> h' !! l = h0 !! l)).
Proof.
  intros Hc Hroot Hnodes. destruct st as [tree h]. simpl in *. split.
  - intros Himp Hsize.
    destruct (dump_returns (pickle.globals it) h (consistent_closed h Hc)
                (fun l n Hl => Himp l n Hl) it tree eq_refl Hsize) as [s Hs].
    exists s. unfold save. simpl. by rewrite Hs.
  - intros w Hsave. unfold save in Hsave. simpl in Hsave.
    destruct (pickle.dump it tree h) as [e|s] eqn:Hdump; [done|].
    injection Hsave as <-. simpl. split; [done|]. intros h0.
    destruct (dump_memo it tree h s Hc Hdump)
      as (memo & Hnd & Hclosed & Hin & ->).
    assert (Hin' : forall l, l ∈ tree.(TTree.root) :: tree.(TTree.__nodes) ->
              l ∈ memo).
    { intros l Hl. apply Hin; [done|].
      apply elem_of_cons in Hl as [->|Hl]; [done|by apply Hnodes]. }
    destruct (load_copy it tree h memo h0 Hnd Hclosed Hin')
      as (rho & tree' & h' & Hload & Hcopy & Hfresh & Hinj & Hold).
    exists rho, memo, tree', h'.
    split.
    { unfold load_tree. simpl. rewrite lookup_insert_eq. by rewrite Hload. }
    split; [apply Hin'; by left|].
    split; [intros n Hn; apply Hin'; by right|].
    split; [|done].
    intros l Hl. destruct (Hclosed l Hl) as (n & Hn & _ & Hrefs). split.
    + intros p Hp. apply Hrefs, elem_of_app. left.
      unfold Node.parent_of in Hp. rewrite Hn in Hp. simpl in Hp.
      rewrite Hp. by left.
    + intros c Hcl. apply Hrefs, elem_of_app. right.
      unfold Node.children_of in Hcl. by rewrite Hn in Hcl.
Qed.

(** The tree of [family_state] is saved and loaded into the store it
    was saved from. *)
Lemma load_tree_save_witness :
  exists s rho objs tree' h',
    save python "tree.pkl" (family_state, ∅)
    = Ok tt (family_state, <["tree.pkl" := pickle.Pickled s]> ∅)
    /\ load_tree python "tree.pkl"
         (TTree.heap family_state, <["tree.pkl" := pickle.Pickled s]> ∅)
       = Ok tree' (h', <["tree.pkl" := pickle.Pickled s]> ∅)
    /\ copy_of rho objs family_state (TTree.State tree' h').
Proof.
  destruct (load_tree_save python "tree.pkl" family_state ∅) as [Hsave Hload].
  - apply consistentb_sound. vm_compute. reflexivity.
  - vm_compute. eexists. reflexivity.
  - intros n Hn. simpl in Hn. rewrite !elem_of_cons, elem_of_nil in Hn.
    destruct Hn as [->|[->|[->|[]]]]; vm_compute; eexists; reflexivity.
  - destruct Hsave as [s Hs].
    + unfold importable. apply (bool_decide_unpack _). vm_compute.
      reflexivity.
    + vm_compute. lia.
    + destruct (Hload _ Hs) as [_ Hcopy].
      destruct (Hcopy (TTree.heap family_state))
        as (rho & objs & tree' & h' & Hrun & _ & _ & _ & Hc & _).
      exists s, rho, objs, tree', h'. split; [exact Hs|]. split; [|exact Hc].
      exact Hrun.
Defined.

(** * Further properties of the code *)

(** ** Node.set_parent *)

Section more_setter.
Implicit Types (h : gmap loc Node.t) (l s p q t : loc).

Lemma node_set_parent_run fuel s v h :
  Node.set_parent fuel s v h
  = match Node.NodeMixin.set_parent fuel s v h with
    | Ok _ h' => Ok (Node.parent_of h' s) h'
    | Raise e h' => Raise e h'
    | OutOfFuel => OutOfFuel
    end.
Proof.
  unfold Node.set_parent, bind, get, ret.
  by destruct (Node.NodeMixin.set_parent fuel s v h).
Qed.

(** The store a successful re-parenting ends in, written out. *)
Lemma set_parent_moves_run fuel h s t p :
  consistent h -> Node.parent_of h s = Some p -> p ≠ t ->
  not_above fuel h s t ->
  Node.NodeMixin.set_parent fuel s (Some t) h
  = Ok tt
      (alter (Node.with_parent (Some t)) s
         (alter (Node.with_children (Node.children_of h t ++ [s])) t
            (alter (Node.with_parent None) s
               (alter (Node.with_children
                         (filter (fun c => c ≠ s) (Node.children_of h p)))
                      p h)))).
Proof.
  intros Hc Hp Hpt Hw.
  unfold Node.NodeMixin.set_parent, bind, get. rewrite Hp.
  destruct (decide (Some p = Some t)) as [[= ?]|_]; [done|].
  unfold Node.NodeMixin.__check_loop.
  destruct (decide (t = s)) as [Hts|_]; [by apply not_above_ne in Hw|].
  rewrite Hw. unfold Node.NodeMixin.__detach.
  rewrite bool_decide_eq_true_2 by by apply Hc.
  unfold Node.NodeMixin.__attach.
  rewrite children_of_alter_parent, children_of_alter_children_ne by done.
  rewrite bool_decide_eq_false_2; [done|].
  intros Hin. apply Hc in Hin. congruence.
Qed.

End more_setter.

(** X1.  Re-parenting moves a node.  On a store with consistent links,
    [s.set_parent(t)] for a node [s] whose parent is another node [p],
    [s] being neither [t] nor above it, returns the new parent; [s] is
    appended as the last child of [t] and removed from the children of
    [p], whose other children keep their order; no other children list,
    no other parent and no identifier changes, and the links stay
    consistent. *)
Theorem set_parent_moves fuel h s t p :
  consistent h ->
  is_Some (h !! t) ->
  Node.parent_of h s = Some p -> p ≠ t ->
  not_above fuel h s t ->
  exists h',
    Node.set_parent fuel s (Some t) h = Ok (Some t) h'
    /\ consistent h'
    /\ Node.children_of h' t = Node.children_of h t ++ [s]
    /\ Node.children_of h' p = filter (fun c => c ≠ s) (Node.children_of h p)
    /\ (forall q, q ≠ t -> q ≠ p ->
          Node.children_of h' q = Node.children_of h q)
    /\ (forall l, l ≠ s -> Node.parent_of h' l = Node.parent_of h l)
    /\ (forall l, Node.id_of h' l = Node.id_of h l).
Proof.
  intros Hc Ht Hp Hpt Hw.
  assert (Hs : is_Some (h !! s)) by by eapply parent_of_allocated.
  assert (Hpa : is_Some (h !! p)).
  { eapply children_of_allocated. by apply Hc. }
  destruct (set_parent_ok fuel h s t Hc Hs Ht (or_intror Hw))
    as (h' & Hrun & Hc' & Hp' & Hf & Hi & _).
  exists h'. rewrite node_set_parent_run, Hrun, Hp'.
  split; [done|]. split; [done|].
  rewrite (set_parent_moves_run fuel h s t p Hc Hp Hpt Hw) in Hrun.
  injection Hrun as <-.
  split; [|split; [|split; [|split]]].
  - rewrite children_of_alter_parent, children_of_alter_children_eq; [done|].
    by rewrite !allocated_alter.
  - rewrite children_of_alter_parent, children_of_alter_children_ne by done.
    rewrite children_of_alter_parent.
    by rewrite children_of_alter_children_eq.
  - intros q Hqt Hqp.
    rewrite children_of_alter_parent, children_of_alter_children_ne by done.
    by rewrite children_of_alter_parent, children_of_alter_children_ne.
  - intros l Hl.
    rewrite parent_of_alter_parent_ne, parent_of_alter_children by done.
    by rewrite parent_of_alter_parent_ne, parent_of_alter_children.
  - intros l.
    rewrite id_of_alter_parent, id_of_alter_children.
    by rewrite id_of_alter_parent, id_of_alter_children.
Qed.

(** In [family_state] node [2], a child of the root, is moved under
    node [1]. *)
Lemma set_parent_moves_witness :
  exists h',
    Node.set_parent 2 2 (Some 1) (TTree.heap family_state) = Ok (Some 1) h'
    /\ consistent h'
    /\ Node.children_of h' 1 = [2]
    /\ Node.children_of h' 0 = [1]
    /\ (forall q, q ≠ 1 -> q ≠ 0 ->
          Node.children_of h' q = Node.children_of (TTree.heap family_state) q)
    /\ (forall l, l ≠ 2 ->
          Node.parent_of h' l = Node.parent_of (TTree.heap family_state) l)
    /\ (forall l, Node.id_of h' l = Node.id_of (TTree.heap family_state) l).
Proof.
  apply (set_parent_moves 2 (TTree.heap family_state) 2 1 0).
  - apply consistentb_sound. vm_compute. reflexivity.
  - vm_compute. eexists. reflexivity.
  - vm_compute. reflexivity.
  - lia.
  - vm_compute. reflexivity.
Defined.

(** X2.  [s.set_parent(None)] detaches a node.  On a store with
    consistent links and for a node [s] with parent [p], the call
    returns [None] without any walk of the tree (it succeeds with no
    fuel at all); [s] is taken out of the children of [p], whose other
    children keep their order, and nothing else changes. *)
Theorem set_parent_none_detaches fuel h s p :
  consistent h ->
  Node.parent_of h s = Some p ->
  exists h',
    Node.set_parent fuel s None h = Ok None h'
    /\ consistent h'
    /\ Node.children_of h' p = filter (fun c => c ≠ s) (Node.children_of h p)
    /\ (forall q, q ≠ p -> Node.children_of h' q = Node.children_of h q)
    /\ (forall l, l ≠ s -> Node.parent_of h' l = Node.parent_of h l)
    /\ (forall l, Node.id_of h' l = Node.id_of h l).
Proof.
  intros Hc Hp.
  assert (Hpa : is_Some (h !! p)).
  { eapply children_of_allocated. by apply Hc. }
  destruct (detach_ok h s p Hc Hp) as (hd & Hrun & Hcd & Hpd & Hf & Hi & _).
  exists hd. rewrite node_set_parent_run.
  unfold Node.NodeMixin.set_parent, bind, get. rewrite Hp.
  destruct (decide (Some p = None)) as [|_]; [done|].
  change (Node.NodeMixin.__check_loop fuel s None h) with (Ok tt h).
  cbv beta iota. rewrite Hrun.
  change (Node.NodeMixin.__attach s None hd) with (Ok tt hd).
  cbv beta iota. rewrite Hpd. split; [done|]. split; [done|].
  unfold Node.NodeMixin.__detach in Hrun.
  rewrite bool_decide_eq_true_2 in Hrun by by apply Hc.
  injection Hrun as <-.
  split; [|split; [|split]]; [| |done|done].
  - by rewrite children_of_alter_parent, children_of_alter_children_eq.
  - intros q Hq.
    by rewrite children_of_alter_parent, children_of_alter_children_ne.
Qed.

Lemma set_parent_none_detaches_witness :
  exists h',
    Node.set_parent 0 1 None (TTree.heap family_state) = Ok None h'
    /\ consistent h'
    /\ Node.children_of h' 0 = [2]
    /\ (forall q, q ≠ 0 ->
          Node.children_of h' q = Node.children_of (TTree.heap family_state) q)
    /\ (forall l, l ≠ 1 ->
          Node.parent_of h' l = Node.parent_of (TTree.heap family_state) l)
    /\ (forall l, Node.id_of h' l = Node.id_of (TTree.heap family_state) l).
Proof.
  apply (set_parent_none_detaches 0 (TTree.heap family_state) 1 0).
  - apply consistentb_sound. vm_compute. reflexivity.
  - vm_compute. reflexivity.
Defined.

(** X3.  [set_parent] is idempotent: when [s.set_parent(v)] has
    returned, it has returned [v], and the same call again returns [v]
    and leaves the store as it is. *)
Theorem set_parent_twice fuel h s v r h1 :
  is_Some (h !! s) ->
  Node.set_parent fuel s v h = Ok r h1 ->
  r = v /\ Node.set_parent fuel s v h1 = Ok v h1.
Proof.
  intros Hs Hrun. rewrite node_set_parent_run in Hrun.
  destruct (Node.NodeMixin.set_parent fuel s v h) as [[] h'|e h'|] eqn:Hsp;
    [|done|done].
  injection Hrun as <- <-.
  assert (Hp : Node.parent_of h' s = v).
  { unfold Node.NodeMixin.set_parent, bind, get in Hsp.
    destruct (decide (Node.parent_of h s = v)) as [Heq|Hne].
    { by injection Hsp as <-. }
    destruct (Node.NodeMixin.__check_loop fuel s v h) as [[] h0|e h0|] eqn:Hcl;
      [|done|done].
    assert (h0 = h) as ->.
    { unfold Node.NodeMixin.__check_loop in Hcl.
      destruct v as [w|]; [|by injection Hcl].
      destruct (decide (w = s)); [done|].
      by destruct (Node.NodeMixin.on_path_reverse fuel h s w) as [[]|];
        [|injection Hcl|]. }
    destruct (Node.NodeMixin.__detach s (Node.parent_of h s) h)
      as [[] hd|e hd|] eqn:Hd; [|done|done].
    assert (Hsd : is_Some (hd !! s)
                  /\ (v = None -> Node.parent_of hd s = None)).
    { unfold Node.NodeMixin.__detach in Hd.
      destruct (Node.parent_of h s) as [p|] eqn:Hps.
      - case_bool_decide; [|done]. injection Hd as <-.
        split; [by rewrite !allocated_alter|].
        intros _. apply parent_of_alter_parent_eq. by rewrite allocated_alter.
      - injection Hd as <-. split; [done|]. by intros ->. }
    destruct Hsd as [Hsd Hnone].
    unfold Node.NodeMixin.__attach in Hsp.
    destruct v as [w|]; [|injection Hsp as <-; by apply Hnone].
    case_bool_decide; [done|]. injection Hsp as <-.
    apply parent_of_alter_parent_eq. by rewrite allocated_alter. }
  split; [done|]. rewrite node_set_parent_run.
  unfold Node.NodeMixin.set_parent, bind, get.
  destruct (decide (Node.parent_of h' s = v)); [|done].
  unfold ret. by rewrite Hp.
Qed.

Lemma set_parent_twice_witness :
  exists h1,
    Node.set_parent 1 1 (Some 0) (TTree.heap test_state) = Ok (Some 0) h1
    /\ Node.set_parent 1 1 (Some 0) h1 = Ok (Some 0) h1.
Proof.
  eexists. split; [vm_compute; reflexivity|].
  eapply (set_parent_twice 1 (TTree.heap test_state) 1 (Some 0)).
  - vm_compute. eexists. reflexivity.
  - vm_compute. reflexivity.
Defined.

(** ** The parent links stay a forest *)

Section forest.
Implicit Types (h : gmap loc Node.t) (l s p q t : loc).

Lemma forestb_sound h : forestb h = true -> forest h.
Proof.
  unfold forestb. rewrite forallb_forall. intros Hall l.
  destruct (h !! l) as [n|] eqn:Hl.
  - exists (size h). specialize (Hall (l, n)). simpl in Hall.
    eapply bool_decide_eq_true_1, Hall.
    apply list_elem_of_In. by apply elem_of_map_to_list.
  - exists 1. simpl. unfold Node.parent_of. rewrite Hl. simpl. by eexists.
Qed.

Lemma iter_path_reverse_mono fuel fuel' h l path :
  iter_path_reverse fuel h l = Some path -> fuel <= fuel' ->
  iter_path_reverse fuel' h l = Some path.
Proof.
  revert fuel' l path. induction fuel as [|fuel IH]; intros fuel' l path; [done|].
  intros Hw Hle. destruct fuel' as [|fuel']; [lia|]. simpl in *.
  destruct (Node.parent_of h l) as [p|]; [|done].
  destruct (iter_path_reverse fuel h p) as [rest|] eqn:Hr; [|done].
  rewrite (IH fuel' p rest); [done|done|lia].
Qed.

(** The loop check that lets a parent through has walked from it to a
    root without meeting the node. *)
Lemma not_above_path fuel h s t :
  not_above fuel h s t ->
  exists path, iter_path_reverse fuel h t = Some path /\ s ∉ path.
Proof.
  unfold not_above. revert t. induction fuel as [|fuel IH]; intros t; [done|].
  simpl. destruct (decide (t = s)) as [|Hts]; [done|].
  destruct (Node.parent_of h t) as [p|].
  - intros (path & -> & Hnin)%IH. exists (t :: path). split; [done|].
    rewrite not_elem_of_cons. split; [congruence|done].
  - intros _. exists [t]. split; [done|].
    rewrite list_elem_of_singleton. congruence.
Qed.

Lemma iter_path_reverse_stable fuel h h' s t path :
  iter_path_reverse fuel h t = Some path -> s ∉ path ->
  (forall l, l ≠ s -> Node.parent_of h' l = Node.parent_of h l) ->
  iter_path_reverse fuel h' t = Some path.
Proof.
  intros Hw Hnin Hframe. revert t path Hw Hnin.
  induction fuel as [|fuel IH]; intros t path; [done|]. simpl.
  destruct (decide (t = s)) as [->|Hts].
  - destruct (Node.parent_of h s) as [p|].
    + destruct (iter_path_reverse fuel h p); [|done].
      intros [= <-] Hnin. exfalso. apply Hnin. by left.
    + intros [= <-] Hnin. exfalso. apply Hnin. by left.
  - rewrite (Hframe t Hts). destruct (Node.parent_of h t) as [p|]; [|done].
    destruct (iter_path_reverse fuel h p) as [rest|] eqn:Hr; [|done].
    intros [= <-] Hnin. rewrite (IH p rest); [done|done|].
    intros Hin. apply Hnin. by right.
Qed.

(** A walk that ends does not come back to where it started. *)
Lemma iter_path_reverse_no_return fuel h s p path :
  Node.parent_of h s = Some p ->
  iter_path_reverse fuel h p = Some path -> s ∉ path.
Proof.
  intros Hp Hpath Hin.
  assert (Hloop : forall f1 l path1,
             iter_path_reverse f1 h l = Some path1 -> s ∈ path1 ->
             forall f2 path2, iter_path_reverse f2 h s = Some path2 ->
                              length path2 <= length path1).
  { induction f1 as [|f1 IH1]; intros l path1; [done|]. simpl.
    destruct (decide (l = s)) as [->|Hls].
    - intros Hw1 _ f2 path2 Hw2.
      assert (iter_path_reverse (S f1) h s = Some path1) as Hw1' by exact Hw1.
      eapply iter_path_reverse_mono in Hw1'; [|apply (Nat.le_max_l _ f2)].
      eapply iter_path_reverse_mono in Hw2; [|apply (Nat.le_max_r (S f1))].
      rewrite Hw1' in Hw2. by injection Hw2 as <-.
    - destruct (Node.parent_of h l) as [q|].
      + destruct (iter_path_reverse f1 h q) as [rest|] eqn:Hr; [|done].
        intros [= <-] Hin1 f2 path2 Hw2.
        apply elem_of_cons in Hin1 as [|Hin1]; [congruence|].
        specialize (IH1 q rest Hr Hin1 f2 path2 Hw2). simpl. lia.
      + intros [= <-] Hin1. apply list_elem_of_singleton in Hin1.
        congruence. }
  assert (Hws : iter_path_reverse (S fuel) h s = Some (s :: path)).
  { simpl. by rewrite Hp, Hpath. }
  specialize (Hloop fuel p path Hpath Hin (S fuel) (s :: path) Hws).
  simpl in Hloop. lia.
Qed.

(** Changing the parent of one node to nothing, or to a node that the
    loop check lets through, keeps a forest a forest. *)
Lemma forest_update h h' s :
  forest h ->
  (forall l, l ≠ s -> Node.parent_of h' l = Node.parent_of h l) ->
  Node.parent_of h' s = None
  \/ Node.parent_of h' s = Node.parent_of h s
  \/ (exists t fuel, Node.parent_of h' s = Some t /\ not_above fuel h s t) ->
  forest h'.
Proof.
  intros Hf Hframe Hs.
  assert (Hind : forall fuel l path,
             iter_path_reverse fuel h l = Some path ->
             (exists f, is_Some (iter_path_reverse f h' s)) ->
             exists f, is_Some (iter_path_reverse f h' l)).
  { induction fuel as [|fuel IH]; intros l path; [done|]. simpl.
    destruct (decide (l = s)) as [->|Hls]; [done|].
    destruct (Node.parent_of h l) as [p|] eqn:Hp.
    - destruct (iter_path_reverse fuel h p) as [rest|] eqn:Hr; [|done].
      intros _ Hgo. destruct (IH p rest Hr Hgo) as [f [w Hw]].
      exists (S f). simpl. rewrite (Hframe l Hls), Hp, Hw. by eexists.
    - intros _ _. exists 1. simpl. rewrite (Hframe l Hls), Hp. by eexists. }
  assert (Hs' : exists f, is_Some (iter_path_reverse f h' s)).
  { destruct Hs as [Hn|[Hsame|(t & fuel & Ht & Hw)]].
    - exists 1. simpl. rewrite Hn. by eexists.
    - destruct (Node.parent_of h s) as [p|] eqn:Hp.
      + destruct (Hf p) as [f [path Hpath]].
        exists (S f). simpl. rewrite Hsame.
        rewrite (iter_path_reverse_stable f h h' s p path); [by eexists|done| |done].
        exact (iter_path_reverse_no_return f h s p path Hp Hpath).
      + exists 1. simpl. rewrite Hsame. by eexists.
    - destruct (not_above_path fuel h s t Hw) as (path & Hpath & Hnin).
      exists (S fuel). simpl. rewrite Ht.
      rewrite (iter_path_reverse_stable fuel h h' s t path); [by eexists|done..]. }
  intros l. destruct (Hf l) as [f [path Hpath]].
  by eapply Hind.
Qed.

End forest.

Section forest_setter.
Implicit Types (h : gmap loc Node.t) (l s p q t : loc).

Lemma parent_of_alter_parent_cases h x s :
  Node.parent_of (alter (Node.with_parent x) s h) s = x
  \/ Node.parent_of (alter (Node.with_parent x) s h) s = None.
Proof.
  unfold Node.parent_of. rewrite lookup_alter_eq.
  destruct (h !! s); [by left|by right].
Qed.

(** What the parent setter does to the parent links, however it ends:
    it touches the parent of [s] only, and leaves it as it was, empty,
    or set to a node that passed the loop check. *)
Lemma set_parent_parents fuel s v h :
  match Node.NodeMixin.set_parent fuel s v h with
  | Ok _ h' | Raise _ h' =>
      (forall l, l ≠ s -> Node.parent_of h' l = Node.parent_of h l)
      /\ (Node.parent_of h' s = None
          \/ Node.parent_of h' s = Node.parent_of h s
          \/ exists t, Node.parent_of h' s = Some t /\ not_above fuel h s t)
  | OutOfFuel => True
  end.
Proof.
  unfold Node.NodeMixin.set_parent, bind, get.
  destruct (decide (Node.parent_of h s = v)); [by split; [|right; left]|].
  assert (Hrest : (forall t, v = Some t -> not_above fuel h s t) ->
    match (run Node.NodeMixin.__detach s (Node.parent_of h s);
           Node.NodeMixin.__attach s v) h with
    | Ok _ h' | Raise _ h' =>
        (forall l, l ≠ s -> Node.parent_of h' l = Node.parent_of h l)
        /\ (Node.parent_of h' s = None
            \/ Node.parent_of h' s = Node.parent_of h s
            \/ exists t, Node.parent_of h' s = Some t /\ not_above fuel h s t)
    | OutOfFuel => True
    end).
  { intros Hw. unfold bind.
    assert (Hd : match Node.NodeMixin.__detach s (Node.parent_of h s) h with
                 | Ok _ hd =>
                     (forall l, l ≠ s -> Node.parent_of hd l = Node.parent_of h l)
                     /\ (Node.parent_of hd s = None
                         \/ Node.parent_of hd s = Node.parent_of h s)
                 | Raise _ hd => hd = h
                 | OutOfFuel => True
                 end).
    { unfold Node.NodeMixin.__detach.
      destruct (Node.parent_of h s) as [p|] eqn:Hp; [|by split; [|right]].
      case_bool_decide; [|done]. split.
      - intros l Hl.
        by rewrite parent_of_alter_parent_ne, parent_of_alter_children.
      - left. unfold Node.parent_of. rewrite lookup_alter_eq.
        by destruct (_ !! s). }
    destruct (Node.NodeMixin.__detach s (Node.parent_of h s) h)
      as [[] hd|e hd|]; [|subst; by split; [|right; left]|done].
    destruct Hd as [Hfd Hsd].
    unfold Node.NodeMixin.__attach. destruct v as [w|].
    - case_bool_decide.
      + split; [done|]. destruct Hsd; [by left|by right; left].
      + split.
        * intros l Hl.
          by rewrite parent_of_alter_parent_ne, parent_of_alter_children, Hfd.
        * destruct (parent_of_alter_parent_cases
                      (alter (Node.with_children (Node.children_of hd w ++ [s]))
                             w hd) (Some w) s) as [->| ->]; [|by left].
          right. right. exists w. split; [done|by apply Hw].
    - split; [done|]. destruct Hsd; [by left|by right; left]. }
  unfold Node.NodeMixin.__check_loop. unfold bind in Hrest.
  destruct v as [w|]; [|by apply Hrest].
  destruct (decide (w = s)); [by split; [|right; left]|].
  destruct (Node.NodeMixin.on_path_reverse fuel h s w) as [[]|] eqn:Hw;
    [by split; [|right; left]| |done].
  apply Hrest. by intros t [= <-].
Qed.

End forest_setter.

(** X4.  The parent setter never closes a cycle.  When from every node
    of the store the walk towards the root ends, it still does after
    [s.set_parent(v)], whether the call returned or raised. *)
Theorem set_parent_keeps_forest fuel s v h :
  forest h ->
  match Node.set_parent fuel s v h with
  | Ok _ h' | Raise _ h' => forest h'
  | OutOfFuel => True
  end.
Proof.
  intros Hf. rewrite node_set_parent_run.
  pose proof (set_parent_parents fuel s v h) as Hp.
  destruct (Node.NodeMixin.set_parent fuel s v h) as [[] h'|e h'|]; [| |done];
    destruct Hp as [Hframe Hs]; apply (forest_update h h' s Hf Hframe);
    (destruct Hs as [?|[?|(t & ? & ?)]];
       [by left|by right; left|right; right; by exists t, fuel]).
Qed.

Lemma set_parent_keeps_forest_witness :
  match Node.set_parent 2 2 (Some 1) (TTree.heap family_state) with
  | Ok _ h' | Raise _ h' => forest h'
  | OutOfFuel => True
  end.
Proof.
  apply (set_parent_keeps_forest 2 2 (Some 1) (TTree.heap family_state)).
  apply forestb_sound. vm_compute. reflexivity.
Defined.

(** ** Relations that every tree operation keeps *)

(** A relation between states that is kept by the three steps the tree
    operations are made of (the parent setter, the numbering of a node,
    the registration of a node) is kept by the operations
    themselves. *)
Section lifting.
Variable R : TTree.state -> TTree.state -> Prop.
Hypothesis R_refl : forall st, R st st.
Hypothesis R_trans : forall st1 st2 st3, R st1 st2 -> R st2 st3 -> R st1 st3.
Hypothesis R_set_parent :
  forall fuel n v, preserves R (TTree.on_heap (Node.set_parent fuel n v)).
Hypothesis R_set_id : forall n, preserves R (TTree.set_id n).
Hypothesis R_register :
  forall n st, R st (TTree.State (registered n (TTree.self st)) (TTree.heap st)).

Lemma lift_chain fuel rest :
  forall prev, preserves R (TTree.chain fuel prev rest).
Proof.
  induction rest as [|n rest IH]; intros prev; [by apply preserves_ret|].
  simpl. apply preserves_bind; [done|apply R_set_parent|intros _].
  apply preserves_bind; [done|apply R_set_id|intros _; apply IH].
Qed.

Lemma lift_byref fuel target path :
  preserves R (TTree.__add_newpath_byref fuel target path).
Proof.
  destruct path as [|first rest]; [by apply preserves_raise|].
  simpl. apply preserves_bind; [done|apply R_set_parent|intros _].
  apply preserves_bind; [done|apply R_set_id|intros _; apply lift_chain].
Qed.

Lemma lift_check path : preserves R (TTree.check_path path).
Proof.
  intros st. pose proof (check_path_state path st) as Hst.
  destruct (TTree.check_path path st) as [[] st1|e st1|]; [| |done];
    subst; apply R_refl.
Qed.

Lemma lift_add_newpath fuel target path :
  preserves R (TTree.add_newpath fuel target path).
Proof.
  unfold TTree.add_newpath.
  apply preserves_bind; [done|apply lift_check|intros _; apply lift_byref].
Qed.

Lemma lift_each_target fuel path targets :
  preserves R (TTree.each_target fuel targets path).
Proof.
  induction targets as [|t targets IH]; [by apply preserves_ret|].
  simpl. apply preserves_bind; [done|apply lift_byref|intros _; apply IH].
Qed.

Lemma lift_add_newpath_byid fuel target_id path :
  preserves R (TTree.add_newpath_byid fuel target_id path).
Proof.
  unfold TTree.add_newpath_byid.
  apply preserves_bind; [done|apply lift_check|intros _].
  intros st. unfold bind, get.
  destruct (PostOrderIter fuel (TTree.heap st)
              (TTree.has_id (TTree.heap st) target_id)
              (TTree.root (TTree.self st))) as [targets|];
    [|apply R_refl].
  apply lift_each_target.
Qed.

Lemma lift_add_node fuel target new_node :
  preserves R (TTree.add_node fuel target new_node).
Proof.
  destruct target as [t|]; [|by apply preserves_ret].
  destruct new_node as [n|]; [|by apply preserves_ret].
  assert (Hgo : preserves R
            (run TTree.on_heap (Node.set_parent fuel n (Some t));
             run TTree.on_self (registered n);
             TTree.set_id n)).
  { apply preserves_bind; [done|apply R_set_parent|intros _].
    apply preserves_bind; [done| |intros _; apply R_set_id].
    intros st. apply R_register. }
  intros st. unfold TTree.add_node. unfold bind at 1. unfold get.
  case_bool_decide; [apply Hgo|apply R_refl].
Qed.

End lifting.

Section kept.
Implicit Types (h : gmap loc Node.t) (st : TTree.state) (l n t : loc).

Lemma payload_of_alter h (f : Node.t -> Node.t) (s : loc) l :
  (forall x, Node.name (f x) = Node.name x) ->
  (forall x, Node.function (f x) = Node.function x) ->
  payload_of (alter f s h) l = payload_of h l.
Proof.
  intros Hn Hf. unfold payload_of. rewrite lookup_alter.
  case_decide; [subst|done]. destruct (h !! l); simpl; [|done].
  by rewrite Hn, Hf.
Qed.

Lemma set_parent_payload fuel s v h :
  match Node.NodeMixin.set_parent fuel s v h with
  | Ok _ h' | Raise _ h' => forall l, payload_of h' l = payload_of h l
  | OutOfFuel => True
  end.
Proof.
  unfold Node.NodeMixin.set_parent, bind, get.
  destruct (decide (Node.parent_of h s = v)); [done|].
  assert (Hgo :
    match (run Node.NodeMixin.__detach s (Node.parent_of h s);
           Node.NodeMixin.__attach s v) h with
    | Ok _ h' | Raise _ h' => forall l, payload_of h' l = payload_of h l
    | OutOfFuel => True
    end).
  { unfold bind, Node.NodeMixin.__detach, Node.NodeMixin.__attach.
    destruct (Node.parent_of h s) as [p|]; [case_bool_decide; [|done]|];
      (destruct v as [w|]; [case_bool_decide|]); try done;
      intros l; by rewrite ?payload_of_alter. }
  unfold Node.NodeMixin.__check_loop. unfold bind in Hgo.
  destruct v as [w|]; [|exact Hgo].
  destruct (decide (w = s)); [done|].
  by destruct (Node.NodeMixin.on_path_reverse fuel h s w) as [[]|].
Qed.

Lemma forest_same_parents h h' :
  (forall l, Node.parent_of h' l = Node.parent_of h l) -> forest h -> forest h'.
Proof.
  intros Hsame Hf. apply (forest_update h h' 0 Hf); [by intros|].
  right. left. apply Hsame.
Qed.

Lemma keeps_forest_set_parent fuel n v :
  preserves keeps_forest (TTree.on_heap (Node.set_parent fuel n v)).
Proof.
  intros st. rewrite on_heap_set_parent.
  pose proof (set_parent_parents fuel n v (TTree.heap st)) as Hp.
  destruct (Node.NodeMixin.set_parent fuel n v (TTree.heap st))
    as [[] h'|e h'|]; [| |done];
    destruct Hp as [Hframe Hs]; intros Hf; simpl;
    apply (forest_update _ h' n Hf Hframe);
    (destruct Hs as [?|[?|(t & ? & ?)]];
       [by left|by right; left|right; right; by exists t, fuel]).
Qed.

Lemma keeps_forest_set_id n : preserves keeps_forest (TTree.set_id n).
Proof.
  intros st. rewrite set_id_run. intros Hf. simpl.
  eapply forest_same_parents; [|exact Hf].
  intros l. apply parent_of_alter_id.
Qed.

Lemma issues_refl st : issues st st.
Proof. split; [lia|]. intros l i Hi. by left. Qed.

Lemma issues_trans st1 st2 st3 : issues st1 st2 -> issues st2 st3 -> issues st1 st3.
Proof.
  intros [Hle12 H12] [Hle23 H23]. split; [lia|]. intros l i Hi.
  destruct (H23 l i Hi) as [Hold|Hnew]; [|right; lia].
  destruct (H12 l i Hold) as [|]; [by left|right; lia].
Qed.

Lemma issues_set_parent fuel n v :
  preserves issues (TTree.on_heap (Node.set_parent fuel n v)).
Proof.
  intros st. rewrite on_heap_set_parent.
  pose proof (set_parent_keeps fuel n v (TTree.heap st)) as Hk.
  destruct (Node.NodeMixin.set_parent fuel n v (TTree.heap st))
    as [[] h'|e h'|]; [| |done]; destruct Hk as (Hid & _);
    (split; simpl; [lia|]); intros l i Hi; left; by rewrite <- Hid.
Qed.

Lemma issues_set_id n : preserves issues (TTree.set_id n).
Proof.
  intros st. rewrite set_id_run. split; simpl; [lia|].
  intros l i. destruct (decide (l = n)) as [->|Hln].
  - unfold Node.id_of at 1. rewrite lookup_alter_eq.
    destruct (TTree.heap st !! n) eqn:Hn; simpl; [|done].
    intros [= <-]. right. lia.
  - rewrite id_of_alter_id_ne by done. by left.
Qed.

Lemma grows_refl st : grows st st.
Proof. by repeat split. Qed.

Lemma grows_trans st1 st2 st3 : grows st1 st2 -> grows st2 st3 -> grows st1 st3.
Proof.
  intros (Hn & Hr & Hp) (Hn' & Hr' & Hp'). split; [congruence|].
  split; [congruence|]. by etrans.
Qed.

Lemma grows_set_parent fuel n v :
  preserves grows (TTree.on_heap (Node.set_parent fuel n v)).
Proof.
  intros st. rewrite on_heap_set_parent.
  by destruct (Node.NodeMixin.set_parent fuel n v (TTree.heap st));
    [split; [|split]|split; [|split]|].
Qed.

Lemma same_payload_set_parent fuel n v :
  preserves same_payload (TTree.on_heap (Node.set_parent fuel n v)).
Proof.
  intros st. rewrite on_heap_set_parent.
  pose proof (set_parent_payload fuel n v (TTree.heap st)) as Hp.
  by destruct (Node.NodeMixin.set_parent fuel n v (TTree.heap st)).
Qed.

End kept.

(** X5.  No tree operation closes a cycle.  When the parent links of
    the store form a forest before [add_node], [add_newpath] or
    [add_newpath_byid], they form a forest after the call, whether it
    returned or raised, also when a path was attached in part. *)
Theorem tree_operations_keep_forest fuel :
  (forall target new_node,
     preserves keeps_forest (TTree.add_node fuel target new_node))
  /\ (forall target path,
        preserves keeps_forest (TTree.add_newpath fuel target path))
  /\ (forall target_id path,
        preserves keeps_forest (TTree.add_newpath_byid fuel target_id path)).
Proof.
  assert (Hrefl : forall st, keeps_forest st st) by by intros st Hf.
  assert (Htrans : forall st1 st2 st3,
             keeps_forest st1 st2 -> keeps_forest st2 st3 ->
             keeps_forest st1 st3).
  { intros st1 st2 st3 H12 H23 Hf. by apply H23, H12. }
  assert (Hreg : forall n st,
             keeps_forest st
               (TTree.State (registered n (TTree.self st)) (TTree.heap st)))
    by by intros n st Hf.
  split; [|split]; intros.
  - by apply lift_add_node;
      [| |apply keeps_forest_set_parent|apply keeps_forest_set_id|].
  - by apply lift_add_newpath;
      [| |apply keeps_forest_set_parent|apply keeps_forest_set_id].
  - by apply lift_add_newpath_byid;
      [| |apply keeps_forest_set_parent|apply keeps_forest_set_id].
Qed.

(** Attaching the root of [family_state] under its own child raises
    and leaves a forest; so does a path attached in part. *)
Lemma tree_operations_keep_forest_witness :
  match TTree.add_node 2 (Some 1) (Some 0) family_state with
  | Ok _ st' | Raise _ st' => forest (TTree.heap st')
  | OutOfFuel => True
  end
  /\ match TTree.add_newpath 3 (Some 0) (TTree.Many [3; 3]) family_state with
     | Ok _ st' | Raise _ st' => forest (TTree.heap st')
     | OutOfFuel => True
     end.
Proof.
  destruct (tree_operations_keep_forest 2) as (Hnode & _ & _).
  destruct (tree_operations_keep_forest 3) as (_ & Hpath & _).
  split.
  - pose proof (Hnode (Some 1) (Some 0) family_state) as Hkept.
    destruct (TTree.add_node 2 (Some 1) (Some 0) family_state);
      [apply Hkept|apply Hkept|exact I];
      apply forestb_sound; vm_compute; reflexivity.
  - pose proof (Hpath (Some 0) (TTree.Many [3; 3]) family_state) as Hkept.
    destruct (TTree.add_newpath 3 (Some 0) (TTree.Many [3; 3]) family_state);
      [apply Hkept|apply Hkept|exact I];
      apply forestb_sound; vm_compute; reflexivity.
Defined.

(** X6.  Identifiers come from the counter only.  Whatever
    [add_node], [add_newpath] or [add_newpath_byid] is given and however
    it ends, the counter has not gone down, and every node that has an
    identifier afterwards either had that identifier before or has one
    of the values the counter went through during the call. *)
Theorem tree_operations_issue_identifiers fuel :
  (forall target new_node,
     preserves issues (TTree.add_node fuel target new_node))
  /\ (forall target path,
        preserves issues (TTree.add_newpath fuel target path))
  /\ (forall target_id path,
        preserves issues (TTree.add_newpath_byid fuel target_id path)).
Proof.
  split; [|split]; intros.
  - apply lift_add_node;
      [apply issues_refl|apply issues_trans|apply issues_set_parent
      |apply issues_set_id|].
    intros n st. split; simpl; [lia|]. intros l i Hi. by left.
  - apply lift_add_newpath;
      [apply issues_refl|apply issues_trans|apply issues_set_parent
      |apply issues_set_id].
  - apply lift_add_newpath_byid;
      [apply issues_refl|apply issues_trans|apply issues_set_parent
      |apply issues_set_id].
Qed.

(** X7.  The tree object only grows.  Whatever [add_node],
    [add_newpath] or [add_newpath_byid] is given and however it ends,
    the tree has the name and the root it had, and its list of nodes is
    the old list with entries added at the end, if any. *)
Theorem tree_operations_grow fuel :
  (forall target new_node,
     preserves grows (TTree.add_node fuel target new_node))
  /\ (forall target path,
        preserves grows (TTree.add_newpath fuel target path))
  /\ (forall target_id path,
        preserves grows (TTree.add_newpath_byid fuel target_id path)).
Proof.
  assert (Hid : forall n, preserves grows (TTree.set_id n)).
  { intros n st. rewrite set_id_run. by repeat split. }
  assert (Hreg : forall n st,
             grows st (TTree.State (registered n (TTree.self st))
                                   (TTree.heap st))).
  { intros n st. split; [done|]. split; [done|]. simpl.
    by apply prefix_app_r. }
  split; [|split]; intros.
  - apply lift_add_node;
      [apply grows_refl|apply grows_trans|apply grows_set_parent|done|done].
  - apply lift_add_newpath;
      [apply grows_refl|apply grows_trans|apply grows_set_parent|done].
  - apply lift_add_newpath_byid;
      [apply grows_refl|apply grows_trans|apply grows_set_parent|done].
Qed.

(** X8.  No tree operation creates, drops or renames a node.  Whatever
    [add_node], [add_newpath] or [add_newpath_byid] is given and however
    it ends, the store holds the same objects as before, each with the
    name and the callable it was built with. *)
Theorem tree_operations_keep_objects fuel :
  (forall target new_node,
     preserves same_payload (TTree.add_node fuel target new_node))
  /\ (forall target path,
        preserves same_payload (TTree.add_newpath fuel target path))
  /\ (forall target_id path,
        preserves same_payload (TTree.add_newpath_byid fuel target_id path)).
Proof.
  assert (Hrefl : forall st, same_payload st st) by by intros st l.
  assert (Htrans : forall st1 st2 st3,
             same_payload st1 st2 -> same_payload st2 st3 ->
             same_payload st1 st3).
  { intros st1 st2 st3 H12 H23 l. by rewrite H23, H12. }
  assert (Hid : forall n, preserves same_payload (TTree.set_id n)).
  { intros n st. rewrite set_id_run. intros l. simpl.
    by apply payload_of_alter. }
  assert (Hreg : forall n st,
             same_payload st (TTree.State (registered n (TTree.self st))
                                          (TTree.heap st)))
    by by intros n st l.
  split; [|split]; intros.
  - by apply lift_add_node; [| |apply same_payload_set_parent| |].
  - by apply lift_add_newpath; [| |apply same_payload_set_parent|].
  - by apply lift_add_newpath_byid; [| |apply same_payload_set_parent|].
Qed.

(** ** The search of add_newpath_byid *)

Section search.
Implicit Types (h : gmap loc Node.t) (st : TTree.state) (l n t : loc).

Lemma mapM_fmap_option {A B C} (k : A -> option B) (g : B -> C) (xs : list A) :
  mapM (fun x => g <$> k x) xs = fmap g <$> mapM k xs.
Proof.
  induction xs as [|x xs IH]; [done|]. simpl. rewrite IH.
  destruct (k x); simpl; [|done]. by destruct (mapM k xs).
Qed.

Lemma filter_concat {A} (P : A -> Prop) `{forall x, Decision (P x)}
    (ls : list (list A)) :
  filter P (concat ls) = concat (filter P <$> ls).
Proof.
  induction ls as [|l ls IH]; [done|]. simpl. by rewrite filter_app, IH.
Qed.

(** The filtered traversal is the plain traversal, filtered. *)
Lemma PostOrderIter_filter fuel h (filter_ : loc -> bool) root :
  PostOrderIter fuel h filter_ root
  = filter (fun n => filter_ n) <$> PostOrderIter fuel h (fun _ => true) root.
Proof.
  revert root. induction fuel as [|fuel IH]; intros root; [done|]. simpl.
  rewrite (mapM_ext _ _ _ IH), mapM_fmap_option.
  destruct (mapM (PostOrderIter fuel h (fun _ => true))
                 (Node.children_of h root)) as [below|]; [|done].
  simpl. f_equal. rewrite filter_app, filter_concat. f_equal.
  rewrite filter_cons, filter_nil. by destruct (filter_ root).
Qed.

Lemma PostOrderIter_mono fuel fuel' h filter_ root found :
  PostOrderIter fuel h filter_ root = Some found -> fuel <= fuel' ->
  PostOrderIter fuel' h filter_ root = Some found.
Proof.
  revert fuel' root found.
  induction fuel as [|fuel IH]; intros fuel' root found; [done|].
  intros Hrun Hle. destruct fuel' as [|fuel']; [lia|]. simpl in *.
  destruct (mapM (PostOrderIter fuel h filter_) (Node.children_of h root))
    as [below|] eqn:Hbelow; [|done].
  assert (mapM (PostOrderIter fuel' h filter_) (Node.children_of h root)
          = Some below) as ->; [|done].
  apply mapM_Some. apply mapM_Some in Hbelow.
  eapply Forall2_impl; [exact Hbelow|]. intros c cs Hc. simpl in *.
  apply IH; [done|lia].
Qed.

(** When the search finds nothing, nothing is attached: the loop over
    the targets has no round. *)
Lemma add_newpath_byid_none fuel target_id path st :
  (forall n, n ∈ TTree.as_list path ->
     TTree.id_truthy (TTree.heap st) n = false) ->
  PostOrderIter fuel (TTree.heap st) (TTree.has_id (TTree.heap st) target_id)
                (TTree.root (TTree.self st)) = Some [] ->
  TTree.add_newpath_byid fuel target_id path st = Ok tt st.
Proof.
  intros Hall Hsearch. unfold TTree.add_newpath_byid.
  erewrite bind_Ok; [|by apply check_path_pass].
  unfold bind, get. by rewrite Hsearch.
Qed.

(** When the search finds one node, the call is [add_newpath] on that
    node. *)
Lemma add_newpath_byid_one fuel target_id path st t :
  PostOrderIter fuel (TTree.heap st) (TTree.has_id (TTree.heap st) target_id)
                (TTree.root (TTree.self st)) = Some [t] ->
  TTree.add_newpath_byid fuel target_id path st
  = TTree.add_newpath fuel (Some t) path st.
Proof.
  intros Hsearch. unfold TTree.add_newpath_byid, TTree.add_newpath.
  unfold bind at 1 3.
  pose proof (check_path_state (TTree.as_list path) st) as Hst.
  destruct (TTree.check_path (TTree.as_list path) st) as [[] st1|e st1|];
    [subst st1|done|done].
  unfold bind at 1. unfold get. rewrite Hsearch. simpl. unfold bind.
  by destruct (TTree.__add_newpath_byref fuel (Some t) (TTree.as_list path) st)
    as [[] st2|e st2|].
Qed.

(** The check of the path, in one expression. *)
Lemma check_path_existsb path st :
  TTree.check_path path st
  = if existsb (TTree.id_truthy (TTree.heap st)) path
    then Raise (Exception TTree.precondition_msg) st else Ok tt st.
Proof.
  induction path as [|n path IH]; [done|].
  simpl. unfold bind, get, raise.
  by destruct (TTree.id_truthy (TTree.heap st) n).
Qed.

(** A search that finds nothing leaves the call with the outcome of the
    check of the path. *)
Lemma add_newpath_byid_nothing_found fuel target_id path st :
  PostOrderIter fuel (TTree.heap st) (TTree.has_id (TTree.heap st) target_id)
                (TTree.root (TTree.self st)) = Some [] ->
  TTree.add_newpath_byid fuel target_id path st
  = if existsb (TTree.id_truthy (TTree.heap st)) (TTree.as_list path)
    then Raise (Exception TTree.precondition_msg) st else Ok tt st.
Proof.
  intros Hsearch. unfold TTree.add_newpath_byid. unfold bind at 1.
  rewrite check_path_existsb.
  destruct (existsb (TTree.id_truthy (TTree.heap st)) (TTree.as_list path));
    [done|].
  unfold bind, get. by rewrite Hsearch.
Qed.

End search.

(** X9.  The targets of [add_newpath_byid] are the nodes below the
    root, the root included, that carry the identifier, in the order of
    the post-order traversal: the filtered search returns the plain
    traversal with the other nodes left out. *)
Theorem search_is_filtered_traversal fuel h target_id root :
  PostOrderIter fuel h (TTree.has_id h target_id) root
  = filter (fun n => Node.id_of h n = Some target_id)
    <$> reachable fuel h root.
Proof.
  unfold reachable. rewrite PostOrderIter_filter.
  destruct (PostOrderIter fuel h (fun _ => true) root) as [found|]; [|done].
  simpl. f_equal. apply list_filter_iff. intros n. unfold TTree.has_id.
  apply bool_decide_spec.
Qed.

(** X10.  When the search of [add_newpath_byid] completes, the tree
    below the root being no deeper than the recursion limit allows, and
    no node below the root carries the identifier, the call changes
    nothing: it raises the precondition error if an element of the path
    has an identifier other than 0, and returns normally otherwise, also
    for the empty path, on which [add_newpath] raises [IndexError]. *)
Theorem add_newpath_byid_unknown_identifier fuel target_id path st found :
  reachable fuel (TTree.heap st) (TTree.root (TTree.self st)) = Some found ->
  (forall n, n ∈ found -> Node.id_of (TTree.heap st) n ≠ Some target_id) ->
  TTree.add_newpath_byid fuel target_id path st
  = if existsb (TTree.id_truthy (TTree.heap st)) (TTree.as_list path)
    then Raise (Exception TTree.precondition_msg) st else Ok tt st.
Proof.
  intros Hreach Hnone. apply add_newpath_byid_nothing_found.
  unfold reachable in Hreach. rewrite PostOrderIter_filter, Hreach. simpl.
  f_equal. clear Hreach. induction found as [|n found IH]; [done|].
  rewrite filter_cons.
  destruct (decide (TTree.has_id (TTree.heap st) target_id n)) as [Hn|_].
  - exfalso. apply (Hnone n); [by left|].
    unfold TTree.has_id in Hn. by apply bool_decide_unpack in Hn.
  - apply IH. intros m Hm. apply Hnone. by right.
Qed.

(** In [family_state] no node has identifier 7: the empty path is
    accepted and the path made of node [1], which has identifier 1, is
    refused, both with nothing changed. *)
Lemma add_newpath_byid_unknown_identifier_witness :
  TTree.add_newpath_byid 2 7 (TTree.Many []) family_state = Ok tt family_state
  /\ TTree.add_newpath_byid 2 7 (TTree.Single 1) family_state
     = Raise (Exception TTree.precondition_msg) family_state.
Proof.
  assert (Hnone : forall n, n ∈ [1; 2; 0] ->
            Node.id_of (TTree.heap family_state) n ≠ Some 7%Z).
  { intros n Hn. rewrite !elem_of_cons, elem_of_nil in Hn.
    destruct Hn as [->|[->|[->|[]]]]; vm_compute; discriminate. }
  split.
  - apply (add_newpath_byid_unknown_identifier 2 7 (TTree.Many [])
             family_state [1; 2; 0]); [vm_compute; reflexivity|exact Hnone].
  - apply (add_newpath_byid_unknown_identifier 2 7 (TTree.Single 1)
             family_state [1; 2; 0]); [vm_compute; reflexivity|exact Hnone].
Defined.

(** X11.  When the search of [add_newpath_byid] completes, the tree
    below the root being no deeper than the recursion limit allows, and
    exactly one node below the root carries the identifier,
    [add_newpath_byid] does what [add_newpath] does with that node as
    target: the same outcome and the same final state, also where
    [add_newpath] raises. *)
Theorem add_newpath_byid_single_match fuel target_id path st found t :
  reachable fuel (TTree.heap st) (TTree.root (TTree.self st)) = Some found ->
  filter (fun n => Node.id_of (TTree.heap st) n = Some target_id) found = [t] ->
  TTree.add_newpath_byid fuel target_id path st
  = TTree.add_newpath fuel (Some t) path st.
Proof.
  intros Hreach Hone. apply add_newpath_byid_one.
  unfold reachable in Hreach. rewrite PostOrderIter_filter, Hreach. simpl.
  f_equal. rewrite <- Hone. apply list_filter_iff. intros n.
  unfold TTree.has_id. apply bool_decide_spec.
Qed.

Lemma add_newpath_byid_single_match_witness :
  TTree.add_newpath_byid 3 2 (TTree.Single 3) family_state
  = TTree.add_newpath 3 (Some 2) (TTree.Single 3) family_state.
Proof.
  apply (add_newpath_byid_single_match 3 2 (TTree.Single 3) family_state
           [1; 2; 0] 2).
  - vm_compute. reflexivity.
  - vm_compute. reflexivity.
Defined.

(** ** Consistent links on every outcome *)

Section links_kept.
Implicit Types (h : gmap loc Node.t) (st : TTree.state) (l n s t : loc).

(** On a store with consistent links the parent setter returns with
    consistent links or raises [LoopError] with nothing changed; the
    library's assertions do not fail. *)
Lemma set_parent_links fuel s v h :
  consistent h -> is_Some (h !! s) ->
  (forall t, v = Some t -> is_Some (h !! t)) ->
  match Node.NodeMixin.set_parent fuel s v h with
  | Ok _ h' => consistent h' /\ (forall l, is_Some (h' !! l) <-> is_Some (h !! l))
  | Raise e h' => h' = h /\ e = LoopError
  | OutOfFuel => True
  end.
Proof.
  intros Hc Hs Hv. destruct v as [t|].
  - specialize (Hv t eq_refl).
    destruct (decide (Node.parent_of h s = Some t)) as [Heq|Hne].
    { destruct (set_parent_ok fuel h s t Hc Hs Hv (or_introl Heq))
        as (h' & -> & Hc' & _ & _ & _ & _ & Ha). by split. }
    destruct (decide (s = t)) as [Hst|Hst].
    { by rewrite (set_parent_loop fuel h s t Hne (or_introl Hst)). }
    destruct (Node.NodeMixin.on_path_reverse fuel h s t) as [[]|] eqn:Hw.
    + by rewrite (set_parent_loop fuel h s t Hne (or_intror Hw)).
    + destruct (set_parent_ok fuel h s t Hc Hs Hv (or_intror Hw))
        as (h' & -> & Hc' & _ & _ & _ & _ & Ha). by split.
    + unfold Node.NodeMixin.set_parent, bind, get.
      destruct (decide (Node.parent_of h s = Some t)); [done|].
      unfold Node.NodeMixin.__check_loop.
      destruct (decide (t = s)); [done|]. by rewrite Hw.
  - unfold Node.NodeMixin.set_parent, bind, get.
    destruct (decide (Node.parent_of h s = None)) as [|Hne]; [by split|].
    change (Node.NodeMixin.__check_loop fuel s None h) with (Ok tt h).
    cbv beta iota.
    destruct (Node.parent_of h s) as [p|] eqn:Hp; [|done].
    destruct (detach_ok h s p Hc Hp) as (hd & -> & Hcd & _ & _ & _ & _ & Ha).
    by split.
Qed.

Lemma on_heap_set_parent_links fuel s v st :
  consistent (TTree.heap st) -> is_Some (TTree.heap st !! s) ->
  (forall t, v = Some t -> is_Some (TTree.heap st !! t)) ->
  match TTree.on_heap (Node.set_parent fuel s v) st with
  | Ok _ st' =>
      consistent (TTree.heap st') /\ same_objects st st'
      /\ TTree.self st' = TTree.self st
  | Raise e st' => st' = st /\ e = LoopError
  | OutOfFuel => True
  end.
Proof.
  intros Hc Hs Hv. rewrite on_heap_set_parent.
  pose proof (set_parent_links fuel s v _ Hc Hs Hv) as Hl.
  destruct (Node.NodeMixin.set_parent fuel s v (TTree.heap st))
    as [[] h'|e h'|]; [|destruct Hl as [-> ->]; by destruct st|done].
  destruct Hl as [Hc' Ha]. split; [done|]. split; [exact Ha|done].
Qed.

(** One round of the path loop, however it ends. *)
Lemma link_links fuel n v st {B} (k : M TTree.state B)
    (Q : outcome TTree.state B -> Prop) :
  consistent (TTree.heap st) -> is_Some (TTree.heap st !! n) ->
  (forall t, v = Some t -> is_Some (TTree.heap st !! t)) ->
  Q OutOfFuel -> Q (Raise LoopError st) ->
  (forall st1, consistent (TTree.heap st1) -> same_objects st st1 -> Q (k st1)) ->
  Q ((run TTree.on_heap (Node.set_parent fuel n v); run TTree.set_id n; k) st).
Proof.
  intros Hc Hn Hv Hfuel Hloop Hk. unfold bind at 1.
  pose proof (on_heap_set_parent_links fuel n v st Hc Hn Hv) as Hl.
  destruct (TTree.on_heap (Node.set_parent fuel n v) st) as [p st1|e st1|];
    [|by destruct Hl as [-> ->]|done].
  destruct Hl as (Hc1 & Ho1 & _). unfold bind. rewrite set_id_run.
  apply Hk; simpl.
  - by apply consistent_alter_id.
  - intros l. simpl. rewrite allocated_alter. apply Ho1.
Qed.

Lemma chain_links fuel rest :
  forall prev st,
    consistent (TTree.heap st) -> is_Some (TTree.heap st !! prev) ->
    (forall n, n ∈ rest -> is_Some (TTree.heap st !! n)) ->
    match TTree.chain fuel prev rest st with
    | Ok _ st' => consistent (TTree.heap st')
    | Raise e st' => consistent (TTree.heap st') /\ e = LoopError
    | OutOfFuel => True
    end.
Proof.
  induction rest as [|n rest IH]; intros prev st Hc Hprev Hall; [done|].
  simpl. apply link_links; [done|apply Hall; by left|by intros t [= <-]|done
                           |done|].
  intros st1 Hc1 Ho1. apply IH; [done|apply Ho1, Hall; by left|].
  intros m Hm. apply Ho1, Hall. by right.
Qed.

End links_kept.

(** X12.  A path attachment never corrupts the links.  On a store
    whose parent and children links agree, [add_newpath] ends with links
    that agree, also when it raises after part of the path was attached;
    the only errors it raises are the precondition error, [IndexError]
    for the empty path and [LoopError]; anytree's assertion on corrupt
    tree data never fails. *)
Theorem add_newpath_keeps_links fuel st target path :
  consistent (TTree.heap st) ->
  (forall t, target = Some t -> is_Some (TTree.heap st !! t)) ->
  (forall n, n ∈ TTree.as_list path -> is_Some (TTree.heap st !! n)) ->
  match TTree.add_newpath fuel target path st with
  | Ok _ st' => consistent (TTree.heap st')
  | Raise e st' =>
      consistent (TTree.heap st')
      /\ (e = Exception TTree.precondition_msg \/ e = IndexError
          \/ e = LoopError)
  | OutOfFuel => True
  end.
Proof.
  intros Hc Ht Hall. unfold TTree.add_newpath. unfold bind at 1.
  pose proof (check_path_state (TTree.as_list path) st) as Hst.
  destruct (TTree.check_path (TTree.as_list path) st) as [[] st1|e st1|] eqn:Hck;
    [subst st1| |done].
  - destruct (TTree.as_list path) as [|first rest]; [split; [done|]; auto|].
    simpl. apply link_links; [done|apply Hall; by left|done|done|by auto|].
    intros st1 Hc1 Ho1.
    pose proof (chain_links fuel rest first st1 Hc1) as Hch.
    destruct (TTree.chain fuel first rest st1) as [[] st2|e st2|]; [| |done].
    + apply Hch; [apply Ho1, Hall; by left|].
      intros m Hm. apply Ho1, Hall. by right.
    + destruct Hch as [? ->]; [apply Ho1, Hall; by left| |by auto].
      intros m Hm. apply Ho1, Hall. by right.
  - subst st1. split; [done|]. left.
    clear Hall. induction (TTree.as_list path) as [|n rest IH]; [done|].
    simpl in Hck. unfold bind, get in Hck.
    destruct (TTree.id_truthy (TTree.heap st) n); [by injection Hck as <-|].
    by apply IH.
Qed.

(** The same node twice in a path: the call raises after the first
    attachment, and the links still agree. *)
Lemma add_newpath_keeps_links_witness :
  match TTree.add_newpath 3 (Some 0) (TTree.Many [3; 3]) family_state with
  | Ok _ st' => consistent (TTree.heap st')
  | Raise e st' =>
      consistent (TTree.heap st')
      /\ (e = Exception TTree.precondition_msg \/ e = IndexError
          \/ e = LoopError)
  | OutOfFuel => True
  end.
Proof.
  apply (add_newpath_keeps_links 3 family_state (Some 0) (TTree.Many [3; 3])).
  - apply consistentb_sound. vm_compute. reflexivity.
  - intros t [= <-]. vm_compute. eexists. reflexivity.
  - simpl. intros n Hn. rewrite !elem_of_cons, elem_of_nil in Hn.
    destruct Hn as [->|[->|[]]]; vm_compute; eexists; reflexivity.
Defined.

(** X13.  [add_node] is all or nothing.  On a store whose links agree,
    [add_node] either returns with links that agree, or raises
    [LoopError] with the tree and the store exactly as they were. *)
Theorem add_node_all_or_nothing fuel st target new_node :
  consistent (TTree.heap st) ->
  (forall t, target = Some t -> is_Some (TTree.heap st !! t)) ->
  (forall n, new_node = Some n -> is_Some (TTree.heap st !! n)) ->
  match TTree.add_node fuel target new_node st with
  | Ok _ st' => consistent (TTree.heap st')
  | Raise e st' => st' = st /\ e = LoopError
  | OutOfFuel => True
  end.
Proof.
  intros Hc Ht Hn.
  destruct target as [t|]; [|done]. destruct new_node as [n|]; [|done].
  unfold TTree.add_node. unfold bind at 1. unfold get.
  case_bool_decide; [|done]. unfold bind at 1.
  pose proof (on_heap_set_parent_links fuel n (Some t) st Hc (Hn n eq_refl))
    as Hl.
  destruct (TTree.on_heap (Node.set_parent fuel n (Some t)) st)
    as [p st1|e st1|]; [|by apply Hl|done].
  destruct Hl as (Hc1 & _ & _); [by intros ? [= <-]; apply Ht|].
  simpl. by apply consistent_alter_id.
Qed.

Lemma add_node_all_or_nothing_witness :
  match TTree.add_node 2 (Some 1) (Some 0) family_state with
  | Ok _ st' => consistent (TTree.heap st')
  | Raise e st' => st' = family_state /\ e = LoopError
  | OutOfFuel => True
  end.
Proof.
  apply (add_node_all_or_nothing 2 family_state (Some 1) (Some 0)).
  - apply consistentb_sound. vm_compute. reflexivity.
  - intros t [= <-]. vm_compute. eexists. reflexivity.
  - intros n [= <-]. vm_compute. eexists. reflexivity.
Defined.

(** X14.  [add_newpath] is not all or nothing.  With the same node
    twice at the head of the path, the node is attached under the
    target and numbered, the counter advances, and only then the call
    raises [LoopError], at the second occurrence: the error leaves the
    first attachment in place. *)
Theorem add_newpath_repeated_head fuel st t n rest :
  consistent (TTree.heap st) ->
  is_Some (TTree.heap st !! t) -> is_Some (TTree.heap st !! n) ->
  (forall m, m ∈ n :: rest -> TTree.id_truthy (TTree.heap st) m = false) ->
  not_above fuel (TTree.heap st) n t ->
  exists h',
    TTree.add_newpath fuel (Some t) (TTree.Many (n :: n :: rest)) st
    = Raise LoopError (TTree.State (advanced 1 (TTree.self st)) h')
    /\ Node.parent_of h' n = Some t
    /\ n ∈ Node.children_of h' t
    /\ Node.id_of h' n = Some (TTree.id_iterator (TTree.self st)).
Proof.
  intros Hc Ht Hn Hall Hw.
  destruct (link_ok fuel st n t Hc Hn Ht (or_intror Hw)) as (h' & Hrun & Hch).
  exists h'.
  destruct (chained_child _ _ _ _ _ 0 n Hch eq_refl) as (p & [= <-] & Hp & Hin).
  destruct Hch as (_ & Hl & _). destruct (Hl 0 n eq_refl) as [_ Hid].
  rewrite Z.add_0_r in Hid.
  split; [|done].
  unfold TTree.add_newpath. simpl TTree.as_list.
  erewrite bind_Ok.
  2:{ apply check_path_pass. intros m Hm. apply Hall.
      apply elem_of_cons in Hm as [->|Hm]; [by left|done]. }
  simpl. rewrite Hrun. unfold bind at 1.
  rewrite on_heap_set_parent. simpl TTree.heap.
  rewrite (set_parent_loop fuel h' n n); [done| |by left].
  rewrite Hp. intros [= ->]. by apply not_above_ne in Hw.
Qed.

Lemma add_newpath_repeated_head_witness :
  exists h',
    TTree.add_newpath 1 (Some 0) (TTree.Many [1; 1; 2]) test_state
    = Raise LoopError (TTree.State (TTree.mk "test" 0 2 [0]) h')
    /\ Node.parent_of h' 1 = Some 0
    /\ 1 ∈ Node.children_of h' 0
    /\ Node.id_of h' 1 = Some 1%Z.
Proof.
  apply (add_newpath_repeated_head 1 test_state 0 1 [2]).
  - apply consistentb_sound. vm_compute. reflexivity.
  - vm_compute. eexists. reflexivity.
  - vm_compute. eexists. reflexivity.
  - intros m Hm. rewrite !elem_of_cons, elem_of_nil in Hm.
    destruct Hm as [->|[->|[]]]; vm_compute; reflexivity.
  - vm_compute. reflexivity.
Defined.

(** X15.  A successful [add_newpath] makes no node acceptable as target
    of [add_node]: a node that was not in the tree's list of nodes
    before the call, be it a node of the path or any other, is not in it
    afterwards, so [add_node] with that node as target returns with
    nothing changed. *)
Theorem add_node_ignores_path_nodes fuel st target path st' n new_node :
  TTree.add_newpath fuel target path st = Ok tt st' ->
  n ∉ TTree.__nodes (TTree.self st) ->
  TTree.add_node fuel (Some n) new_node st' = Ok tt st'.
Proof.
  intros Hrun Hn. apply add_node_noop. right.
  destruct new_node as [m|]; [right|by left].
  exists n. split; [done|].
  pose proof (add_newpath_keeps_nodes_list fuel target path st) as Hk.
  rewrite Hrun in Hk. unfold same_nodes_list in Hk. by rewrite Hk.
Qed.

Lemma add_node_ignores_path_nodes_witness :
  exists st',
    TTree.add_newpath 1 (Some 0) (TTree.Single 1) test_state = Ok tt st'
    /\ TTree.add_node 1 (Some 1) (Some 2) st' = Ok tt st'.
Proof.
  eexists. split; [vm_compute; reflexivity|].
  eapply (add_node_ignores_path_nodes 1 test_state (Some 0) (TTree.Single 1)).
  - vm_compute. reflexivity.
  - simpl. intros H%list_elem_of_singleton. lia.
Defined.

(** ** A tree built by add_node alone *)

Section counted.
Implicit Types (h : gmap loc Node.t) (st : TTree.state) (l n t : loc).

Lemma add_node_all_counted fuel calls :
  forall st,
    ids_unique_in_range st ->
    TTree.id_iterator (TTree.self st)
    = Z.of_nat (length (TTree.__nodes (TTree.self st))) ->
    (forall target n, (target, Some n) ∈ calls -> is_Some (TTree.heap st !! n)) ->
    match add_node_all fuel calls st with
    | Ok _ st' | Raise _ st' =>
        ids_unique_in_range st'
        /\ TTree.id_iterator (TTree.self st')
           = Z.of_nat (length (TTree.__nodes (TTree.self st')))
    | OutOfFuel => True
    end.
Proof.
  induction calls as [|[target new_node] calls IH]; intros st Hids Hcount Halloc;
    [done|].
  simpl. unfold bind.
  pose proof (add_node_ids fuel target new_node st Hids) as Hstep.
  pose proof (same_objects_add_node fuel target new_node st) as Hobj.
  destruct (TTree.add_node fuel target new_node st) as [[] st1|e st1|];
    [| |done].
  - destruct Hstep as [Hids1 Hself].
    { intros n ->. apply (Halloc target). by left. }
    apply IH; [done| |].
    + destruct Hself as [->|(n & _ & ->)]; [done|]. simpl.
      rewrite length_app. simpl. lia.
    + intros t n Hin. apply Hobj, (Halloc t). by right.
  - destruct Hstep as [Hids1 ->]; [|done].
    intros n ->. apply (Halloc target). by left.
Qed.

End counted.

(** X16.  In a tree built by [add_node] alone, identifiers stay
    unique.  [TTree(name, root)] gives the root the identifier 0 and
    starts the counter at 1; after any sequence of [add_node] calls on
    it, however the sequence ends, the nodes in the tree's list have
    pairwise different identifiers in [[0, id_iterator)], and
    [id_iterator] is the length of the list. *)
Theorem new_tree_identifiers fuel name root calls h :
  is_Some (h !! root) ->
  (forall target n, (target, Some n) ∈ calls -> is_Some (h !! n)) ->
  exists tree h0,
    TTree.__init__ name root h = Ok tree h0
    /\ TTree.id_iterator tree = 1%Z
    /\ Node.id_of h0 root = Some 0%Z
    /\ match add_node_all fuel calls (TTree.State tree h0) with
       | Ok _ st' | Raise _ st' =>
           ids_unique_in_range st'
           /\ TTree.id_iterator (TTree.self st')
              = Z.of_nat (length (TTree.__nodes (TTree.self st')))
       | OutOfFuel => True
       end.
Proof.
  intros Hroot Halloc.
  destruct (init_ids name root h Hroot) as (h0 & Hrun & Hid & Hids).
  exists (TTree.mk name root 1 [root]), h0.
  split; [done|]. split; [done|]. split; [done|].
  apply add_node_all_counted; [done|done|].
  intros t n Hin. simpl. injection Hrun as <-.
  rewrite allocated_alter. by eapply Halloc.
Qed.

(** A tree on node [0] of the store of [test_state], then [1] under the
    root, [1] again under the root, [2] under [1], and the root under
    itself, which raises. *)
Lemma new_tree_identifiers_witness :
  exists tree h0,
    TTree.__init__ "again" 0 (TTree.heap test_state) = Ok tree h0
    /\ TTree.id_iterator tree = 1%Z
    /\ Node.id_of h0 0 = Some 0%Z
    /\ match add_node_all 2 [(Some 0, Some 1); (Some 0, Some 1);
                              (Some 1, Some 2); (Some 0, Some 0)]
               (TTree.State tree h0) with
       | Ok _ st' | Raise _ st' =>
           ids_unique_in_range st'
           /\ TTree.id_iterator (TTree.self st')
              = Z.of_nat (length (TTree.__nodes (TTree.self st')))
       | OutOfFuel => True
       end.
Proof.
  apply (new_tree_identifiers 2 "again" 0
           [(Some 0, Some 1); (Some 0, Some 1); (Some 1, Some 2);
            (Some 0, Some 0)] (TTree.heap test_state)).
  - vm_compute. eexists. reflexivity.
  - intros target n Hin. rewrite !elem_of_cons, elem_of_nil in Hin.
    destruct Hin as [[= _ ->]|[[= _ ->]|[[= _ ->]|[[= _ ->]|[]]]]];
      vm_compute; eexists; reflexivity.
Defined.

(** ** The precondition error *)

Section precondition.
Implicit Types (h : gmap loc Node.t) (st : TTree.state) (l n t : loc).

Lemma byref_raises fuel target path st e st' :
  TTree.__add_newpath_byref fuel target path st = Raise e st' ->
  e = LoopError \/ e = AssertionError \/ e = IndexError.
Proof.
  destruct path as [|first rest]; [intros [= <- _]; auto|].
  simpl. intros [[|]|(st1 & [|]%chain_raises)]%link_raises; auto.
Qed.

Lemma id_truthy_spec h n :
  TTree.id_truthy h n = true
  <-> exists i, Node.id_of h n = Some i /\ i ≠ 0%Z.
Proof.
  unfold TTree.id_truthy. destruct (Node.id_of h n) as [i|].
  - rewrite negb_true_iff, Z.eqb_neq. split; [by exists i|].
    by intros (j & [= <-] & Hj).
  - split; [done|]. by intros (j & ? & _).
Qed.

End precondition.

(** X17.  When [add_newpath] raises its precondition error.  The call
    raises [Exception("Nodes within new path cannot be contained in the
    tree already.")] exactly when some element of the path has an
    identifier other than 0; the error is raised before anything is
    changed.  An element with identifier 0 does not trigger it. *)
Theorem add_newpath_precondition_error fuel st target path msg st' :
  TTree.add_newpath fuel target path st = Raise (Exception msg) st'
  <-> msg = TTree.precondition_msg /\ st' = st
      /\ exists n i, n ∈ TTree.as_list path
                     /\ Node.id_of (TTree.heap st) n = Some i /\ i ≠ 0%Z.
Proof.
  split.
  - intros Hrun.
    destruct (decide (Exists (fun n => TTree.id_truthy (TTree.heap st) n = true)
                             (TTree.as_list path))) as [Hex|Hall].
    + apply Exists_exists in Hex as (n & Hn & (i & Hi & Hi0)%id_truthy_spec).
      rewrite (add_newpath_rejects fuel st target path n i Hn Hi Hi0) in Hrun.
      injection Hrun as <- <-. split; [done|]. split; [done|]. by exists n, i.
    + exfalso. apply not_Exists_Forall in Hall; [|intros ?; apply _].
      rewrite Forall_forall in Hall.
      unfold TTree.add_newpath in Hrun. erewrite bind_Ok in Hrun.
      2:{ apply check_path_pass. intros n Hn. specialize (Hall n Hn).
          simpl in Hall. by destruct (TTree.id_truthy (TTree.heap st) n). }
      apply byref_raises in Hrun as [|[|]]; done.
  - intros (-> & -> & n & i & Hn & Hi & Hi0). by eapply add_newpath_rejects.
Qed.

(** ** The constructor of Node *)

Section constructor.
Implicit Types (h : gmap loc Node.t) (l s p q t : loc).

(** On a store with consistent links the walk towards the root stays
    among the allocated objects. *)
Lemma iter_path_reverse_allocated fuel h t path :
  consistent h -> is_Some (h !! t) ->
  iter_path_reverse fuel h t = Some path ->
  forall x, x ∈ path -> is_Some (h !! x).
Proof.
  intros Hc. revert t path. induction fuel as [|fuel IH]; intros t path Ht; [done|].
  simpl. destruct (Node.parent_of h t) as [p|] eqn:Hp.
  - destruct (iter_path_reverse fuel h p) as [rest|] eqn:Hr; [|done].
    intros [= <-] x [->|Hx]%elem_of_cons; [done|].
    eapply (IH p rest); [|done|done].
    eapply children_of_allocated. by apply Hc.
  - by intros [= <-] x ->%list_elem_of_singleton.
Qed.

(** A walk that ends without meeting [s] passes the loop check
    of [s]. *)
Lemma path_not_above fuel h s t path :
  iter_path_reverse fuel h t = Some path -> s ∉ path -> not_above fuel h s t.
Proof.
  unfold not_above. revert t path. induction fuel as [|fuel IH]; intros t path; [done|].
  simpl. destruct (Node.parent_of h t) as [p|].
  - destruct (iter_path_reverse fuel h p) as [rest|] eqn:Hr; [|done].
    intros [= <-] [Hts Hrest]%not_elem_of_cons.
    destruct (decide (t = s)); [congruence|]. by eapply IH.
  - intros [= <-] Hts%not_elem_of_cons.
    destruct (decide (t = s)); [|done]. by destruct Hts.
Qed.

Lemma consistent_insert_fresh h s (x : Node.t) :
  consistent h -> h !! s = None ->
  Node.parent x = None -> Node.children x = [] ->
  consistent (<[s := x]> h).
Proof.
  intros Hc Hs Hpx Hcx c q. unfold Node.parent_of, Node.children_of.
  destruct (decide (c = s)) as [->|Hcs].
  - rewrite lookup_insert_eq. simpl. rewrite Hpx. split; [done|].
    destruct (decide (q = s)) as [->|Hqs].
    + rewrite lookup_insert_eq. simpl. rewrite Hcx. by intros ?%elem_of_nil.
    + rewrite lookup_insert_ne by done. intros Hin.
      apply Hc, parent_of_allocated in Hin. rewrite Hs in Hin.
      by destruct Hin.
  - rewrite lookup_insert_ne by done.
    destruct (decide (q = s)) as [->|Hqs].
    + rewrite lookup_insert_eq. simpl. rewrite Hcx. split.
      * intros Hp. apply Hc, children_of_allocated in Hp. rewrite Hs in Hp.
        by destruct Hp.
      * by intros ?%elem_of_nil.
    + rewrite lookup_insert_ne by done. apply Hc.
Qed.

End constructor.

(** X18.  [Node(function, parent=p)] adds a last child to [p].  On a
    store with consistent links, and with fuel for the walk from [p] to
    its root, the constructor returns a reference that was not in use;
    the new node has the name of the callable, the parent [p], no child
    and no identifier; it is appended to the children of [p]; every
    other object is as it was, and the links stay consistent. *)
Theorem node_init_under_parent fuel h function p :
  consistent h ->
  is_Some (h !! p) ->
  is_Some (iter_path_reverse fuel h p) ->
  exists self h',
    Node.__init__ fuel function (Some p) h = Ok self h'
    /\ h !! self = None
    /\ h' !! self
       = Some (Node.mk (__name__ function) function (Some p) [] None)
    /\ h' !! p = Node.with_children (Node.children_of h p ++ [self]) <$> h !! p
    /\ (forall l, l ≠ self -> l ≠ p -> h' !! l = h !! l)
    /\ consistent h'.
Proof.
  intros Hc Hp [path Hpath].
  set (self := fresh (dom h)).
  set (x := Node.mk (__name__ function) function None [] None).
  assert (Hself : h !! self = None).
  { apply not_elem_of_dom. apply is_fresh. }
  assert (Hps : p ≠ self).
  { intros ->. rewrite Hself in Hp. by destruct Hp. }
  assert (Hc0 : consistent (<[self := x]> h))
    by by apply consistent_insert_fresh.
  assert (Hpar : forall l, l ≠ self ->
            Node.parent_of (<[self := x]> h) l = Node.parent_of h l).
  { intros l Hl. unfold Node.parent_of. by rewrite lookup_insert_ne. }
  assert (Hch : Node.children_of (<[self := x]> h) p = Node.children_of h p).
  { unfold Node.children_of. by rewrite lookup_insert_ne. }
  assert (Hw : not_above fuel (<[self := x]> h) self p).
  { apply path_not_above with path.
    - apply (iter_path_reverse_stable fuel h _ self p path); [done| |done].
      intros Hin.
      apply (iter_path_reverse_allocated fuel h p path Hc Hp Hpath) in Hin.
      rewrite Hself in Hin. by destruct Hin.
    - intros Hin.
      apply (iter_path_reverse_allocated fuel h p path Hc Hp Hpath) in Hin.
      rewrite Hself in Hin. by destruct Hin. }
  assert (Hp0 : Node.parent_of (<[self := x]> h) self = None).
  { unfold Node.parent_of. by rewrite lookup_insert_eq. }
  destruct (attach_ok (<[self := x]> h) self p Hc0 Hp0)
    as (h' & Hatt & Hc' & _ & _).
  { rewrite lookup_insert_eq. by eexists. }
  { by rewrite lookup_insert_ne. }
  exists self, h'. split.
  { unfold Node.__init__, bind, get, modify. fold self. fold x.
    unfold Node.NodeMixin.set_parent, bind, get. rewrite Hp0.
    destruct (decide (None = Some p)); [done|].
    unfold Node.NodeMixin.__check_loop.
    destruct (decide (p = self)); [done|]. rewrite Hw.
    change (Node.NodeMixin.__detach self None (<[self := x]> h))
      with (Ok tt (<[self := x]> h)).
    cbv beta iota. by rewrite Hatt. }
  split; [done|].
  unfold Node.NodeMixin.__attach in Hatt. rewrite Hch in Hatt.
  case_bool_decide; [done|]. injection Hatt as <-.
  split; [|split; [|split; [|done]]].
  - by rewrite lookup_alter_eq, lookup_alter_ne, lookup_insert_eq.
  - by rewrite lookup_alter_ne, lookup_alter_eq, lookup_insert_ne.
  - intros l Hls Hlp.
    by rewrite !lookup_alter_ne, lookup_insert_ne.
Qed.

(** A new child [Node(op3, parent=1)] in the store of [family_state]. *)
Lemma node_init_under_parent_witness :
  exists self h',
    Node.__init__ 2 op3 (Some 1) (TTree.heap family_state) = Ok self h'
    /\ TTree.heap family_state !! self = None
    /\ h' !! self = Some (Node.mk "op3" op3 (Some 1) [] None)
    /\ h' !! 1
       = Node.with_children
           (Node.children_of (TTree.heap family_state) 1 ++ [self])
         <$> TTree.heap family_state !! 1
    /\ (forall l, l ≠ self -> l ≠ 1 -> h' !! l = TTree.heap family_state !! l)
    /\ consistent h'.
Proof.
  apply (node_init_under_parent 2 (TTree.heap family_state) op3 1).
  - apply consistentb_sound. vm_compute. reflexivity.
  - vm_compute. eexists. reflexivity.
  - vm_compute. eexists. reflexivity.
Defined.

(** ** The traversal lists the descendants *)

Section traversal.
Implicit Types (h : gmap loc Node.t) (l n c r : loc).

Lemma elem_of_concat {A} (x : A) (ls : list (list A)) :
  x ∈ concat ls <-> exists sub, x ∈ sub /\ sub ∈ ls.
Proof.
  induction ls as [|sub ls IH]; simpl.
  - split; [by intros ?%elem_of_nil|]. by intros (? & _ & ?%elem_of_nil).
  - rewrite elem_of_app, IH. split.
    + intros [Hx|(sub' & Hx & Hin)]; [exists sub; split; [done|by left]|].
      exists sub'. split; [done|by right].
    + intros (sub' & Hx & [->|Hin]%elem_of_cons); [by left|].
      right. by exists sub'.
Qed.

Lemma descends_under h r c n :
  c ∈ Node.children_of h r -> descends h c n -> descends h r n.
Proof.
  intros Hc Hd. induction Hd as [|m k _ IH Hk].
  - by apply descends_child with r; [apply descends_root|].
  - by apply descends_child with m.
Qed.

Lemma reachable_sound fuel h :
  forall r found, reachable fuel h r = Some found ->
                  forall n, n ∈ found -> descends h r n.
Proof.
  unfold reachable. induction fuel as [|fuel IH]; intros r found; [done|].
  simpl.
  destruct (mapM (PostOrderIter fuel h (fun _ => true)) (Node.children_of h r))
    as [below|] eqn:Hbelow; [|done].
  intros [= <-] n [Hn|Hn%list_elem_of_singleton]%elem_of_app;
    [|subst; apply descends_root].
  apply elem_of_concat in Hn as (sub & Hnsub & Hsub).
  apply mapM_Some in Hbelow.
  apply list_elem_of_lookup in Hsub as [i Hi].
  destruct (Forall2_lookup_r _ _ _ _ _ Hbelow Hi) as (c & Hc & Hrun).
  apply descends_under with c; [by eapply list_elem_of_lookup_2|].
  by eapply IH.
Qed.

Lemma reachable_closed fuel h :
  forall r found,
    reachable fuel h r = Some found ->
    r ∈ found
    /\ forall n c, n ∈ found -> c ∈ Node.children_of h n -> c ∈ found.
Proof.
  unfold reachable. induction fuel as [|fuel IH]; intros r found; [done|].
  simpl.
  destruct (mapM (PostOrderIter fuel h (fun _ => true)) (Node.children_of h r))
    as [below|] eqn:Hbelow; [|done].
  intros [= <-]. split; [apply elem_of_app; right; by left|].
  apply mapM_Some in Hbelow.
  intros n c [Hn|Hn%list_elem_of_singleton]%elem_of_app Hc; apply elem_of_app; left.
  - apply elem_of_concat in Hn as (sub & Hnsub & Hsub).
    apply list_elem_of_lookup in Hsub as [i Hi].
    destruct (Forall2_lookup_r _ _ _ _ _ Hbelow Hi) as (k & Hk & Hrun).
    apply elem_of_concat. exists sub. split; [|by eapply list_elem_of_lookup_2].
    destruct (IH k sub Hrun) as [_ Hclosed]. by eapply Hclosed.
  - subst n. apply list_elem_of_lookup in Hc as [i Hi].
    destruct (Forall2_lookup_l _ _ _ _ _ Hbelow Hi) as (sub & Hsub & Hrun).
    apply elem_of_concat. exists sub. split; [|by eapply list_elem_of_lookup_2].
    by destruct (IH c sub Hrun) as [Hin _].
Qed.

End traversal.

(** X20.  The traversal behind [add_newpath_byid] lists exactly the
    descendants of the root: a node is in the list if and only if it is
    the root or is reached from it through children lists.  So the
    search misses no node below the root and returns none from
    elsewhere. *)
Theorem reachable_lists_descendants fuel h root found :
  reachable fuel h root = Some found ->
  forall n, n ∈ found <-> descends h root n.
Proof.
  intros Hrun n. split; [by eapply reachable_sound|].
  destruct (reachable_closed fuel h root found Hrun) as [Hroot Hclosed].
  intros Hd. induction Hd as [|m c _ IH Hc]; [done|]. by eapply Hclosed.
Qed.

Lemma reachable_lists_descendants_witness :
  reachable 2 (TTree.heap family_state) 0 = Some [1; 2; 0]
  /\ (2 ∈ [1; 2; 0] <-> descends (TTree.heap family_state) 0 2).
Proof.
  split; [vm_compute; reflexivity|].
  apply (reachable_lists_descendants 2 (TTree.heap family_state) 0 [1; 2; 0]).
  vm_compute. reflexivity.
Defined.

(** ** add_newpath without a target *)

Section no_target.
Implicit Types (h : gmap loc Node.t) (st : TTree.state) (l n s t : loc).

Lemma set_parent_none_ok fuel h s :
  consistent h -> is_Some (h !! s) ->
  exists h1,
    Node.NodeMixin.set_parent fuel s None h = Ok tt h1
    /\ consistent h1 /\ Node.parent_of h1 s = None /\ reparents s h h1.
Proof.
  intros Hc Hs. unfold Node.NodeMixin.set_parent, bind, get.
  destruct (decide (Node.parent_of h s = None)) as [Heq|Hne].
  { exists h. split; [done|]. split; [done|]. split; [done|].
    apply reparents_refl. }
  change (Node.NodeMixin.__check_loop fuel s None h) with (Ok tt h).
  cbv beta iota.
  destruct (Node.parent_of h s) as [p|] eqn:Hp; [|done].
  destruct (detach_ok h s p Hc Hp) as (hd & -> & Hcd & Hpd & Hf).
  by exists hd.
Qed.

End no_target.

(** X19.  [add_newpath] accepts [None] as target.  Unlike [add_node],
    it does not return early on a missing target: the first node of the
    path is detached from whatever parent it had and left without
    parent, the rest of the path is chained below it, and all of them
    are numbered from the tree's counter, which advances by the length
    of the path. *)
Theorem add_newpath_without_target fuel st first rest :
  consistent (TTree.heap st) ->
  NoDup (first :: rest) ->
  (forall n, n ∈ first :: rest ->
     is_Some (TTree.heap st !! n)
     /\ TTree.id_truthy (TTree.heap st) n = false) ->
  S (length rest) <= fuel ->
  exists h',
    TTree.add_newpath fuel None (TTree.Many (first :: rest)) st
    = Ok tt (TTree.State
               (advanced (Z.of_nat (S (length rest))) (TTree.self st)) h')
    /\ consistent h'
    /\ Node.parent_of h' first = None
    /\ Node.id_of h' first = Some (TTree.id_iterator (TTree.self st))
    /\ (forall k n, rest !! k = Some n ->
          Node.parent_of h' n = (first :: rest) !! k
          /\ Node.id_of h' n
             = Some (TTree.id_iterator (TTree.self st) + 1 + Z.of_nat k)%Z).
Proof.
  intros Hc [Hfirst Hnd]%NoDup_cons Hall Hfuel.
  destruct (Hall first) as [Hf _]; [by left|].
  destruct (set_parent_none_ok fuel _ first Hc Hf)
    as (h1 & Hrun & Hc1 & Hp1 & _ & _ & _ & Ha1).
  set (c := TTree.id_iterator (TTree.self st)).
  set (h2 := alter (Node.with_id (Some c)) first h1).
  destruct (chain_ok rest 1 fuel
              (TTree.State (advanced 1 (TTree.self st)) h2) first)
    as (h' & Hchain & Hc' & Hl & Hframe & _); simpl.
  - by apply consistent_alter_id.
  - unfold h2. rewrite allocated_alter. by apply Ha1.
  - done.
  - intros n Hn. destruct (Hall n) as [Hn' _]; [by right|].
    split; [unfold h2; rewrite allocated_alter; by apply Ha1|].
    unfold not_above. simpl.
    destruct (decide (first = n)) as [->|_]; [done|].
    unfold h2. by rewrite parent_of_alter_id, Hp1.
  - lia.
  - exists h'. split; [|split; [done|]].
    + unfold TTree.add_newpath. simpl TTree.as_list.
      erewrite bind_Ok; [|apply check_path_pass; intros n Hn; by apply Hall].
      simpl. unfold bind at 1. rewrite on_heap_set_parent, Hrun.
      unfold bind at 1. rewrite set_id_run.
      etrans; [exact Hchain|].
      rewrite Nat2Z.inj_succ. unfold advanced. simpl. f_equal. f_equal. f_equal.
      lia.
    + destruct (Hframe first Hfirst) as [-> ->]. simpl. unfold h2.
      split; [by rewrite parent_of_alter_id|].
      split; [apply id_of_alter_id_eq; by apply Ha1|].
      intros k n Hk. destruct (Hl k n Hk) as [-> ->]. done.
Qed.

(** In [test_state] the path [[3; 1]] is attached under no target:
    node [3] stays without parent, node [1] goes below [3]. *)
Lemma add_newpath_without_target_witness :
  exists h',
    TTree.add_newpath 2 None (TTree.Many [3; 1]) test_state
    = Ok tt (TTree.State (TTree.mk "test" 0 3 [0]) h')
    /\ consistent h'
    /\ Node.parent_of h' 3 = None
    /\ Node.id_of h' 3 = Some 1%Z
    /\ (forall k n, [1] !! k = Some n ->
          Node.parent_of h' n = [3; 1] !! k
          /\ Node.id_of h' n = Some (1 + 1 + Z.of_nat k)%Z).
Proof.
  apply (add_newpath_without_target 2 test_state 3 [1]).
  - apply consistentb_sound. vm_compute. reflexivity.
  - rewrite !NoDup_cons, !elem_of_cons, !elem_of_nil.
    split; [lia|]. split; [tauto|]. apply NoDup_nil_2.
  - intros n Hn. rewrite !elem_of_cons, elem_of_nil in Hn.
    destruct Hn as [->|[->|[]]];
      (split; [vm_compute; eexists; reflexivity|vm_compute; reflexivity]).
  - simpl. lia.
Defined.

(** ** A tree deeper than the recursion limit *)

Lemma PostOrderIter_too_deep fuel h (filter_ : loc -> bool) :
  forall node chain,
    length chain = fuel -> descending h node chain ->
    PostOrderIter fuel h filter_ node = None.
Proof.
  induction fuel as [|fuel IH]; intros node chain Hlen Hd; [done|].
  destruct chain as [|c chain]; [done|]. destruct Hd as [Hc Hd]. simpl.
  assert (mapM (PostOrderIter fuel h filter_) (Node.children_of h node)
          = None) as ->; [|done].
  apply mapM_None. apply Exists_exists. exists c. split; [done|].
  apply (IH c chain); [|done]. simpl in Hlen. lia.
Qed.

(** X21.  On a tree deeper than the recursion limit allows,
    [add_newpath_byid] raises [RecursionError] before anything is
    attached: when a chain of as many nodes as the search has levels
    leads down from the root, child by child, a call whose path passes
    the check ends in [RecursionError] with the tree and the store as
    they were, whatever the identifier. *)
Theorem add_newpath_byid_too_deep fuel target_id path st chain :
  (forall n, n ∈ TTree.as_list path ->
     TTree.id_truthy (TTree.heap st) n = false) ->
  length chain = fuel ->
  descending (TTree.heap st) (TTree.root (TTree.self st)) chain ->
  TTree.add_newpath_byid fuel target_id path st = Raise RecursionError st.
Proof.
  intros Hall Hlen Hd. unfold TTree.add_newpath_byid.
  erewrite bind_Ok; [|by apply check_path_pass].
  unfold bind, get.
  by rewrite (PostOrderIter_too_deep fuel _ _ _ chain Hlen Hd).
Qed.

(** In [family_state] node [1] is a child of the root: a search with one
    level does not get through. *)
Lemma add_newpath_byid_too_deep_witness :
  TTree.add_newpath_byid 1 0 (TTree.Single 3) family_state
  = Raise RecursionError family_state.
Proof.
  apply (add_newpath_byid_too_deep 1 0 (TTree.Single 3) family_state [1]).
  - intros n Hn. apply list_elem_of_singleton in Hn as ->.
    vm_compute. reflexivity.
  - reflexivity.
  - split; [|exact I]. vm_compute. by left.
Defined.
